(** * JFLAP-Online: the automata simulation engine, embedded in Rocq

    Shallow embedding of the engine's core classes

      - [State]          (js/core, class State)
      - [Transition]     (class Transition)
      - [Automaton]      (js/core/Automaton.js)
      - [DFA]            (js/machines/DFA.js)
      - [NFA], [PDA], [TuringMachine]

    Conventions of the embedding.

    - JavaScript objects have identity.  [State] objects live in an object
      store ([heap], a list indexed by allocation order); an automaton holds
      references ([loc]) to them, so that the aliasing of
      [this.initialState] with an element of [this.states] is the aliasing
      of the source.
    - A JavaScript [Set] is a duplicate-free list in insertion order (the
      iteration order of the source).
    - A JavaScript string that is only compared or concatenated is a Rocq
      [string] (its UTF-8 encoding).  A string that is indexed ([input],
      [stackWrite.split('')]) is the list of its one-character strings.
    - [null] and [undefined] are [None].
    - Presentation-only fields ([radius], [color], [selected],
      [highlighted], [active]) are left out: no modelled control flow
      reads them.  The undo history is kept apart from the automaton, in
      [History].  Left out too is the simulation trace of
      the finite automata and of the PDA, which is only written; the
      trace of the Turing machine is kept, since its loop detector reads
      it.
    - A [while] loop with a step budget recurses on the remaining budget.
      A loop without one ([epsilonClosure], [toDFA], [setTapeCell]) takes
      a number of iterations it may use and returns [None] when they do
      not suffice; that it exits, or that it never does, is a theorem.
    - Beside the object it leaves, a [run] returns the number of calls of
      [step] it made, and for the Turing machine the reason why its loop
      ended; both are observations of the loop, not fields of the source.
    - An exception thrown by the source ([DFA.step] reading the [id] of a
      missing state) is the result [None]. *)

From Stdlib Require Import ZArith Lia.
From stdpp Require Import base option list strings pretty gmap.

Open Scope string_scope.
Open Scope list_scope.
Open Scope Z_scope.

(** ** JavaScript helpers *)

Module JS.

(** [arr.includes(x)] on an array of strings. *)
Definition includes (x : string) (arr : list string) : bool :=
  existsb (String.eqb x) arr.

(** [set.add(x)] on a [Set], kept as a duplicate-free list in insertion
    order. *)
Definition set_add {A} `{EqDecision A} (x : A) (s : list A) : list A :=
  if bool_decide (x ∈ s) then s else s ++ [x].

(** [new Set(arr)] *)
Definition set_of_list {A} `{EqDecision A} (arr : list A) : list A :=
  foldl (fun s x => set_add x s) [] arr.

(** [arr.find(p)] *)
Fixpoint find {A} (p : A -> bool) (arr : list A) : option A :=
  match arr with
  | [] => None
  | a :: arr' => if p a then Some a else find p arr'
  end.

(** [arr.some(p)] *)
Definition some {A} (p : A -> bool) (arr : list A) : bool := existsb p arr.

(** [arr.every(p)] *)
Definition every {A} (p : A -> bool) (arr : list A) : bool := forallb p arr.

(** [arr.join(sep)] on an array of strings. *)
Fixpoint join (sep : string) (arr : list string) : string :=
  match arr with
  | [] => EmptyString
  | [a] => a
  | a :: arr' => (a ++ sep ++ join sep arr')%string
  end.

(** [s.split('')]: the one-character strings of [s].  A character is a
    UTF-8 lead byte with its continuation bytes (the bytes [10xxxxxx]). *)
Fixpoint chars (s : string) : list string :=
  match s with
  | EmptyString => []
  | String c s' =>
      match chars s' with
      | (String d _ as g) :: gs =>
          let n := Ascii.nat_of_ascii d in
          if ((128 <=? n) && (n <? 192))%nat
          then String c g :: gs
          else String c EmptyString :: g :: gs
      | gs => String c EmptyString :: gs
      end
  end.

(** [String(n)] for an integer [n]. *)
Definition String_of_Z (n : Z) : string := pretty n.

(** [s || d] for a string: the empty string is falsy. *)
Definition or_string (s : string) (d : string) : string :=
  if String.eqb s EmptyString then d else s.

(** [o || d] for a string that may be [null]/[undefined]. *)
Definition or_ostring (o : option string) (d : string) : string :=
  match o with
  | Some s => or_string s d
  | None => d
  end.

(** [n || d] for a number: [0] is falsy. *)
Definition or_number (n : Z) (d : Z) : Z :=
  if Z.eqb n 0 then d else n.

(** [s.includes(pat)] on strings: [pat] occurs in [s]. *)
Fixpoint str_includes (pat s : string) : bool :=
  String.prefix pat s
  || match s with
     | EmptyString => false
     | String _ s' => str_includes pat s'
     end.

(** [arr.slice(0, e)]: a negative [e] counts from the end. *)
Definition slice0 {A} (e : Z) (arr : list A) : list A :=
  if e <? 0 then take (Z.to_nat (Z.of_nat (length arr) + e)) arr
  else take (Z.to_nat e) arr.

(** [i = arr.findIndex(p); if (i !== -1) arr.splice(i, 1)] *)
Fixpoint remove_first {A} (p : A -> bool) (arr : list A) : list A :=
  match arr with
  | [] => []
  | a :: arr' => if p a then arr' else a :: remove_first p arr'
  end.

End JS.

(** ** State *)

Module State.

(** The fields of a [State] object that the engine reads. *)
Record t := mk {
  id : Z;
  name : string;
  x : Z;
  y : Z;
  isInitial : bool;
  isFinal : bool;
  isHalt : bool
}.

#[export] Instance t_eq_dec : EqDecision t.
Proof. solve_decision. Defined.

Definition set_isInitial (b : bool) (s : t) : t :=
  mk (id s) (name s) (x s) (y s) b (isFinal s) (isHalt s).

(** What the caller passes to [new State(options)]: every field may be
    absent ([undefined]). *)
Record options := mkOptions {
  o_id : option Z;
  o_name : option string;
  o_x : option Z;
  o_y : option Z;
  o_isInitial : option bool;
  o_isFinal : option bool;
  o_isHalt : option bool
}.

(** [constructor(options)].  [nextId] is the static counter
    [State.nextId]; the constructor returns the new object and the
    counter. *)
Definition new (o : options) (nextId : Z) : t * Z :=
  let '(i, nextId') :=
    match o_id o with
    | Some i => (i, nextId)
    | None => (nextId, nextId + 1)
    end in
  (mk i
      (JS.or_ostring (o_name o) ("q" ++ JS.String_of_Z i)%string)
      (JS.or_number (default 0 (o_x o)) 100)
      (JS.or_number (default 0 (o_y o)) 100)
      (default false (o_isInitial o))
      (default false (o_isFinal o))
      (default false (o_isHalt o)),
   nextId').

End State.

(** The object store: [State] objects by reference. *)
Abbreviation loc := nat (only parsing).
Abbreviation heap := (list State.t) (only parsing).

(** The static counters [State.nextId] and [Transition.nextId], and the
    object store. *)
Record world := mkWorld {
  objs : heap;
  State_nextId : Z;
  Transition_nextId : Z
}.

Definition set_objs (h : heap) (w : world) : world :=
  mkWorld h (State_nextId w) (Transition_nextId w).

(** A value that is a "State object or ID" (the source tests
    [typeof v === 'object']); a failed lookup leaves [undefined]. *)
Inductive StateOrId :=
| Obj (l : loc)
| Id (i : Z)
| Undefined.

#[export] Instance StateOrId_eq_dec : EqDecision StateOrId.
Proof. solve_decision. Defined.

(** [typeof v === 'object' ? v.id : v] *)
Definition idOf (h : heap) (v : StateOrId) : option Z :=
  match v with
  | Obj l => State.id <$> h !! l
  | Id i => Some i
  | Undefined => None
  end.

(** ** Transition *)

Module Transition.

Record t := mk {
  id : Z;
  fromState : StateOrId;
  toState : StateOrId;
  symbols : list string;
  stackRead : option string;
  stackWrite : option string;
  readSymbol : option string;
  writeSymbol : option string;
  direction : option string;
  controlPoint : option (Z * Z);
  labelOffset : Z * Z
}.

#[export] Instance t_eq_dec : EqDecision t.
Proof. solve_decision. Defined.

(** What the caller passes to [new Transition(options)]. *)
Record options := mkOptions {
  o_id : option Z;
  o_fromState : StateOrId;
  o_toState : StateOrId;
  o_symbols : option (list string);
  o_stackRead : option string;
  o_stackWrite : option string;
  o_readSymbol : option string;
  o_writeSymbol : option string;
  o_direction : option string;
  o_controlPoint : option (Z * Z);
  o_labelOffset : option (Z * Z)
}.

(** [x || null] for a string. *)
Definition or_null (o : option string) : option string :=
  match o with
  | Some s => if String.eqb s EmptyString then None else Some s
  | None => None
  end.

(** [constructor(options)]; [nextId] is the static [Transition.nextId]. *)
Definition new (o : options) (nextId : Z) : t * Z :=
  let '(i, nextId') :=
    match o_id o with
    | Some i => (i, nextId)
    | None => (nextId, nextId + 1)
    end in
  (mk i (o_fromState o) (o_toState o)
      (default [] (o_symbols o))
      (or_null (o_stackRead o)) (or_null (o_stackWrite o))
      (or_null (o_readSymbol o)) (or_null (o_writeSymbol o))
      (or_null (o_direction o))
      (o_controlPoint o)
      (default (0, -10) (o_labelOffset o)),
   nextId').

(** [accepts(symbol)]; [symbol] may be [null]. *)
Definition accepts (t : t) (symbol : option string) : bool :=
  if JS.includes "ε" (symbols t) || JS.includes EmptyString (symbols t)
  then match symbol with
       | Some s => String.eqb s EmptyString || String.eqb s "ε"
       | None => true
       end
  else match symbol with
       | Some s => JS.includes s (symbols t)
       | None => false
       end.

(** [isEpsilon()] *)
Definition isEpsilon (t : t) : bool :=
  (length (symbols t) =? 0)%nat
  || JS.includes "ε" (symbols t)
  || ((length (symbols t) =? 1)%nat
      && match symbols t with
         | s :: _ => String.eqb s EmptyString
         | [] => false
         end).

(** [getFromStateId()] *)
Definition getFromStateId (h : heap) (t : t) : option Z :=
  idOf h (fromState t).

(** [getToStateId()] *)
Definition getToStateId (h : heap) (t : t) : option Z :=
  idOf h (toState t).

End Transition.

(** ** Automaton (base class) *)

Module Automaton.

(** The tri-valued [isAccepted]: [null], [true] or [false]. *)
Definition verdict := option bool.

Record t := mk {
  type : string;
  states : list loc;
  transitions : list Transition.t;
  alphabet : list string;
  initialState : option loc;
  (* simulation state *)
  currentStates : list loc;
  input : list string;
  inputIndex : nat;
  isRunning : bool;
  isAccepted : verdict
}.

(** [constructor(type)] *)
Definition new (type : string) : t :=
  mk type [] [] [] None [] [] 0 false None.

Definition set_states (v : list loc) (A : t) : t :=
  mk (type A) v (transitions A) (alphabet A) (initialState A)
     (currentStates A) (input A) (inputIndex A) (isRunning A) (isAccepted A).
Definition set_transitions (v : list Transition.t) (A : t) : t :=
  mk (type A) (states A) v (alphabet A) (initialState A)
     (currentStates A) (input A) (inputIndex A) (isRunning A) (isAccepted A).
Definition set_alphabet (v : list string) (A : t) : t :=
  mk (type A) (states A) (transitions A) v (initialState A)
     (currentStates A) (input A) (inputIndex A) (isRunning A) (isAccepted A).
Definition set_initialState (v : option loc) (A : t) : t :=
  mk (type A) (states A) (transitions A) (alphabet A) v
     (currentStates A) (input A) (inputIndex A) (isRunning A) (isAccepted A).
Definition set_type (v : string) (A : t) : t :=
  mk v (states A) (transitions A) (alphabet A) (initialState A)
     (currentStates A) (input A) (inputIndex A) (isRunning A) (isAccepted A).
Definition set_currentStates (v : list loc) (A : t) : t :=
  mk (type A) (states A) (transitions A) (alphabet A) (initialState A)
     v (input A) (inputIndex A) (isRunning A) (isAccepted A).
Definition set_input (v : list string) (A : t) : t :=
  mk (type A) (states A) (transitions A) (alphabet A) (initialState A)
     (currentStates A) v (inputIndex A) (isRunning A) (isAccepted A).
Definition set_inputIndex (v : nat) (A : t) : t :=
  mk (type A) (states A) (transitions A) (alphabet A) (initialState A)
     (currentStates A) (input A) v (isRunning A) (isAccepted A).
Definition set_isRunning (v : bool) (A : t) : t :=
  mk (type A) (states A) (transitions A) (alphabet A) (initialState A)
     (currentStates A) (input A) (inputIndex A) v (isAccepted A).
Definition set_isAccepted (v : verdict) (A : t) : t :=
  mk (type A) (states A) (transitions A) (alphabet A) (initialState A)
     (currentStates A) (input A) (inputIndex A) (isRunning A) v.

(** Field reads of a state object through its reference. *)
Definition idAt (h : heap) (l : loc) : option Z := State.id <$> h !! l.
Definition isInitialAt (h : heap) (l : loc) : bool :=
  from_option State.isInitial false (h !! l).
Definition isFinalAt (h : heap) (l : loc) : bool :=
  from_option State.isFinal false (h !! l).
Definition isHaltAt (h : heap) (l : loc) : bool :=
  from_option State.isHalt false (h !! l).
Definition nameAt (h : heap) (l : loc) : string :=
  from_option State.name EmptyString (h !! l).

(** [state.isInitial = b] *)
Definition write_isInitial (l : loc) (b : bool) (h : heap) : heap :=
  alter (State.set_isInitial b) l h.

(** [getState(id)]: [this.states.find(s => s.id === id)] *)
Definition getState (h : heap) (A : t) (i : Z) : option loc :=
  JS.find (fun l => bool_decide (idAt h l = Some i)) (states A).

(** [typeof v === 'object' ? v : this.getState(v)] *)
Definition resolve (h : heap) (A : t) (v : StateOrId) : option loc :=
  match v with
  | Obj l => Some l
  | Id i => getState h A i
  | Undefined => None
  end.

(** [addState(state)] *)
Definition addState (state : loc) (wA : world * t) : world * t :=
  let '(w, A) := wA in
  let h := objs w in
  (* if (this.states.length === 0) *)
  let '(h, A) :=
    if (length (states A) =? 0)%nat
    then (write_isInitial state true h, set_initialState (Some state) A)
    else (h, A) in
  (* if (state.isInitial) *)
  let '(h, A) :=
    if isInitialAt h state
    then
      let h :=
        match initialState A with
        | Some i =>
            if bool_decide (i <> state) then write_isInitial i false h else h
        | None => h
        end in
      (h, set_initialState (Some state) A)
    else (h, A) in
  (set_objs h w, set_states (states A ++ [state]) A).

(** [removeState(state)]; the argument is a state object or an id. *)
Definition removeState (state : StateOrId) (wA : world * t) : world * t :=
  let '(w, A) := wA in
  let h := objs w in
  let stateId := idOf h state in
  let ts :=
    List.filter
      (fun t => bool_decide (Transition.getFromStateId h t <> stateId)
                && bool_decide (Transition.getToStateId h t <> stateId))
      (transitions A) in
  let ss :=
    List.filter (fun s => bool_decide (idAt h s <> stateId)) (states A) in
  let A := set_states ss (set_transitions ts A) in
  match initialState A with
  | Some i =>
      if bool_decide (idAt h i = stateId)
      then
        match ss with
        | s0 :: _ =>
            (set_objs (write_isInitial s0 true h) w,
             set_initialState (Some s0) A)
        | [] => (w, set_initialState None A)
        end
      else (w, A)
  | None => (w, A)
  end.

(** [addTransition(transition)] *)
Definition addTransition (transition : Transition.t) (wA : world * t)
  : world * t :=
  let '(w, A) := wA in
  let alpha :=
    foldl
      (fun acc s =>
         if negb (String.eqb s EmptyString) && negb (String.eqb s "ε")
         then JS.set_add s acc else acc)
      (alphabet A) (Transition.symbols transition) in
  (w, set_transitions (transitions A ++ [transition]) (set_alphabet alpha A)).

(** [removeTransition(transition)], by transition id. *)
Definition removeTransition (transitionId : Z) (wA : world * t) : world * t :=
  let '(w, A) := wA in
  (w, set_transitions
        (List.filter (fun t => bool_decide (Transition.id t <> transitionId))
           (transitions A)) A).

(** [setInitialState(state)] *)
Definition setInitialState (state : StateOrId) (wA : world * t) : world * t :=
  let '(w, A) := wA in
  let h := objs w in
  let h :=
    match initialState A with
    | Some i => write_isInitial i false h
    | None => h
    end in
  match resolve h A state with
  | Some stateObj =>
      (set_objs (write_isInitial stateObj true h) w,
       set_initialState (Some stateObj) A)
  | None => (set_objs h w, A)
  end.

(** [getFinalStates()] *)
Definition getFinalStates (h : heap) (A : t) : list loc :=
  List.filter (isFinalAt h) (states A).

(** [getTransitionsFrom(state)] *)
Definition getTransitionsFrom (h : heap) (A : t) (state : StateOrId)
  : list Transition.t :=
  let stateId := idOf h state in
  List.filter (fun t => bool_decide (Transition.getFromStateId h t = stateId))
    (transitions A).

(** [getTransitionsTo(state)] *)
Definition getTransitionsTo (h : heap) (A : t) (state : StateOrId)
  : list Transition.t :=
  let stateId := idOf h state in
  List.filter (fun t => bool_decide (Transition.getToStateId h t = stateId))
    (transitions A).

(** [resetSimulation()] *)
Definition resetSimulation (A : t) : t :=
  let cs := match initialState A with Some i => [i] | None => [] end in
  set_isAccepted None
    (set_isRunning false (set_inputIndex 0%nat (set_currentStates cs A))).

(** [clear()] *)
Definition clear (wA : world * t) : world * t :=
  let '(w, A) := wA in
  let A :=
    set_initialState None
      (set_alphabet [] (set_transitions [] (set_states [] A))) in
  (mkWorld (objs w) 0 0, resetSimulation A).

(** [initSimulation(input)]; returns the automaton and
    [this.currentStates.size > 0]. *)
Definition initSimulation (inp : list string) (A : t) : t * bool :=
  let A := resetSimulation (set_input inp A) in
  let A :=
    match initialState A with
    | Some i => set_currentStates (JS.set_add i (currentStates A)) A
    | None => A
    end in
  (A, (0 <? length (currentStates A))%nat).

(** [checkAcceptance()] of the base class. *)
Definition checkAcceptance (h : heap) (A : t) : t :=
  let finalStates := getFinalStates h A in
  if JS.some
       (fun state =>
          JS.some (fun f => bool_decide (idAt h f = idAt h state)) finalStates)
       (currentStates A)
  then set_isAccepted (Some true) A
  else set_isAccepted (Some false) A.

(** [validate()] of the base class: [isValid] and [errors]. *)
Definition validate (h : heap) (A : t) : bool * list string :=
  let errors := [] in
  let errors :=
    match initialState A with
    | None => errors ++ ["No initial state defined"]
    | Some _ => errors
    end in
  let errors :=
    if (length (getFinalStates h A) =? 0)%nat
    then errors ++ ["No final/accept states defined"]
    else errors in
  ((length errors =? 0)%nat, errors).

Section Run.

(** The overridable methods.  A step returns its boolean result, or
    [None] when the source throws a [TypeError]. *)
Variable step : heap -> t -> option (t * bool).
Variable checkAcceptance_ : heap -> t -> t.

(** The [while] loop of [run]; [budget] is [maxSteps - steps].  Returns
    the automaton and the number of calls of [step]. *)
Fixpoint run_loop (h : heap) (budget : nat) (A : t) : option (t * nat) :=
  match budget with
  | O => Some (A, 0%nat)
  | S budget' =>
      if (inputIndex A <? length (input A))%nat
         && (0 <? length (currentStates A))%nat
      then
        match step h A with
        | Some (A', _) =>
            match run_loop h budget' A' with
            | Some (A'', n) => Some (A'', S n)
            | None => None
            end
        | None => None
        end
      else Some (A, 0%nat)
  end.

(** [run(maxSteps)]; the source returns [isAccepted] of the result.  The
    second component counts the calls of [step]. *)
Definition run (h : heap) (maxSteps : nat) (A : t) : option (t * nat) :=
  match run_loop h maxSteps (set_isRunning true A) with
  | Some (A', n) => Some (checkAcceptance_ h (set_isRunning false A'), n)
  | None => None
  end.

Variable initSimulation_ : heap -> list string -> t -> t * bool.

(** [accepts(input)] = [initSimulation(input)] then [run()], with the
    default budget of 1000 steps. *)
Definition accepts (h : heap) (inp : list string) (A : t)
  : option (t * verdict) :=
  match run h 1000 (fst (initSimulation_ h inp A)) with
  | Some (A', _) => Some (A', isAccepted A')
  | None => None
  end.

End Run.

End Automaton.

(** ** DFA *)

Module DFA.

Import Automaton.

(** [step()] *)
Definition step (h : heap) (A : t) : option (t * bool) :=
  if (length (input A) <=? inputIndex A)%nat
     || (length (currentStates A) =? 0)%nat
  then Some (checkAcceptance h (set_isRunning false A), false)
  else
    let symbol := input A !! inputIndex A in
    let currentState :=
      match currentStates A with
      | s :: _ => Obj s
      | [] => Undefined
      end in
    let ts := getTransitionsFrom h A currentState in
    match JS.find (fun t => Transition.accepts t symbol) ts with
    | Some validTransition =>
        match resolve h A (Transition.toState validTransition) with
        | Some nextState =>
            Some (set_inputIndex (S (inputIndex A))
                    (set_currentStates [nextState] A), true)
        | None =>
            (* [nextState.active = true] on [undefined] throws *)
            None
        end
    | None =>
        Some (set_isRunning false
                (set_isAccepted (Some false) (set_currentStates [] A)), false)
    end.

Definition run := Automaton.run step checkAcceptance.
Definition accepts :=
  Automaton.accepts step checkAcceptance (fun _ => initSimulation).

(** The body of [transitions.forEach] in [getReachableStates]: the set
    [reachable] of ids and the queue (its front at the head of the
    list). *)
Definition reach_visit (h : heap) (A : t)
    (rq : list (option Z) * list loc) (t : Transition.t)
  : list (option Z) * list loc :=
  match resolve h A (Transition.toState t) with
  | Some toState =>
      if bool_decide (idAt h toState ∈ rq.1) then rq
      else (rq.1 ++ [idAt h toState], rq.2 ++ [toState])
  | None => rq
  end.

(** One iteration of [while (queue.length > 0)]. *)
Definition reach_body (h : heap) (A : t) (rq : list (option Z) * list loc)
  : list (option Z) * list loc :=
  match rq.2 with
  | [] => rq
  | state :: queue =>
      foldl (reach_visit h A) (rq.1, queue)
        (getTransitionsFrom h A (Obj state))
  end.

(** The [while] loop, unrolled at most [fuel] times. *)
Fixpoint reach_while (h : heap) (A : t) (fuel : nat)
    (rq : list (option Z) * list loc) : list (option Z) * list loc :=
  match fuel with
  | O => rq
  | S fuel' =>
      match rq.2 with
      | [] => rq
      | _ :: _ => reach_while h A fuel' (reach_body h A rq)
      end
  end.

(** [reachable] and [queue] on entry to the loop. *)
Definition reach_init (h : heap) (A : t) : list (option Z) * list loc :=
  match initialState A with
  | Some i => ([idAt h i], [i])
  | None => ([], [])
  end.

(** A number of iterations after which the loop has exited (see
    [reach_while_exits]): every iteration takes one state off the queue,
    and a state is queued only when the target of a transition brings a
    new id. *)
Definition reach_fuel (A : t) : nat := S (length (transitions A)).

(** [getReachableStates()]: the ids reached, in the order they were
    found. *)
Definition getReachableStates (h : heap) (A : t) : list (option Z) :=
  (reach_while h A (reach_fuel A) (reach_init h A)).1.

(** The warnings of [getWarnings] for missing transitions. *)
Definition missingTransitions (h : heap) (A : t) : list string :=
  concat
    ((fun state =>
        let transitions := getTransitionsFrom h A (Obj state) in
        concat
          ((fun symbol =>
              if negb (JS.some (fun t => Transition.accepts t (Some symbol))
                         transitions)
              then [("State " ++ nameAt h state
                     ++ " is missing transition for symbol '" ++ symbol
                     ++ "'")%string]
              else [])
             <$> alphabet A))
       <$> states A).

(** The warnings of [getWarnings] for unreachable states. *)
Definition unreachableStates (h : heap) (A : t) : list string :=
  let reachable := getReachableStates h A in
  concat
    ((fun state =>
        if negb (bool_decide (idAt h state ∈ reachable))
           && negb (isInitialAt h state)
        then [("State " ++ nameAt h state ++ " is unreachable")%string]
        else [])
       <$> states A).

(** [getWarnings()] *)
Definition getWarnings (h : heap) (A : t) : list string :=
  missingTransitions h A ++ unreachableStates h A.

(** The errors that [validate] adds for one state. *)
Definition stateErrors (h : heap) (A : t) (state : loc) : list string :=
  let transitions := getTransitionsFrom h A (Obj state) in
  concat
    ((fun symbol =>
        if (1 <? length (List.filter
                           (fun t => Transition.accepts t (Some symbol))
                           transitions))%nat
        then [("State " ++ nameAt h state
               ++ " has multiple transitions for symbol '" ++ symbol
               ++ "'")%string]
        else [])
       <$> alphabet A)
  ++ (if (0 <? length (List.filter Transition.isEpsilon transitions))%nat
      then [("State " ++ nameAt h state
             ++ " has epsilon transition(s) - not allowed in DFA")%string]
      else []).

(** [validate()]: [isValid], [errors] and [warnings]. *)
Definition validate (h : heap) (A : t) : bool * list string * list string :=
  let errors :=
    (Automaton.validate h A).2 ++ concat (stateErrors h A <$> states A) in
  ((length errors =? 0)%nat, errors, getWarnings h A).

End DFA.

(** ** NFA *)

Module NFA.

Import Automaton.

(** The body of [epsilonTransitions.forEach] in [epsilonClosure]: the
    closure set and the work stack (top of the stack at the head of the
    list, the end of the source's array). *)
Definition closure_visit (h : heap) (A : t)
    (cs : list loc * list StateOrId) (t : Transition.t)
  : list loc * list StateOrId :=
  match resolve h A (Transition.toState t) with
  | Some toState =>
      if bool_decide (toState ∈ cs.1) then cs
      else (cs.1 ++ [toState], Obj toState :: cs.2)
  | None => cs
  end.

(** One iteration of [while (stack.length > 0)]. *)
Definition closure_body (h : heap) (A : t) (cs : list loc * list StateOrId)
  : list loc * list StateOrId :=
  match cs.2 with
  | [] => cs
  | current :: stack =>
      match resolve h A current with
      | None => (cs.1, stack)
      | Some currentState =>
          let epsilonTransitions :=
            List.filter Transition.isEpsilon
              (getTransitionsFrom h A (Obj currentState)) in
          foldl (closure_visit h A) (cs.1, stack) epsilonTransitions
      end
  end.

(** The [while] loop, unrolled at most [fuel] times. *)
Fixpoint closure_while (h : heap) (A : t) (fuel : nat)
    (cs : list loc * list StateOrId) : list loc * list StateOrId :=
  match fuel with
  | O => cs
  | S fuel' =>
      match cs.2 with
      | [] => cs
      | _ :: _ => closure_while h A fuel' (closure_body h A cs)
      end
  end.

(** The closure set and the stack on entry to the loop. *)
Definition closure_init (h : heap) (A : t) (states : list StateOrId)
  : list loc * list StateOrId :=
  (foldl (fun closure s =>
            match resolve h A s with
            | Some state => JS.set_add state closure
            | None => closure
            end) [] states,
   rev states).

(** A number of iterations after which the loop has exited (see
    [closure_while_exits]): every iteration pops one entry, and an entry
    is pushed only when a transition target enters the closure. *)
Definition closure_fuel (A : t) (states : list StateOrId) : nat :=
  length states + length (transitions A).

(** [epsilonClosure(states)] *)
Definition epsilonClosure (h : heap) (A : t) (states : list StateOrId)
  : list loc :=
  (closure_while h A (closure_fuel A states) (closure_init h A states)).1.

(** [initSimulation(input)] *)
Definition initSimulation (h : heap) (inp : list string) (A : t) : t * bool :=
  let A :=
    set_isAccepted None
      (set_isRunning false (set_inputIndex 0%nat (set_input inp A))) in
  let A := set_currentStates [] A in
  let A :=
    match initialState A with
    | Some i =>
        set_currentStates
          (foldl (fun cur s => JS.set_add s cur) (currentStates A)
             (epsilonClosure h A [Obj i])) A
    | None => A
    end in
  (A, (0 <? length (currentStates A))%nat).

(** The targets reached from [from] on [symbol], with the transitions
    used: the nested [forEach] of [step] and of [toDFA]. *)
Definition move (h : heap) (A : t) (from : list loc) (symbol : option string)
  : list loc * list Transition.t :=
  foldl
    (fun acc currentState =>
       foldl
         (fun acc t =>
            if Transition.accepts t symbol
            then match resolve h A (Transition.toState t) with
                 | Some toState => (JS.set_add toState acc.1, acc.2 ++ [t])
                 | None => acc
                 end
            else acc)
         acc (getTransitionsFrom h A (Obj currentState)))
    ([], []) from.

(** [nextStates.forEach(state => epsilonClosure([state]).forEach(add))] *)
Definition closeAll (h : heap) (A : t) (nextStates : list loc) : list loc :=
  foldl
    (fun closed state =>
       foldl (fun closed s => JS.set_add s closed) closed
         (epsilonClosure h A [Obj state]))
    [] nextStates.

(** [checkAcceptance()] *)
Definition checkAcceptance (h : heap) (A : t) : t :=
  if (inputIndex A <? length (input A))%nat
  then set_isAccepted (Some false) A
  else
    let finalStates := getFinalStates h A in
    if JS.some
         (fun state =>
            JS.some (fun f => bool_decide (idAt h f = idAt h state))
              finalStates)
         (currentStates A)
    then set_isAccepted (Some true) A
    else set_isAccepted (Some false) A.

(** [step()]; never throws. *)
Definition step (h : heap) (A : t) : option (t * bool) :=
  if (length (input A) <=? inputIndex A)%nat
     || (length (currentStates A) =? 0)%nat
  then Some (checkAcceptance h (set_isRunning false A), false)
  else
    let symbol := input A !! inputIndex A in
    let '(nextStates, usedTransitions) :=
      move h A (currentStates A) symbol in
    let A := set_currentStates (closeAll h A nextStates) A in
    let A := set_inputIndex (S (inputIndex A)) A in
    if (length (currentStates A) =? 0)%nat
    then Some (set_isRunning false (set_isAccepted (Some false) A), false)
    else Some (A, true).

Definition run := Automaton.run step checkAcceptance.
Definition accepts := Automaton.accepts step checkAcceptance initSimulation.

(** [Array.prototype.sort()] without a comparator: by the string form of
    the elements, here already strings. *)
Fixpoint sort_insert (s : string) (l : list string) : list string :=
  match l with
  | [] => [s]
  | s' :: l' => if String.leb s s' then s :: l else s' :: sort_insert s l'
  end.

Definition sort (l : list string) : list string :=
  foldr sort_insert [] l.

(** [Array.from(set).map(s => s.id).sort().join(',')] *)
Definition idsKey (h : heap) (set : list loc) : string :=
  JS.join "," (sort (JS.String_of_Z <$> omap (idAt h) set)).

(** [`{${Array.from(set).map(s => s.name).join(',')}}`] *)
Definition setName (h : heap) (set : list loc) : string :=
  ("{" ++ JS.join "," (nameAt h <$> set) ++ "}")%string.

(** [new State(options)]: allocate the object. *)
Definition allocState (o : State.options) (w : world) : loc * world :=
  let '(s, n) := State.new o (State_nextId w) in
  (length (objs w), mkWorld (objs w ++ [s]) n (Transition_nextId w)).

(** The local variables of [toDFA]. *)
Record toDFA_state := mkToDFA {
  td_world : world;
  td_dfa : t;
  td_stateMap : gmap string loc;
  td_queue : list (list loc * loc);
  td_xOffset : Z
}.

(** The body of [this.alphabet.forEach] in [toDFA], for the subset
    [nfaStates] whose DFA state is [dfaState]. *)
Definition toDFA_symbol (A : t) (nfaStates : list loc) (dfaState : loc)
    (st : toDFA_state) (symbol : string) : toDFA_state :=
  if String.eqb symbol "ε" then st
  else
    let h := objs (td_world st) in
    let nextStates := (move h A nfaStates (Some symbol)).1 in
    if (length nextStates =? 0)%nat then st
    else
      let closedNext := closeAll h A nextStates in
      let nextIds := idsKey h closedNext in
      let '(nextDFAState, st) :=
        match td_stateMap st !! nextIds with
        | Some d => (d, st)
        | None =>
            let '(d, w) :=
              allocState
                (State.mkOptions None (Some (setName h closedNext))
                   (Some (td_xOffset st))
                   (Some (200 + (Z.of_nat (size (td_stateMap st)) mod 3) * 100))
                   None
                   (Some (JS.some (isFinalAt h) closedNext))
                   None)
                (td_world st) in
            let '(w, dfa) := addState d (w, td_dfa st) in
            (d, mkToDFA w dfa (<[nextIds := d]> (td_stateMap st))
                  (td_queue st ++ [(closedNext, d)])
                  (td_xOffset st + 150))
        end in
      let w := td_world st in
      let '(tr, n) :=
        Transition.new
          (Transition.mkOptions None (Obj dfaState) (Obj nextDFAState)
             (Some [symbol]) None None None None None None None)
          (Transition_nextId w) in
      let w := mkWorld (objs w) (State_nextId w) n in
      let '(w, dfa) := addTransition tr (w, td_dfa st) in
      mkToDFA w dfa (td_stateMap st) (td_queue st) (td_xOffset st).

(** [while (queue.length > 0)], unrolled at most [fuel] times; [None]
    when the queue is not yet empty after [fuel] iterations. *)
Fixpoint toDFA_while (A : t) (fuel : nat) (st : toDFA_state)
  : option toDFA_state :=
  match td_queue st with
  | [] => Some st
  | (nfaStates, dfaState) :: queue =>
      match fuel with
      | O => None
      | S fuel' =>
          let st :=
            mkToDFA (td_world st) (td_dfa st) (td_stateMap st) queue
              (td_xOffset st) in
          toDFA_while A fuel'
            (foldl (toDFA_symbol A nfaStates dfaState) st (alphabet A))
      end
  end.

(** [toDFA()]: the new DFA and the world it lives in. *)
Definition toDFA (fuel : nat) (w : world) (A : t) : option (world * t) :=
  let dfa := Automaton.new "dfa" in
  let h := objs w in
  let initialClosure :=
    epsilonClosure h A
      [match initialState A with Some i => Obj i | None => Undefined end] in
  let initialIds := idsKey h initialClosure in
  let '(initialDFAState, w) :=
    allocState
      (State.mkOptions None (Some (setName h initialClosure))
         (Some 100) (Some 200) (Some true)
         (Some (JS.some (isFinalAt h) initialClosure)) None) w in
  let '(w, dfa) := addState initialDFAState (w, dfa) in
  let st :=
    mkToDFA w dfa {[ initialIds := initialDFAState ]}
      [(initialClosure, initialDFAState)] 200 in
  match toDFA_while A fuel st with
  | Some st => Some (td_world st, td_dfa st)
  | None => None
  end.

(** The body of [closure.forEach] in the loop of [getReachableStates]:
    the set [reachable] of ids and the queue (its front at the head of
    the list). *)
Definition reach_add (h : heap) (rq : list (option Z) * list loc) (s : loc)
  : list (option Z) * list loc :=
  if bool_decide (idAt h s ∈ rq.1) then rq
  else (rq.1 ++ [idAt h s], rq.2 ++ [s]).

(** The body of [transitions.forEach] in [getReachableStates]. *)
Definition reach_visit (h : heap) (A : t)
    (rq : list (option Z) * list loc) (t : Transition.t)
  : list (option Z) * list loc :=
  match resolve h A (Transition.toState t) with
  | Some toState =>
      if bool_decide (idAt h toState ∈ rq.1) then rq
      else foldl (reach_add h) rq (epsilonClosure h A [Obj toState])
  | None => rq
  end.

(** One iteration of [while (queue.length > 0)]. *)
Definition reach_body (h : heap) (A : t) (rq : list (option Z) * list loc)
  : list (option Z) * list loc :=
  match rq.2 with
  | [] => rq
  | state :: queue =>
      foldl (reach_visit h A) (rq.1, queue)
        (getTransitionsFrom h A (Obj state))
  end.

(** The [while] loop, unrolled at most [fuel] times. *)
Fixpoint reach_while (h : heap) (A : t) (fuel : nat)
    (rq : list (option Z) * list loc) : list (option Z) * list loc :=
  match fuel with
  | O => rq
  | S fuel' =>
      match rq.2 with
      | [] => rq
      | _ :: _ => reach_while h A fuel' (reach_body h A rq)
      end
  end.

(** [reachable] and [queue] on entry to the loop: the ε-closure of the
    initial state. *)
Definition reach_init (h : heap) (A : t) : list (option Z) * list loc :=
  match initialState A with
  | Some i =>
      foldl (fun rq s => (JS.set_add (idAt h s) rq.1, rq.2 ++ [s])) ([], [])
        (epsilonClosure h A [Obj i])
  | None => ([], [])
  end.

(** A number of iterations after which the loop has exited (see
    [NFA_reach_while_exits]): every iteration takes one state off the
    queue, and inside the loop a state is queued only when it brings a new
    id, which is then the id of the target of a transition. *)
Definition reach_fuel (h : heap) (A : t) : nat :=
  length (reach_init h A).2 + length (transitions A).

(** [getReachableStates()]: the ids reached, in the order they were
    found. *)
Definition getReachableStates (h : heap) (A : t) : list (option Z) :=
  (reach_while h A (reach_fuel h A) (reach_init h A)).1.

(** [getWarnings()] *)
Definition getWarnings (h : heap) (A : t) : list string :=
  let reachable := getReachableStates h A in
  concat
    ((fun state =>
        if negb (bool_decide (idAt h state ∈ reachable))
           && negb (isInitialAt h state)
        then [("State " ++ nameAt h state ++ " is unreachable")%string]
        else [])
       <$> states A).

(** [validate()]: [isValid], [errors] and [warnings]. *)
Definition validate (h : heap) (A : t) : bool * list string * list string :=
  ((Automaton.validate h A).1, (Automaton.validate h A).2, getWarnings h A).

End NFA.

(** ** PDA *)

Module PDA.

(** A configuration [{ state, stack, inputIndex }]; the top of the stack
    is the last element. *)
Record config := mkConfig {
  c_state : loc;
  c_stack : list string;
  c_inputIndex : nat
}.

Record t := mk {
  base : Automaton.t;
  stack : list string;
  stackAlphabet : list string;
  initialStackSymbol : string;
  acceptByFinalState : bool;
  acceptByEmptyStack : bool;
  configurations : list config
}.

(** [constructor()] *)
Definition new : t :=
  mk (Automaton.new "pda") [] ["Z"] "Z" true false [].

Definition set_isAccepted (v : Automaton.verdict) (P : t) : t :=
  mk (Automaton.set_isAccepted v (base P)) (stack P) (stackAlphabet P)
     (initialStackSymbol P) (acceptByFinalState P) (acceptByEmptyStack P)
     (configurations P).

Definition set_base (v : Automaton.t) (P : t) : t :=
  mk v (stack P) (stackAlphabet P) (initialStackSymbol P)
     (acceptByFinalState P) (acceptByEmptyStack P) (configurations P).
Definition set_stack (v : list string) (P : t) : t :=
  mk (base P) v (stackAlphabet P) (initialStackSymbol P)
     (acceptByFinalState P) (acceptByEmptyStack P) (configurations P).
Definition set_configurations (v : list config) (P : t) : t :=
  mk (base P) (stack P) (stackAlphabet P) (initialStackSymbol P)
     (acceptByFinalState P) (acceptByEmptyStack P) v.

(** [initSimulation(input)] *)
Definition initSimulation (inp : list string) (P : t) : t * bool :=
  let B :=
    Automaton.set_currentStates []
      (Automaton.set_isAccepted None
         (Automaton.set_isRunning false
            (Automaton.set_inputIndex 0%nat
               (Automaton.set_input inp (base P))))) in
  let P :=
    set_configurations [] (set_stack [initialStackSymbol P] (set_base B P)) in
  let P :=
    match Automaton.initialState (base P) with
    | Some i =>
        set_configurations
          (configurations P ++ [mkConfig i [initialStackSymbol P] 0])
          (set_base
             (Automaton.set_currentStates
                (JS.set_add i (Automaton.currentStates (base P))) (base P)) P)
    | None => P
    end in
  (P, (0 <? length (Automaton.currentStates (base P)))%nat).

(** [canTakeTransition(transition, symbol, stackTop)] *)
Definition canTakeTransition (t : Transition.t) (symbol : option string)
    (stackTop : string) : bool :=
  let inputMatch :=
    (length (Transition.symbols t) =? 0)%nat
    || Transition.isEpsilon t
    || match symbol with
       | Some s => JS.includes s (Transition.symbols t)
       | None => false
       end in
  let stackRead := JS.or_ostring (Transition.stackRead t) "ε" in
  let stackMatch := String.eqb stackRead "ε" || String.eqb stackRead stackTop in
  inputMatch && stackMatch.

(** [applyStackOperation(stack, transition)] *)
Definition applyStackOperation (stack : list string) (t : Transition.t)
  : list string :=
  let stackRead := JS.or_ostring (Transition.stackRead t) "ε" in
  let stackWrite := JS.or_ostring (Transition.stackWrite t) "ε" in
  let newStack :=
    if negb (String.eqb stackRead "ε") && (0 <? length stack)%nat
    then removelast stack else stack in
  if negb (String.eqb stackWrite "ε")
  then newStack ++ rev (JS.chars stackWrite)
  else newStack.

(** The body of [transitions.forEach] in [step], for the configuration
    [c]: the configurations it appends. *)
Definition fire (h : heap) (P : t) (c : config) (t : Transition.t)
  : list config :=
  let inp := Automaton.input (base P) in
  let symbol :=
    if (c_inputIndex c <? length inp)%nat then inp !! c_inputIndex c
    else None in
  let stackTop := default "ε" (last (c_stack c)) in
  let target := Automaton.resolve h (base P) (Transition.toState t) in
  (if Transition.isEpsilon t && canTakeTransition t None stackTop
   then match target with
        | Some toState =>
            [mkConfig toState (applyStackOperation (c_stack c) t)
               (c_inputIndex c)]
        | None => []
        end
   else [])
  ++
  (if bool_decide (symbol <> None) && canTakeTransition t symbol stackTop
      && negb (Transition.isEpsilon t)
   then match target with
        | Some toState =>
            [mkConfig toState (applyStackOperation (c_stack c) t)
               (S (c_inputIndex c))]
        | None => []
        end
   else []).

(** The body of [this.configurations.forEach] in [step]. *)
Definition expand (h : heap) (P : t) (c : config) : list config :=
  if (length (Automaton.input (base P)) <? c_inputIndex c)%nat then []
  else
    concat (fire h P c <$> Automaton.getTransitionsFrom h (base P)
                             (Obj (c_state c))).

(** [finalStates.some(f => f.id === config.state.id)] *)
Definition inFinalState (h : heap) (P : t) (c : config) : bool :=
  JS.some
    (fun f => bool_decide (Automaton.idAt h f = Automaton.idAt h (c_state c)))
    (Automaton.getFinalStates h (base P)).

(** [checkAcceptance()] *)
Definition checkAcceptance (h : heap) (P : t) : t :=
  let finalConfigs :=
    List.filter
      (fun c => (length (Automaton.input (base P)) <=? c_inputIndex c)%nat)
      (configurations P) in
  if (length finalConfigs =? 0)%nat then set_isAccepted (Some false) P
  else if acceptByFinalState P && JS.some (inFinalState h P) finalConfigs
  then set_isAccepted (Some true) P
  else if acceptByEmptyStack P
          && JS.some (fun c => (length (c_stack c) =? 0)%nat) finalConfigs
  then set_isAccepted (Some true) P
  else set_isAccepted (Some false) P.


(** [step()] *)
Definition step (h : heap) (P : t) : t * bool :=
  match configurations P with
  | [] =>
      (checkAcceptance h
         (set_base (Automaton.set_isRunning false (base P)) P), false)
  | _ :: _ =>
      let newConfigurations := concat (expand h P <$> configurations P) in
      let P := set_configurations newConfigurations P in
      let P :=
        set_base
          (Automaton.set_currentStates
             (foldl (fun cur c => JS.set_add (c_state c) cur) []
                newConfigurations) (base P)) P in
      let P :=
        match newConfigurations with
        | c0 :: _ =>
            set_base (Automaton.set_inputIndex (c_inputIndex c0) (base P))
              (set_stack (c_stack c0) P)
        | [] => P
        end in
      match newConfigurations with
      | [] =>
          let P := set_isAccepted (Some false) P in
          (set_base (Automaton.set_isRunning false (base P)) P, false)
      | _ :: _ =>
          if JS.every
               (fun c => (length (Automaton.input (base P)) <=? c_inputIndex c)%nat)
               newConfigurations
          then
            let P := checkAcceptance h P in
            match Automaton.isAccepted (base P) with
            | Some _ => (P, false)
            | None => (P, true)
            end
          else (P, true)
      end
  end.

(** The [while] loop of [run]; [budget] is [maxSteps - steps].  Returns
    the automaton and the number of calls of [step]. *)
Fixpoint run_loop (h : heap) (budget : nat) (P : t) : t * nat :=
  match budget with
  | O => (P, 0%nat)
  | S budget' =>
      match configurations P with
      | [] => (P, 0%nat)
      | _ :: _ =>
          let '(P, hadProgress) := step h P in
          if bool_decide (Automaton.isAccepted (base P) = Some true)
          then (P, 1%nat)
          else if negb hadProgress then (P, 1%nat)
          else let '(P, n) := run_loop h budget' P in (P, S n)
      end
  end.

(** What [run] does after its loop. *)
Definition run_end (h : heap) (P : t) : t :=
  let P := set_base (Automaton.set_isRunning false (base P)) P in
  match Automaton.isAccepted (base P) with
  | None => checkAcceptance h P
  | Some _ => P
  end.

(** [run(maxSteps)]; the source returns [isAccepted] of the result.  The
    second component counts the calls of [step]. *)
Definition run (h : heap) (maxSteps : nat) (P : t) : t * nat :=
  let '(P, n) :=
    run_loop h maxSteps
      (set_base (Automaton.set_isRunning true (base P)) P) in
  (run_end h P, n).

(** [accepts(input)], inherited: [initSimulation(input)] then [run()]. *)
Definition accepts (h : heap) (inp : list string) (P : t)
  : Automaton.verdict :=
  Automaton.isAccepted (base (run h 1000 (initSimulation inp P).1).1).

End PDA.

(** ** TuringMachine *)

Module TuringMachine.

(** A trace record of the Turing machine. *)
Record traceEntry := mkTrace {
  te_step : nat;
  te_states : list string;
  te_tape : string;
  te_headPosition : Z;
  te_symbol : option string;
  te_description : string
}.

(** [tape] is a JavaScript array of symbols; a cell that was never
    assigned, or was assigned [undefined], is [None].  [headPosition] is an
    index into [tape]: it starts at [0] and is decremented only just
    before being clamped at [0] again. *)
Record t := mk {
  base : Automaton.t;
  tape : list (option string);
  headPosition : nat;
  blankSymbol : string;
  tapeAlphabet : list string;
  visibleTapeStart : Z;
  visibleTapeEnd : Z;
  trace : list traceEntry
}.

(** [constructor()] *)
Definition new : t :=
  mk (Automaton.new "tm") [] 0 "□" ["□"] (-10) 10 [].

Definition set_base (v : Automaton.t) (M : t) : t :=
  mk v (tape M) (headPosition M) (blankSymbol M) (tapeAlphabet M)
     (visibleTapeStart M) (visibleTapeEnd M) (trace M).
Definition set_tape (v : list (option string)) (M : t) : t :=
  mk (base M) v (headPosition M) (blankSymbol M) (tapeAlphabet M)
     (visibleTapeStart M) (visibleTapeEnd M) (trace M).
Definition set_headPosition (v : nat) (M : t) : t :=
  mk (base M) (tape M) v (blankSymbol M) (tapeAlphabet M)
     (visibleTapeStart M) (visibleTapeEnd M) (trace M).
Definition set_tapeAlphabet (v : list string) (M : t) : t :=
  mk (base M) (tape M) (headPosition M) (blankSymbol M) v
     (visibleTapeStart M) (visibleTapeEnd M) (trace M).
Definition set_visibleTapeStart (v : Z) (M : t) : t :=
  mk (base M) (tape M) (headPosition M) (blankSymbol M) (tapeAlphabet M)
     v (visibleTapeEnd M) (trace M).
Definition set_visibleTapeEnd (v : Z) (M : t) : t :=
  mk (base M) (tape M) (headPosition M) (blankSymbol M) (tapeAlphabet M)
     (visibleTapeStart M) v (trace M).
Definition set_trace (v : list traceEntry) (M : t) : t :=
  mk (base M) (tape M) (headPosition M) (blankSymbol M) (tapeAlphabet M)
     (visibleTapeStart M) (visibleTapeEnd M) v.
Definition set_isAccepted (v : Automaton.verdict) (M : t) : t :=
  set_base (Automaton.set_isAccepted v (base M)) M.
Definition set_isRunning (v : bool) (M : t) : t :=
  set_base (Automaton.set_isRunning v (base M)) M.

(** [arr[i]]: [undefined] outside the array. *)
Definition cell (tape : list (option string)) (i : nat) : option string :=
  mjoin (tape !! i).

(** [arr[i] = v]: an assignment past the end extends the array, leaving
    holes. *)
Definition assign (tape : list (option string)) (i : nat) (v : option string)
  : list (option string) :=
  if (i <? length tape)%nat then <[i := v]> tape
  else tape ++ replicate (i - length tape) None ++ [v].

(** [initializeTape(input)] *)
Definition initializeTape (inp : list string) (M : t) : t :=
  let before := replicate (Z.to_nat (- visibleTapeStart M))
                  (Some (blankSymbol M)) in
  let after :=
    replicate (Z.to_nat (visibleTapeEnd M - Z.of_nat (length inp) + 1))
      (Some (blankSymbol M)) in
  let alpha := foldl (fun acc c => JS.set_add c acc) (tapeAlphabet M) inp in
  set_headPosition (Z.to_nat (- visibleTapeStart M))
    (set_tapeAlphabet alpha
       (set_tape (before ++ (Some <$> inp) ++ after) M)).

(** [getTapeCell(position)] *)
Definition getTapeCell (position : Z) (M : t) : option string :=
  let index := position - visibleTapeStart M in
  if (index <? 0) || (Z.of_nat (length (tape M)) <=? index)
  then Some (blankSymbol M)
  else cell (tape M) (Z.to_nat index).

(** The body of [while (index < 0)] in [setTapeCell]. *)
Definition growLeft (M : t) : t :=
  set_headPosition (S (headPosition M))
    (set_visibleTapeStart (visibleTapeStart M - 1)
       (set_tape (Some (blankSymbol M) :: tape M) M)).

(** The body of [while (index >= this.tape.length)] in [setTapeCell]. *)
Definition growRight (M : t) : t :=
  set_visibleTapeEnd (visibleTapeEnd M + 1)
    (set_tape (tape M ++ [Some (blankSymbol M)]) M).

(** [while (index < 0) { ... }]: [index] is a [const], computed before the
    loop.  [None] when the loop has not exited after [fuel] iterations. *)
Fixpoint whileLeft (fuel : nat) (index : Z) (M : t) : option t :=
  if index <? 0
  then match fuel with
       | O => None
       | S fuel' => whileLeft fuel' index (growLeft M)
       end
  else Some M.

(** [while (index >= this.tape.length) { ... }] *)
Fixpoint whileRight (fuel : nat) (index : Z) (M : t) : option t :=
  if Z.of_nat (length (tape M)) <=? index
  then match fuel with
       | O => None
       | S fuel' => whileRight fuel' index (growRight M)
       end
  else Some M.

(** [setTapeCell(position, symbol)]; [None] when one of its loops has not
    exited after [fuel] iterations. *)
Definition setTapeCell (fuel : nat) (position : Z) (symbol : string) (M : t)
  : option t :=
  let index := position - visibleTapeStart M in
  M ← whileLeft fuel index M;
  M ← whileRight fuel index M;
  Some (set_tapeAlphabet (JS.set_add symbol (tapeAlphabet M))
          (set_tape (assign (tape M) (Z.to_nat index) (Some symbol)) M)).

(** [getCurrentSymbol()] *)
Definition getCurrentSymbol (M : t) : option string :=
  getTapeCell (Z.of_nat (headPosition M) + visibleTapeStart M) M.

(** [`${v}`] for a symbol that may be [undefined]. *)
Definition show (v : option string) : string := default "undefined" v.

(** [getTapeString()]: [join] prints [undefined] as the empty string. *)
Definition getTapeString (M : t) : string :=
  JS.join EmptyString (default EmptyString <$> tape M).

(** [checkAcceptance()] *)
Definition checkAcceptance (h : heap) (M : t) : t :=
  match Automaton.currentStates (base M) with
  | [] => set_isAccepted (Some false) M
  | currentState :: _ =>
      if Automaton.isFinalAt h currentState
         || Automaton.isHaltAt h currentState
      then set_isAccepted (Some (Automaton.isFinalAt h currentState)) M
      else set_isAccepted (Some false) M
  end.

(** [initSimulation(input)] *)
Definition initSimulation (h : heap) (inp : list string) (M : t) : t * bool :=
  let B := base M in
  let B :=
    Automaton.set_currentStates []
      (Automaton.set_isAccepted None
         (Automaton.set_isRunning false
            (Automaton.set_inputIndex 0%nat (Automaton.set_input inp B)))) in
  let M := set_trace [] (set_base B M) in
  let M :=
    set_visibleTapeEnd (Z.max 10 (Z.of_nat (length inp) + 10))
      (set_visibleTapeStart (-10) M) in
  let M := initializeTape inp M in
  let M :=
    match Automaton.initialState (base M) with
    | Some i =>
        let M :=
          set_base
            (Automaton.set_currentStates
               (JS.set_add i (Automaton.currentStates (base M))) (base M)) M in
        set_trace
          (trace M ++
           [mkTrace 0 [Automaton.nameAt h i] (getTapeString M) 0
              (getCurrentSymbol M)
              ("Start at " ++ Automaton.nameAt h i ++ ", reading '"
               ++ show (getCurrentSymbol M) ++ "'")%string]) M
    | None => M
    end in
  (M, (0 <? length (Automaton.currentStates (base M)))%nat).

(** [s.toUpperCase()], on the ASCII letters. *)
Definition toUpperCase (s : string) : string :=
  String.string_of_list_ascii
    (List.map
       (fun c =>
          let n := Ascii.nat_of_ascii c in
          if ((97 <=? n) && (n <=? 122))%nat
          then Ascii.ascii_of_nat (n - 32) else c)
       (String.list_ascii_of_string s)).

(** The predicate of [transitions.find] in [step]. *)
Definition matches (M : t) (currentSymbol : option string)
    (t : Transition.t) : bool :=
  let readSym := JS.or_ostring (Transition.readSymbol t) (blankSymbol M) in
  let isBlank := bool_decide (currentSymbol = Some (blankSymbol M)) in
  bool_decide (Some readSym = currentSymbol)
  || (String.eqb readSym "□" && isBlank)
  || (String.eqb readSym "_" && isBlank)
  || (String.eqb readSym EmptyString && isBlank).

(** The head move of [step]. *)
Definition moveHead (direction : string) (M : t) : t :=
  if String.eqb direction "L" then
    match headPosition M with
    | O =>
        (* [headPosition--] gives [-1]: extend and clamp *)
        set_visibleTapeStart (visibleTapeStart M - 1)
          (set_headPosition 0
             (set_tape (Some (blankSymbol M) :: tape M) M))
    | S p => set_headPosition p M
    end
  else if String.eqb direction "R" then
    let M := set_headPosition (S (headPosition M)) M in
    if (length (tape M) <=? headPosition M)%nat
    then set_visibleTapeEnd (visibleTapeEnd M + 1)
           (set_tape (tape M ++ [Some (blankSymbol M)]) M)
    else M
  else M.

(** [step()] *)
Definition step (h : heap) (M : t) : t * bool :=
  match Automaton.currentStates (base M) with
  | [] => (checkAcceptance h (set_isRunning false M), false)
  | currentState :: _ =>
      if Automaton.isHaltAt h currentState || Automaton.isFinalAt h currentState
      then (checkAcceptance h (set_isRunning false M), false)
      else
        let currentSymbol := cell (tape M) (headPosition M) in
        let transitions :=
          Automaton.getTransitionsFrom h (base M) (Obj currentState) in
        match JS.find (matches M currentSymbol) transitions with
        | Some validTransition =>
            match Automaton.resolve h (base M)
                    (Transition.toState validTransition) with
            | None => (set_isRunning false (set_isAccepted (Some false) M), false)
            | Some nextState =>
                let writeSymbol :=
                  match Transition.or_null
                          (Transition.writeSymbol validTransition) with
                  | Some s => Some s
                  | None => currentSymbol
                  end in
                let actualWrite :=
                  match writeSymbol with
                  | Some s =>
                      if String.eqb s "□" || String.eqb s "_"
                         || String.eqb s EmptyString
                      then Some (blankSymbol M) else Some s
                  | None => None
                  end in
                let M :=
                  set_tape (assign (tape M) (headPosition M) actualWrite) M in
                let direction :=
                  toUpperCase
                    (JS.or_ostring (Transition.direction validTransition) "R") in
                let M := moveHead direction M in
                let M :=
                  set_base (Automaton.set_currentStates [nextState] (base M)) M in
                let logicalHeadPos :=
                  Z.of_nat (headPosition M) + visibleTapeStart M in
                let M :=
                  set_trace
                    (trace M ++
                     [mkTrace (length (trace M)) [Automaton.nameAt h nextState]
                        (getTapeString M) logicalHeadPos
                        (cell (tape M) (headPosition M))
                        ("Read '" ++ show currentSymbol ++ "', write '"
                         ++ show actualWrite ++ "', move " ++ direction ++ ": "
                         ++ Automaton.nameAt h currentState ++ " → "
                         ++ Automaton.nameAt h nextState)%string]) M in
                let M :=
                  set_base
                    (Automaton.set_inputIndex
                       (S (Automaton.inputIndex (base M))) (base M)) M in
                if Automaton.isHaltAt h nextState
                   || Automaton.isFinalAt h nextState
                then (checkAcceptance h M, false)
                else (M, true)
            end
        | None =>
            let M :=
              set_trace
                (trace M ++
                 [mkTrace (length (trace M)) [Automaton.nameAt h currentState]
                    (getTapeString M)
                    (Z.of_nat (headPosition M) + visibleTapeStart M)
                    currentSymbol
                    ("No transition for '" ++ show currentSymbol ++ "' from "
                     ++ Automaton.nameAt h currentState ++ " - HALT")%string]) M in
            (set_isRunning false (set_isAccepted (Some false) M), false)
        end
  end.

(** [trace.slice(-50)] *)
Definition recent (tr : list traceEntry) : list traceEntry :=
  drop (length tr - 50) tr.

(** The predicate of [recent.filter] in [run]. *)
Definition sameConfig (current t : traceEntry) : bool :=
  bool_decide (head (te_states t) = head (te_states current))
  && bool_decide (te_headPosition t = te_headPosition current)
  && String.eqb (te_tape t) (te_tape current).

(** The loop detector of [run]: [Some current] when it fires. *)
Definition loopDetected (tr : list traceEntry) : option traceEntry :=
  if (100 <? length tr)%nat
  then match last tr with
       | Some current =>
           if (2 <? length (List.filter (sameConfig current) (recent tr)))%nat
           then Some current else None
       | None => None
       end
  else None.

(** How the loop of [run] was left: [step] returned [false], the loop
    detector fired, or [steps < maxSteps] failed. *)
Inductive exit := Halted | LoopGuard | BudgetExhausted.

(** The trace record pushed when the loop detector fires. *)
Definition loopEntry (tr : list traceEntry) (current : traceEntry)
  : traceEntry :=
  mkTrace (length tr) (te_states current) (te_tape current)
    (te_headPosition current) (te_symbol current)
    "Potential infinite loop detected - halting".

(** The [while (steps < maxSteps)] loop of [run]; [budget] is
    [maxSteps - steps].  Returns the machine, the number of calls of
    [step], and how the loop was left. *)
Fixpoint run_loop (h : heap) (budget : nat) (M : t) : t * nat * exit :=
  match budget with
  | O => (M, 0%nat, BudgetExhausted)
  | S budget' =>
      let '(M, continued) := step h M in
      if negb continued then (M, 1%nat, Halted)
      else
        match loopDetected (trace M) with
        | Some current =>
            (set_trace (trace M ++ [loopEntry (trace M) current]) M,
             1%nat, LoopGuard)
        | None =>
            let '(M, n, e) := run_loop h budget' M in (M, S n, e)
        end
  end.

(** [run(maxSteps)]; the source returns [isAccepted] of the result. *)
Definition run (h : heap) (maxSteps : nat) (M : t) : t * nat * exit :=
  let '(M, n, e) := run_loop h maxSteps (set_isRunning true M) in
  let M := set_isRunning false M in
  (match Automaton.isAccepted (base M) with
   | None => checkAcceptance h M
   | Some _ => M
   end, n, e).

(** [run()] with the default [maxSteps = 10000]. *)
Definition defaultMaxSteps : nat := Z.to_nat 10000.

(** [getWarnings()] *)
Definition getWarnings (h : heap) (M : t) : list string :=
  concat
    ((fun state =>
        if negb (Automaton.isFinalAt h state)
           && negb (Automaton.isHaltAt h state)
        then
          if (length (Automaton.getTransitionsFrom h (base M) (Obj state))
              =? 0)%nat
          then [("State " ++ Automaton.nameAt h state
                 ++ " has no outgoing transitions")%string]
          else []
        else [])
       <$> Automaton.states (base M)).

(** [validate()]: [isValid], [errors] and [warnings]. *)
Definition validate (h : heap) (M : t) : bool * list string * list string :=
  let errors := (Automaton.validate h (base M)).2 in
  let errors := JS.remove_first (JS.str_includes "final") errors in
  ((length errors =? 0)%nat
   || ((length errors =? 0)%nat
       && (0 <? length (Automaton.states (base M)))%nat),
   errors, getWarnings h M).

(** A cell of [getDisplayTape()]. *)
Record displayCell := mkDisplayCell {
  dc_index : Z;
  dc_position : Z;
  dc_symbol : option string;
  dc_isHead : bool
}.

(** The body of [while (cells.length < windowSize)] in
    [getDisplayTape]. *)
Definition padCell (blank : string) (cells : list displayCell)
  : list displayCell :=
  let pushed :=
    cells ++
    [match last cells with
     | Some c => mkDisplayCell (dc_index c + 1) (dc_position c + 1)
                   (Some blank) false
     | None => mkDisplayCell 0 0 (Some blank) false
     end] in
  match cells with
  | c0 :: _ =>
      if 0 <? dc_index c0
      then mkDisplayCell (dc_index c0 - 1) (dc_position c0 - 1)
             (Some blank) false :: cells
      else pushed
  | [] => pushed
  end.

(** [while (cells.length < windowSize) { ... }]; [None] when the loop
    has not exited after [fuel] iterations. *)
Fixpoint padLoop (fuel : nat) (windowSize : Z) (blank : string)
    (cells : list displayCell) : option (list displayCell) :=
  if Z.of_nat (length cells) <? windowSize
  then match fuel with
       | O => None
       | S fuel' => padLoop fuel' windowSize blank (padCell blank cells)
       end
  else Some cells.

(** [getDisplayTape(windowSize)], for an integer [windowSize]. *)
Definition getDisplayTape (fuel : nat) (windowSize : Z) (M : t)
  : option (list displayCell) :=
  let half := windowSize / 2 in
  let start := Z.max 0 (Z.of_nat (headPosition M) - half) in
  let end_ :=
    Z.min (Z.of_nat (length (tape M))) (Z.of_nat (headPosition M) + half + 1) in
  let cells :=
    (fun i =>
       mkDisplayCell i (i + visibleTapeStart M) (cell (tape M) (Z.to_nat i))
         (i =? Z.of_nat (headPosition M)))
      <$> seqZ start (end_ - start) in
  padLoop fuel windowSize (blankSymbol M) cells.

End TuringMachine.

(** ** Structured serialization *)

Module JSON.

(** The record written by [Transition.toJSON]. *)
Record transition := mkTransition {
  t_id : Z;
  t_fromState : option Z;
  t_toState : option Z;
  t_symbols : list string;
  t_stackRead : option string;
  t_stackWrite : option string;
  t_readSymbol : option string;
  t_writeSymbol : option string;
  t_direction : option string;
  t_controlPoint : option (Z * Z);
  t_labelOffset : Z * Z
}.

(** The record written by [Automaton.toJSON]; a state is written with the
    seven fields of [State.t]. *)
Record automaton := mkAutomaton {
  a_type : string;
  a_states : list State.t;
  a_transitions : list transition;
  a_alphabet : list string;
  a_initialStateId : option Z
}.

(** The record written by [PDA.toJSON]. *)
Record pda := mkPda {
  p_base : automaton;
  p_initialStackSymbol : string;
  p_acceptByFinalState : bool;
  p_acceptByEmptyStack : bool;
  p_stackAlphabet : list string
}.

(** The record written by [TuringMachine.toJSON]. *)
Record tm := mkTm {
  m_base : automaton;
  m_blankSymbol : string;
  m_tapeAlphabet : list string
}.

(** [Transition.prototype.toJSON] *)
Definition ofTransition (h : heap) (t : Transition.t) : transition :=
  mkTransition (Transition.id t)
    (Transition.getFromStateId h t) (Transition.getToStateId h t)
    (Transition.symbols t)
    (Transition.stackRead t) (Transition.stackWrite t)
    (Transition.readSymbol t) (Transition.writeSymbol t)
    (Transition.direction t)
    (Transition.controlPoint t) (Transition.labelOffset t).

(** [Automaton.prototype.toJSON] *)
Definition ofAutomaton (h : heap) (A : Automaton.t) : automaton :=
  mkAutomaton (Automaton.type A)
    (omap (fun l => h !! l) (Automaton.states A))
    (ofTransition h <$> Automaton.transitions A)
    (Automaton.alphabet A)
    (Automaton.initialState A ≫= Automaton.idAt h).

(** [PDA.prototype.toJSON] *)
Definition ofPDA (h : heap) (P : PDA.t) : pda :=
  mkPda (ofAutomaton h (PDA.base P)) (PDA.initialStackSymbol P)
    (PDA.acceptByFinalState P) (PDA.acceptByEmptyStack P)
    (PDA.stackAlphabet P).

(** [TuringMachine.prototype.toJSON] *)
Definition ofTM (h : heap) (M : TuringMachine.t) : tm :=
  mkTm (ofAutomaton h (TuringMachine.base M)) (TuringMachine.blankSymbol M)
    (TuringMachine.tapeAlphabet M).

(** [State.fromJSON(json)] *)
Definition toState (s : State.t) (nextId : Z) : State.t * Z :=
  State.new
    (State.mkOptions (Some (State.id s)) (Some (State.name s))
       (Some (State.x s)) (Some (State.y s)) (Some (State.isInitial s))
       (Some (State.isFinal s)) (Some (State.isHalt s)))
    nextId.

(** [json.states.map(s => State.fromJSON(s))]: the new objects are
    allocated in order. *)
Definition loadStates (ss : list State.t) (w : world) : list loc * world :=
  foldl
    (fun acc s =>
       let '(locs, w) := acc in
       let '(o, n) := toState s (State_nextId w) in
       (locs ++ [length (objs w)],
        mkWorld (objs w ++ [o]) n (Transition_nextId w)))
    ([], w) ss.

(** [states.find(s => s.id === id)] in [Transition.fromJSON] *)
Definition findState (h : heap) (states : list loc) (i : option Z)
  : StateOrId :=
  match JS.find
          (fun l =>
             match i with
             | Some k => bool_decide (Automaton.idAt h l = Some k)
             | None => false
             end)
          states with
  | Some l => Obj l
  | None => Undefined
  end.

(** [Transition.fromJSON(json, states)] *)
Definition toTransition (h : heap) (states : list loc) (j : transition)
    (nextId : Z) : Transition.t * Z :=
  Transition.new
    (Transition.mkOptions (Some (t_id j))
       (findState h states (t_fromState j))
       (findState h states (t_toState j))
       (Some (t_symbols j))
       (t_stackRead j) (t_stackWrite j) (t_readSymbol j) (t_writeSymbol j)
       (t_direction j) (t_controlPoint j) (Some (t_labelOffset j)))
    nextId.

(** [json.transitions.map(t => Transition.fromJSON(t, this.states))] *)
Definition loadTransitions (states : list loc) (ts : list transition)
    (w : world) : list Transition.t * world :=
  foldl
    (fun acc j =>
       let '(done, w) := acc in
       let '(t, n) := toTransition (objs w) states j (Transition_nextId w) in
       (done ++ [t], mkWorld (objs w) (State_nextId w) n))
    ([], w) ts.

(** [Math.max(...arr)] of a non-empty array of integers. *)
Definition maximum (d : Z) (l : list Z) : Z :=
  match l with
  | [] => d
  | a :: l' => foldl Z.max a l'
  end.

(** "Update ID counters to continue from max IDs": the two [if] blocks
    at the end of [loadFromJSON]. *)
Definition updateIdCounters (A : Automaton.t) (w : world) : world :=
  let w :=
    match Automaton.states A with
    | [] => w
    | _ :: _ =>
        mkWorld (objs w)
          (maximum 0 (omap (Automaton.idAt (objs w)) (Automaton.states A)) + 1)
          (Transition_nextId w)
    end in
  match Automaton.transitions A with
  | [] => w
  | _ :: _ =>
      mkWorld (objs w) (State_nextId w)
        (maximum 0 (Transition.id <$> Automaton.transitions A) + 1)
  end.

(** [Automaton.prototype.loadFromJSON(json)] *)
Definition loadAutomaton (json : automaton) (wA : world * Automaton.t)
  : world * Automaton.t :=
  let '(w, A) := wA in
  let w := mkWorld (objs w) 0 0 in
  let A := Automaton.set_type (JS.or_string (a_type json) "dfa") A in
  let '(states, w) := loadStates (a_states json) w in
  let A := Automaton.set_states states A in
  let '(transitions, w) := loadTransitions states (a_transitions json) w in
  let A := Automaton.set_transitions transitions A in
  let A := Automaton.set_alphabet (JS.set_of_list (a_alphabet json)) A in
  let h := objs w in
  let A :=
    Automaton.set_initialState
      match a_initialStateId json with
      | Some i => Automaton.getState h A i
      | None => JS.find (Automaton.isInitialAt h) (Automaton.states A)
      end A in
  (updateIdCounters A w, Automaton.resetSimulation A).

(** [PDA.prototype.loadFromJSON(json)] *)
Definition loadPDA (json : pda) (wP : world * PDA.t) : world * PDA.t :=
  let '(w, P) := wP in
  let '(w, B) := loadAutomaton (p_base json) (w, PDA.base P) in
  (w, PDA.mk B (PDA.stack P)
        (JS.set_of_list (p_stackAlphabet json))
        (JS.or_string (p_initialStackSymbol json) "Z")
        (negb (bool_decide (p_acceptByFinalState json = false)))
        (p_acceptByEmptyStack json || false)
        (PDA.configurations P)).

(** [TuringMachine.prototype.loadFromJSON(json)] *)
Definition loadTM (json : tm) (wM : world * TuringMachine.t)
  : world * TuringMachine.t :=
  let '(w, M) := wM in
  let '(w, B) := loadAutomaton (m_base json) (w, TuringMachine.base M) in
  (w, TuringMachine.set_tapeAlphabet (JS.set_of_list (m_tapeAlphabet json))
        (TuringMachine.mk B (TuringMachine.tape M)
           (TuringMachine.headPosition M)
           (JS.or_string (m_blankSymbol json) "□")
           (TuringMachine.tapeAlphabet M)
           (TuringMachine.visibleTapeStart M)
           (TuringMachine.visibleTapeEnd M)
           (TuringMachine.trace M))).

(** [DFA.prototype.toNFA()]: a new NFA loaded from what [toJSON] writes
    of the DFA, its [type] then set to ['nfa']. *)
Definition toNFA (w : world) (A : Automaton.t) : world * Automaton.t :=
  let '(w, nfa) :=
    loadAutomaton (ofAutomaton (objs w) A) (w, Automaton.new "nfa") in
  (w, Automaton.set_type "nfa" nfa).

End JSON.

(** ** Undo history *)

(** The history fields of the base class and the methods that use them.
    [toJSON] and [loadFromJSON] are those of the base class, which [DFA]
    and [NFA] inherit unchanged. *)
Module History.

(** An automaton with [this.history] and [this.historyIndex]. *)
Record t := mk {
  machine : Automaton.t;
  history : list JSON.automaton;
  historyIndex : Z
}.

(** [this.maxHistory = 50], set by the constructor and never assigned
    again. *)
Definition maxHistory : Z := 50.

(** [constructor(type)] *)
Definition new (type : string) : t := mk (Automaton.new type) [] (-1).

Definition set_machine (A : Automaton.t) (E : t) : t :=
  mk A (history E) (historyIndex E).

(** [saveToHistory()] *)
Definition saveToHistory (wE : world * t) : world * t :=
  let '(w, E) := wE in
  let snapshot := JSON.ofAutomaton (objs w) (machine E) in
  let hist :=
    if historyIndex E <? Z.of_nat (length (history E)) - 1
    then JS.slice0 (historyIndex E + 1) (history E)
    else history E in
  let hist := hist ++ [snapshot] in
  if maxHistory <? Z.of_nat (length hist)
  then (w, mk (machine E) (tail hist) (historyIndex E))
  else (w, mk (machine E) hist (historyIndex E + 1)).

(** A mutating method of the base class: its body, then its closing
    [this.saveToHistory()]. *)
Definition saving (body : world * Automaton.t -> world * Automaton.t)
    (wE : world * t) : world * t :=
  let '(w, E) := wE in
  let '(w, A) := body (w, machine E) in
  saveToHistory (w, set_machine A E).

Definition addState (state : loc) := saving (Automaton.addState state).
Definition removeState (state : StateOrId) :=
  saving (Automaton.removeState state).
Definition addTransition (t : Transition.t) :=
  saving (Automaton.addTransition t).
Definition removeTransition (transitionId : Z) :=
  saving (Automaton.removeTransition transitionId).
Definition setInitialState (state : StateOrId) :=
  saving (Automaton.setInitialState state).
Definition clear := saving Automaton.clear.

(** [this.loadFromJSON(this.history[this.historyIndex])], after
    [historyIndex] was set to [idx]; [None] when the entry is
    [undefined], on which [loadFromJSON] throws a [TypeError]. *)
Definition reload (idx : Z) (wE : world * t) : option (world * t) :=
  let '(w, E) := wE in
  if idx <? 0 then None
  else
    match history E !! Z.to_nat idx with
    | Some json =>
        let '(w, A) := JSON.loadAutomaton json (w, machine E) in
        Some (w, mk A (history E) idx)
    | None => None
    end.

(** [undo()]: the automaton and the returned boolean. *)
Definition undo (wE : world * t) : option (world * t * bool) :=
  if 0 <? historyIndex wE.2
  then wE' ← reload (historyIndex wE.2 - 1) wE; Some (wE', true)
  else Some (wE, false).

(** [redo()] *)
Definition redo (wE : world * t) : option (world * t * bool) :=
  if historyIndex wE.2 <? Z.of_nat (length (history wE.2)) - 1
  then wE' ← reload (historyIndex wE.2 + 1) wE; Some (wE', true)
  else Some (wE, false).

End History.

(** * Vocabulary of the properties, and example machines *)

(** ** Predicates *)

(** The state of configuration [c] is final: some state of the automaton
    flagged [isFinal] has the id of [c.state]. *)
Definition stateIsFinal (h : heap) (P : PDA.t) (c : PDA.config) : Prop :=
  exists f, f ∈ Automaton.states (PDA.base P)
            /\ Automaton.isFinalAt h f = true
            /\ Automaton.idAt h f = Automaton.idAt h (PDA.c_state c).

(** Configuration [c] is active and has consumed the whole input. *)
Definition consumedAll (P : PDA.t) (c : PDA.config) : Prop :=
  c ∈ PDA.configurations P
  /\ (length (Automaton.input (PDA.base P)) <= PDA.c_inputIndex c)%nat.

(** The condition under which the PDA accepts. *)
Definition pdaAccepting (h : heap) (P : PDA.t) : Prop :=
  (PDA.acceptByFinalState P = true
   /\ exists c, consumedAll P c /\ stateIsFinal h P c)
  \/ (PDA.acceptByEmptyStack P = true
      /\ exists c, consumedAll P c /\ PDA.c_stack c = []).

(** The editor's requests: the six mutating operations.  The state
    objects they mention are created by the caller; creating one neither
    reads nor writes the automaton or another object, so the store given
    at the start holds them all, with whatever fields they were created
    with. *)
Inductive mutation :=
| AddState (state : loc)
| RemoveState (state : StateOrId)
| AddTransition (t : Transition.t)
| RemoveTransition (transitionId : Z)
| SetInitialState (state : StateOrId)
| Clear.

(** One request, and a sequence of requests, applied to the automaton. *)
Definition mutate (m : mutation) (wA : world * Automaton.t)
  : world * Automaton.t :=
  match m with
  | AddState s => Automaton.addState s wA
  | RemoveState s => Automaton.removeState s wA
  | AddTransition t => Automaton.addTransition t wA
  | RemoveTransition i => Automaton.removeTransition i wA
  | SetInitialState s => Automaton.setInitialState s wA
  | Clear => Automaton.clear wA
  end.

Definition mutateAll (ms : list mutation) (wA : world * Automaton.t)
  : world * Automaton.t :=
  foldl (fun wA m => mutate m wA) wA ms.

(** The same requests on an automaton that keeps its history. *)
Definition record (m : mutation) (wE : world * History.t)
  : world * History.t :=
  match m with
  | AddState s => History.addState s wE
  | RemoveState s => History.removeState s wE
  | AddTransition t => History.addTransition t wE
  | RemoveTransition i => History.removeTransition i wE
  | SetInitialState s => History.setInitialState s wE
  | Clear => History.clear wE
  end.

(** What the editor asks of an automaton: an edit, Ctrl-Z or Ctrl-Y. *)
Inductive request :=
| Edit (m : mutation)
| Undo
| Redo.

(** One request; [None] when [undo] or [redo] throws. *)
Definition perform (r : request) (wE : world * History.t)
  : option (world * History.t) :=
  match r with
  | Edit m => Some (record m wE)
  | Undo => fst <$> History.undo wE
  | Redo => fst <$> History.redo wE
  end.

Definition performAll (rs : list request) (wE : world * History.t)
  : option (world * History.t) :=
  foldl (fun o r => o ≫= perform r) (Some wE) rs.

(** Every state of the automaton that is flagged initial is the object
    [this.initialState]. *)
Definition initialIsUnique (wA : world * Automaton.t) : Prop :=
  forall l, l ∈ Automaton.states wA.2 ->
            Automaton.isInitialAt (objs wA.1) l = true ->
            Automaton.initialState wA.2 = Some l.

(** [r] is reached from [q] by following one ε-transition: a transition
    of the automaton that leaves the state with the id of [q], for which
    [isEpsilon()] holds, and whose target resolves to [r]. *)
Definition epsilonEdge (h : heap) (A : Automaton.t) (q r : loc) : Prop :=
  exists t, t ∈ Automaton.transitions A
            /\ Transition.getFromStateId h t = Automaton.idAt h q
            /\ Transition.isEpsilon t = true
            /\ Automaton.resolve h A (Transition.toState t) = Some r.

(** A set of state objects closed under following ε-transitions. *)
Definition epsilonClosed (h : heap) (A : Automaton.t) (C : loc -> Prop) : Prop :=
  forall q r, C q -> epsilonEdge h A q r -> C r.

(** The state objects that an argument array of [epsilonClosure] denotes. *)
Definition denoted (h : heap) (A : Automaton.t) (states : list StateOrId)
  : list loc :=
  omap (Automaton.resolve h A) states.

(** The targets of the automaton's transitions. *)
Definition targets (h : heap) (A : Automaton.t) : list loc :=
  omap (fun t => Automaton.resolve h A (Transition.toState t))
    (Automaton.transitions A).

(** The number of targets not yet in the closure. *)
Definition pending (h : heap) (A : Automaton.t) (closure : list loc) : nat :=
  length (List.filter (fun x => negb (bool_decide (x ∈ closure))) (targets h A)).

(** What the loop of [epsilonClosure] maintains. *)
Record closureInv (h : heap) (A : Automaton.t) (S : list loc)
    (cs : list loc * list StateOrId) : Prop := {
  inv_extensive : forall l, l ∈ S -> l ∈ cs.1;
  inv_reached : forall l, l ∈ cs.1 ->
    exists s, s ∈ S /\ rtc (epsilonEdge h A) s l;
  inv_stack : forall v q, v ∈ cs.2 -> Automaton.resolve h A v = Some q -> q ∈ cs.1;
  inv_worklist : forall q, q ∈ cs.1 ->
    (exists v, v ∈ cs.2 /\ Automaton.resolve h A v = Some q)
    \/ (forall r, epsilonEdge h A q r -> r ∈ cs.1)
}.

(** The part of an automaton that [toJSON] writes is well formed for the
    round trip: no field holds a value that a constructor replaces by its
    default (an empty name, a coordinate [0], an empty type, an empty
    optional string), every endpoint id is the id of a listed state, the
    initial state is listed (and without one no listed state is flagged
    initial), and the alphabet is a set. *)
Record roundTrips (h : heap) (A : Automaton.t) : Prop := {
  rt_type : Automaton.type A <> EmptyString;
  rt_states : forall l s, l ∈ Automaton.states A -> h !! l = Some s ->
    State.name s <> EmptyString /\ State.x s <> 0 /\ State.y s <> 0;
  rt_endpoints : forall t i, t ∈ Automaton.transitions A ->
    Transition.getFromStateId h t = Some i
    \/ Transition.getToStateId h t = Some i ->
    exists l, l ∈ Automaton.states A /\ Automaton.idAt h l = Some i;
  rt_labels : forall t, t ∈ Automaton.transitions A ->
    Transition.stackRead t <> Some EmptyString
    /\ Transition.stackWrite t <> Some EmptyString
    /\ Transition.readSymbol t <> Some EmptyString
    /\ Transition.writeSymbol t <> Some EmptyString
    /\ Transition.direction t <> Some EmptyString;
  rt_initial :
    match Automaton.initialState A ≫= Automaton.idAt h with
    | Some i => exists l, l ∈ Automaton.states A /\ Automaton.idAt h l = Some i
    | None => forall l, l ∈ Automaton.states A -> Automaton.isInitialAt h l = false
    end;
  rt_alphabet : NoDup (Automaton.alphabet A)
}.

(** What [State.fromJSON] makes of a written state. *)
Definition reloaded (s : State.t) : State.t := (JSON.toState s 0).1.

(** ** Example machines *)

(** One state [q0] (id 0), initial and final. *)
Definition a_star_heap : heap := [State.mk 0 "q0" 100 100 true true false].

(** The automaton for [a*]: [q0] with a loop on ['a']. *)
Definition a_star_transition : Transition.t :=
  Transition.mk 0 (Obj 0%nat) (Obj 0%nat) ["a"] None None None None None None
    (0, -10).

Definition a_star (type : string) : Automaton.t :=
  Automaton.mk type [0%nat] [a_star_transition] ["a"] (Some 0%nat)
    [] [] 0 false None.

(** A transition labelled with both ['ε'] and ['a'], and an NFA that
    has it as its only transition, ready to read ['a']. *)
Definition epsilon_and_a : Transition.t :=
  Transition.mk 0 (Id 0) (Id 0) ["ε"; "a"] None None None None None None (0, -10).

Definition epsilon_and_a_nfa : Automaton.t :=
  Automaton.mk "nfa" [0%nat] [epsilon_and_a] ["a"] (Some 0%nat)
    [0%nat] ["a"] 0 false None.

(** A store with the single state object [q0] (id 0), flagged neither
    initial nor final. *)
Definition q0_world : world :=
  mkWorld [State.mk 0 "q0" 100 100 false false false] 1 0.

(** The NFA with an ε-transition from [q0] to the final state [q1]. *)
Definition eps_heap : heap :=
  [State.mk 0 "q0" 100 100 true false false;
   State.mk 1 "q1" 100 100 false true false].

Definition eps_nfa : Automaton.t :=
  Automaton.mk "nfa" [0%nat; 1%nat]
    [Transition.mk 0 (Obj 0%nat) (Obj 1%nat) ["ε"] None None None None None
       None (0, -10)]
    [] (Some 0%nat) [] [] 0 false None.

(** One state [q0] (id 0), initial and not final. *)
Definition stay_heap : heap := [State.mk 0 "q0" 100 100 true false false].

(** The machine after [initSimulation('')] on a new Turing machine: 21
    blank cells, logical positions -10 to 10. *)
Definition blank_machine : TuringMachine.t :=
  (TuringMachine.initSimulation [] [] TuringMachine.new).1.

(** A machine that stays on the blank forever: [q0] on [□] writes [□],
    does not move, and stays in [q0]; initialised on the empty input. *)
Definition stay_machine : TuringMachine.t :=
  (TuringMachine.initSimulation stay_heap []
     (TuringMachine.set_base
        (Automaton.mk "tm" [0%nat]
           [Transition.mk 0 (Obj 0%nat) (Obj 0%nat) [] None None
              (Some "□") (Some "□") (Some "S") None (0, -10)]
           [] (Some 0%nat) [] [] 0 false None)
        TuringMachine.new)).1.

(** The machine of scenario S6, which moves right forever on the blank
    tape; initialised on the empty input. *)
Definition right_machine : TuringMachine.t :=
  (TuringMachine.initSimulation stay_heap []
     (TuringMachine.set_base
        (Automaton.mk "tm" [0%nat]
           [Transition.mk 0 (Obj 0%nat) (Obj 0%nat) [] None None
              (Some "□") (Some "□") (Some "R") None (0, -10)]
           [] (Some 0%nat) [] [] 0 false None)
        TuringMachine.new)).1.

(** Three states [q0] (initial), [q1], [q2] (final), ids 0 to 2: the
    states of scenarios S1 and S2. *)
Definition three_heap : heap :=
  [State.mk 0 "q0" 100 100 true false false;
   State.mk 1 "q1" 100 100 false false false;
   State.mk 2 "q2" 100 100 false true false].

Definition edge (i : Z) (from to : loc) (symbols : list string)
  : Transition.t :=
  Transition.mk i (Obj from) (Obj to) symbols None None None None None None
    (0, -10).

(** Scenario S1: the DFA for [(ab)+]. *)
Definition abplus_dfa : Automaton.t :=
  Automaton.mk "dfa" [0%nat; 1%nat; 2%nat]
    [edge 0 0 1 ["a"]; edge 1 1 2 ["b"]; edge 2 2 1 ["a"]]
    ["a"; "b"] (Some 0%nat) [] [] 0 false None.

(** Scenario S2: the NFA with an ε-transition for [a*b]. *)
Definition astarb_nfa : Automaton.t :=
  Automaton.mk "nfa" [0%nat; 1%nat; 2%nat]
    [edge 0 0 1 ["ε"]; edge 1 1 1 ["a"]; edge 2 1 2 ["b"]]
    ["a"; "b"] (Some 0%nat) [] [] 0 false None.

(** Scenario S5: the Turing machine that flips bits; [q0] is initial,
    [qH] is halt and final. *)
Definition flip_heap : heap :=
  [State.mk 0 "q0" 100 100 true false false;
   State.mk 1 "qH" 100 100 false true true].

Definition rule (i : Z) (from to : loc) (read write dir : string)
  : Transition.t :=
  Transition.mk i (Obj from) (Obj to) [] None None
    (Some read) (Some write) (Some dir) None (0, -10).

Definition flip_machine : TuringMachine.t :=
  TuringMachine.set_base
    (Automaton.mk "tm" [0%nat; 1%nat]
       [rule 0 0 0 "0" "1" "R"; rule 1 0 0 "1" "0" "R"; rule 2 0 1 "□" "□" "S"]
       [] (Some 0%nat) [] [] 0 false None)
    TuringMachine.new.

(** The PDA of scenario S4 for [a^n b^n]. *)
Definition anbn_heap : heap :=
  [State.mk 0 "q0" 100 100 true false false;
   State.mk 1 "q1" 100 100 false false false;
   State.mk 2 "q2" 100 100 false true false].

Definition anbn_transition (i : Z) (from to : loc) (a pop push : string)
  : Transition.t :=
  Transition.mk i (Obj from) (Obj to) [a] (Some pop) (Some push)
    None None None None (0, -10).

Definition anbn : PDA.t :=
  PDA.set_base
    (Automaton.mk "pda" [0%nat; 1%nat; 2%nat]
       [anbn_transition 0 0 0 "a" "Z" "AZ";
        anbn_transition 1 0 0 "a" "A" "AA";
        anbn_transition 2 0 1 "b" "A" "ε";
        anbn_transition 3 1 1 "b" "A" "ε";
        anbn_transition 4 1 2 "ε" "Z" "Z"]
       ["a"; "b"] (Some 0%nat) [] [] 0 false None)
    PDA.new.


(** A DFA whose only state sits at [x = 0]. *)
Definition x0_heap : heap := [State.mk 0 "q0" 0 50 true false false].

Definition x0_dfa : Automaton.t :=
  Automaton.mk "dfa" [0%nat] [] [] (Some 0%nat) [0%nat] [] 0 false None.

(** ** Further predicates and example machines *)

(** The alphabet holds neither ['ε'] nor the empty string, and no symbol
    twice. *)
Definition alphabetClean (A : Automaton.t) : Prop :=
  ("ε" ∉ Automaton.alphabet A)
  /\ (EmptyString ∉ Automaton.alphabet A)
  /\ NoDup (Automaton.alphabet A).

(** The history holds at most [maxHistory] snapshots and [historyIndex]
    points into it (or is [-1] when it is empty). *)
Definition historyOk (E : History.t) : Prop :=
  Z.of_nat (length (History.history E)) <= History.maxHistory
  /\ -1 <= History.historyIndex E < Z.of_nat (length (History.history E)).

(** The automaton after the requests add [q0], clear, undo. *)
Definition undone_clear : world * History.t :=
  default (q0_world, History.new "dfa")
    (performAll [Edit (AddState 0%nat); Edit Clear; Undo]
       (q0_world, History.new "dfa")).

(** [r] is entered from [q] by one transition: a transition of the
    automaton that leaves the state with the id of [q] and whose target
    resolves to [r]. *)
Definition transitionEdge (h : heap) (A : Automaton.t) (q r : loc) : Prop :=
  exists t, t ∈ Automaton.transitions A
            /\ Transition.getFromStateId h t = Automaton.idAt h q
            /\ Automaton.resolve h A (Transition.toState t) = Some r.

(** The ids of the targets of the automaton's transitions. *)
Definition targetIds (h : heap) (A : Automaton.t) : list (option Z) :=
  omap (fun t => Automaton.idAt h <$> Automaton.resolve h A (Transition.toState t))
    (Automaton.transitions A).

(** The number of target ids not yet reached. *)
Definition pendingIds (h : heap) (A : Automaton.t) (reachable : list (option Z))
  : nat :=
  length (List.filter (fun x => negb (bool_decide (x ∈ reachable)))
            (targetIds h A)).

(** What the loop of [getReachableStates] maintains, for the initial
    state [i0]. *)
Record reachInv (h : heap) (A : Automaton.t) (i0 : loc)
    (rq : list (option Z) * list loc) : Prop := {
  ri_initial : Automaton.idAt h i0 ∈ rq.1;
  ri_sound : forall x, x ∈ rq.1 ->
    exists r, rtc (transitionEdge h A) i0 r /\ Automaton.idAt h r = x;
  ri_queue : forall q, q ∈ rq.2 ->
    rtc (transitionEdge h A) i0 q /\ Automaton.idAt h q ∈ rq.1;
  ri_worklist : forall q, Automaton.idAt h q ∈ rq.1 ->
    (exists q', q' ∈ rq.2 /\ Automaton.idAt h q' = Automaton.idAt h q)
    \/ (forall r, transitionEdge h A q r -> Automaton.idAt h r ∈ rq.1)
}.

(** [r] is entered from [q] on the input symbol [a]: by a transition of
    the automaton that leaves the state with the id of [q], for which
    [accepts(a)] holds, and whose target resolves to [r]. *)
Definition symbolEdge (h : heap) (A : Automaton.t) (a : string) (q r : loc)
  : Prop :=
  exists t, t ∈ Automaton.transitions A
            /\ Transition.getFromStateId h t = Automaton.idAt h q
            /\ Transition.accepts t (Some a) = true
            /\ Automaton.resolve h A (Transition.toState t) = Some r.

(** [reads h A q0 w l]: from [q0] the automaton can be in [l] after
    reading [w], moving along ε-transitions freely and along one
    transition that accepts the symbol for each symbol of [w]. *)
Inductive reads (h : heap) (A : Automaton.t) (q0 : loc)
  : list string -> loc -> Prop :=
| reads_start : reads h A q0 [] q0
| reads_epsilon w q r :
    reads h A q0 w q -> epsilonEdge h A q r -> reads h A q0 w r
| reads_symbol w a q r :
    reads h A q0 w q -> symbolEdge h A a q r -> reads h A q0 (w ++ [a]) r.

(** The state object [l] counts as final: a listed state flagged
    [isFinal] has its id. *)
Definition finalId (h : heap) (A : Automaton.t) (l : loc) : Prop :=
  exists f, f ∈ Automaton.states A
            /\ Automaton.isFinalAt h f = true
            /\ Automaton.idAt h f = Automaton.idAt h l.

(** Two automaton objects with the same states, transitions and initial
    state: they differ in the simulation fields at most. *)
Definition sameStructure (A B : Automaton.t) : Prop :=
  Automaton.states B = Automaton.states A
  /\ Automaton.transitions B = Automaton.transitions A
  /\ Automaton.initialState B = Automaton.initialState A.

(** The states in which the automaton [A] can be after reading the first
    [k] symbols of [inp] from its initial state. *)
Definition activeAfter (h : heap) (A : Automaton.t) (inp : list string)
    (k : nat) (l : loc) : Prop :=
  exists i0, Automaton.initialState A = Some i0
             /\ reads h A i0 (take k inp) l.

(** What the loop of [NFA.run] maintains on the input [inp] of the
    automaton [A]: the active states are those of [activeAfter]. *)
Record simulates (h : heap) (A : Automaton.t) (inp : list string)
    (k : nat) (B : Automaton.t) : Prop := {
  sim_structure : sameStructure A B;
  sim_input : Automaton.input B = inp;
  sim_index : Automaton.inputIndex B = k;
  sim_bound : (k <= length inp)%nat;
  sim_active : forall l, l ∈ Automaton.currentStates B
                         <-> activeAfter h A inp k l
}.

(** [walks h A q0 w l]: from [q0] a path of transitions, one that
    accepts each symbol of [w] in turn, ends in [l]. *)
Inductive walks (h : heap) (A : Automaton.t) (q0 : loc)
  : list string -> loc -> Prop :=
| walks_start : walks h A q0 [] q0
| walks_symbol w a q r :
    walks h A q0 w q -> symbolEdge h A a q r -> walks h A q0 (w ++ [a]) r.

(** No state has two transitions that accept the same symbol and lead
    to different state objects. *)
Definition deterministic (h : heap) (A : Automaton.t) : Prop :=
  forall a q r r', symbolEdge h A a q r -> symbolEdge h A a q r' -> r = r'.

(** What the loop of [DFA.run] maintains on the input [inp] of the
    automaton [A]: the one active state is where the walk over the
    symbols read so far ends; once no state is active, no walk over the
    whole input exists if the automaton is deterministic. *)
Record follows (h : heap) (A : Automaton.t) (inp : list string)
    (k : nat) (B : Automaton.t) : Prop := {
  fo_structure : sameStructure A B;
  fo_input : Automaton.input B = inp;
  fo_index : Automaton.inputIndex B = k;
  fo_bound : (k <= length inp)%nat;
  fo_active :
    (exists i0 q, Automaton.initialState A = Some i0
                  /\ Automaton.currentStates B = [q]
                  /\ walks h A i0 (take k inp) q)
    \/ (Automaton.currentStates B = []
        /\ (deterministic h A ->
            forall i0 l, Automaton.initialState A = Some i0 ->
                         ~ walks h A i0 inp l))
}.

(** No configuration has read past the end of the input. *)
Definition configsInRange (P : PDA.t) : Prop :=
  forall c, c ∈ PDA.configurations P ->
    (PDA.c_inputIndex c <= length (Automaton.input (PDA.base P)))%nat.

(** The tape as [getTapeCell] and the head see it. *)
Definition tapeOf (M : TuringMachine.t)
  : list (option string) * nat * Z * string :=
  (TuringMachine.tape M, TuringMachine.headPosition M,
   TuringMachine.visibleTapeStart M, TuringMachine.blankSymbol M).

(** The logical position of the head. *)
Definition headAt (M : TuringMachine.t) : Z :=
  Z.of_nat (TuringMachine.headPosition M) + TuringMachine.visibleTapeStart M.

(** What [step] writes for the symbol [s]: the markers ['□'], ['_'] and
    the empty string stand for the blank symbol of the machine. *)
Definition asWritten (blank : string) (s : string) : string :=
  if String.eqb s "□" || String.eqb s "_" || String.eqb s EmptyString
  then blank else s.

(** The direction [step] takes from a transition. *)
Definition directionOf (t : Transition.t) : string :=
  TuringMachine.toUpperCase (JS.or_ostring (Transition.direction t) "R").

(** The head is on a cell of the array, and no cell of the array is
    [undefined]. *)
Definition tapeOk (M : TuringMachine.t) : Prop :=
  (TuringMachine.headPosition M < length (TuringMachine.tape M))%nat
  /\ Forall is_Some (TuringMachine.tape M).

(** The machine is in a final state. *)
Definition inFinal (h : heap) (M : TuringMachine.t) : bool :=
  match Automaton.currentStates (TuringMachine.base M) with
  | q :: _ => Automaton.isFinalAt h q
  | [] => false
  end.

(** The cell that [getDisplayTape] shows for the array index [i], when
    the cells read from the tape are those from [start] to [end_ - 1]:
    the others are filled in blank. *)
Definition windowCell (M : TuringMachine.t) (start end_ : Z) (i : Z)
  : TuringMachine.displayCell :=
  TuringMachine.mkDisplayCell i (i + TuringMachine.visibleTapeStart M)
    (if (start <=? i) && (i <? end_)
     then TuringMachine.cell (TuringMachine.tape M) (Z.to_nat i)
     else Some (TuringMachine.blankSymbol M))
    (i =? Z.of_nat (TuringMachine.headPosition M)).

(** A machine that writes ['1'] on every blank and moves right, after 12
    steps on the empty input: its head is on the last cell of the array,
    twelve cells right of where it started. *)
Definition ones_machine : TuringMachine.t :=
  (TuringMachine.run stay_heap 12
     (TuringMachine.initSimulation stay_heap []
        (TuringMachine.set_base
           (Automaton.mk "tm" [0%nat]
              [Transition.mk 0 (Obj 0%nat) (Obj 0%nat) [] None None
                 (Some "□") (Some "1") (Some "R") None (0, -10)]
              [] (Some 0%nat) [] [] 0 false None)
           TuringMachine.new)).1).1.1.

(** A transition from [q0] to the final state [q1] labelled with the
    empty string and ['a'], and the NFA that has it as its only
    transition. *)
Definition empty_and_a : Transition.t := edge 0 0 1 [EmptyString; "a"].

Definition empty_and_a_nfa : Automaton.t :=
  Automaton.mk "nfa" [0%nat; 1%nat] [empty_and_a] ["a"] (Some 0%nat)
    [] [] 0 false None.




(** * Properties *)


(** ** JavaScript helpers *)

Lemma includes_spec x arr : JS.includes x arr = true <-> x ∈ arr.
Proof.
  unfold JS.includes. rewrite existsb_exists. split.
  - intros (y & Hy & Heq). apply String.eqb_eq in Heq. subst.
    by apply list_elem_of_In.
  - intros Hin. exists x. split; [by apply list_elem_of_In|apply String.eqb_refl].
Qed.

Lemma includes_false x arr : JS.includes x arr = false <-> x ∉ arr.
Proof.
  rewrite <- includes_spec. destruct (JS.includes x arr); split; congruence.
Qed.

Lemma elem_of_set_add {A} `{EqDecision A} (x y : A) s :
  y ∈ JS.set_add x s <-> y = x \/ y ∈ s.
Proof.
  unfold JS.set_add. case_bool_decide.
  - split; [tauto|]. intros [->|]; done.
  - rewrite elem_of_app, list_elem_of_singleton. tauto.
Qed.

Lemma NoDup_set_add {A} `{EqDecision A} (x : A) s :
  NoDup s -> NoDup (JS.set_add x s).
Proof.
  intros Hnd. unfold JS.set_add. case_bool_decide; [done|].
  apply NoDup_app. split_and!; [done| |apply NoDup_singleton].
  intros y Hy ->%list_elem_of_singleton. done.
Qed.

Lemma JS_find_some {A} (p : A -> bool) arr a :
  JS.find p arr = Some a -> a ∈ arr /\ p a = true.
Proof.
  induction arr as [|b arr IH]; simpl; [done|].
  destruct (p b) eqn:Hp.
  - intros [= ->]. split; [left|done].
  - intros [Hin Hpa]%IH. split; [by right|done].
Qed.

Lemma JS_find_none {A} (p : A -> bool) arr :
  JS.find p arr = None <-> forall a, a ∈ arr -> p a = false.
Proof.
  induction arr as [|b arr IH]; simpl.
  - split; [intros _ a Ha; by apply elem_of_nil in Ha|done].
  - destruct (p b) eqn:Hp.
    + split; [done|]. intros Hall. specialize (Hall b (list_elem_of_here _ _)).
      congruence.
    + rewrite IH. split.
      * intros Hall a [->|Ha]%elem_of_cons; auto.
      * intros Hall a Ha. apply Hall. by right.
Qed.

Lemma elem_of_set_of_list {A} `{EqDecision A} (x : A) arr :
  x ∈ JS.set_of_list arr <-> x ∈ arr.
Proof.
  unfold JS.set_of_list.
  assert (Hgen : forall acc, x ∈ foldl (fun s y => JS.set_add y s) acc arr
                             <-> x ∈ acc \/ x ∈ arr).
  { induction arr as [|a arr IH]; intros acc; simpl.
    - rewrite elem_of_nil. tauto.
    - rewrite IH, elem_of_set_add, elem_of_cons. tauto. }
  rewrite Hgen, elem_of_nil. tauto.
Qed.

(** ** Transition labels *)

Lemma accepts_epsilon_like t s :
  "ε" ∈ Transition.symbols t \/ EmptyString ∈ Transition.symbols t ->
  Transition.accepts t s =
    match s with
    | Some c => String.eqb c EmptyString || String.eqb c "ε"
    | None => true
    end.
Proof.
  intros Hin. unfold Transition.accepts.
  destruct Hin as [Hin|Hin]; apply includes_spec in Hin; rewrite Hin;
    by rewrite ?orb_true_r.
Qed.

(** Every transition that [move] records as used accepts the symbol. *)
Lemma move_used_accepts h A from s t :
  t ∈ (NFA.move h A from s).2 -> Transition.accepts t s = true.
Proof.
  unfold NFA.move.
  set (inner := fun (acc : list loc * list Transition.t) t0 =>
                  if Transition.accepts t0 s
                  then match Automaton.resolve h A (Transition.toState t0) with
                       | Some toState => (JS.set_add toState acc.1, acc.2 ++ [t0])
                       | None => acc
                       end
                  else acc).
  assert (Hinner : forall ts acc,
             (forall u, u ∈ acc.2 -> Transition.accepts u s = true) ->
             forall u, u ∈ (foldl inner acc ts).2 -> Transition.accepts u s = true).
  { induction ts as [|t0 ts IH]; intros acc Hacc; simpl; [done|].
    apply IH. unfold inner. destruct (Transition.accepts t0 s) eqn:Hacc0; [|done].
    destruct (Automaton.resolve h A (Transition.toState t0)); [|done].
    simpl. intros u [Hu| ->%list_elem_of_singleton]%elem_of_app; auto. }
  assert (Houter : forall cs acc,
             (forall u, u ∈ acc.2 -> Transition.accepts u s = true) ->
             forall u, u ∈ (foldl (fun acc currentState =>
                             foldl inner acc
                               (Automaton.getTransitionsFrom h A (Obj currentState)))
                           acc cs).2 -> Transition.accepts u s = true).
  { induction cs as [|c cs IH]; intros acc Hacc; simpl; [done|].
    apply IH. by apply Hinner. }
  apply Houter. simpl. intros u Hu. by apply elem_of_nil in Hu.
Qed.

(** ** Mutations and the initial state *)

Lemma isInitialAt_write_ne h l l' b :
  l <> l' ->
  Automaton.isInitialAt (Automaton.write_isInitial l b h) l'
  = Automaton.isInitialAt h l'.
Proof.
  intros Hne. unfold Automaton.isInitialAt, Automaton.write_isInitial.
  by rewrite list_lookup_alter_ne.
Qed.

Lemma isInitialAt_write_false h l l' :
  Automaton.isInitialAt (Automaton.write_isInitial l false h) l' = true ->
  l <> l' /\ Automaton.isInitialAt h l' = true.
Proof.
  destruct (decide (l = l')) as [->|Hne].
  - unfold Automaton.isInitialAt, Automaton.write_isInitial.
    rewrite list_lookup_alter_eq. by destruct (h !! l').
  - by rewrite isInitialAt_write_ne.
Qed.

Lemma isInitialAt_write_true h l l' :
  Automaton.isInitialAt (Automaton.write_isInitial l true h) l' = true ->
  l = l' \/ Automaton.isInitialAt h l' = true.
Proof.
  destruct (decide (l = l')) as [->|Hne]; [by left|].
  rewrite isInitialAt_write_ne by done. by right.
Qed.

Lemma elem_of_filter_std {A} (p : A -> bool) (x : A) l :
  x ∈ List.filter p l <-> x ∈ l /\ p x = true.
Proof. by rewrite !list_elem_of_In, filter_In. Qed.

Lemma addState_initialIsUnique s wA :
  initialIsUnique wA -> initialIsUnique (Automaton.addState s wA).
Proof.
  destruct wA as [w A]. unfold initialIsUnique, Automaton.addState. simpl.
  intros Hinv.
  destruct (length (Automaton.states A) =? 0)%nat eqn:Hlen.
  - apply Nat.eqb_eq, nil_length_inv in Hlen.
    destruct (Automaton.isInitialAt _ s) eqn:Hs; simpl;
      rewrite ?bool_decide_eq_false_2 by (intros Hne; by apply Hne); simpl;
      rewrite Hlen; intros l ->%list_elem_of_singleton; [done|congruence].
  - destruct (Automaton.isInitialAt (objs w) s) eqn:Hs; simpl.
    + intros l [Hl| ->%list_elem_of_singleton]%elem_of_app; [|done].
      destruct (Automaton.initialState A) as [i|] eqn:Hi.
      * case_bool_decide as Hne; simpl.
        -- intros [Hil Hflag]%isInitialAt_write_false.
           specialize (Hinv l Hl Hflag). congruence.
        -- intros Hflag. specialize (Hinv l Hl Hflag). congruence.
      * intros Hflag. specialize (Hinv l Hl Hflag). congruence.
    + intros l [Hl| ->%list_elem_of_singleton]%elem_of_app; [auto|congruence].
Qed.

Lemma removeState_initialIsUnique s wA :
  initialIsUnique wA -> initialIsUnique (Automaton.removeState s wA).
Proof.
  destruct wA as [w A]. unfold initialIsUnique, Automaton.removeState. simpl.
  intros Hinv.
  set (ss := List.filter _ (Automaton.states A)).
  assert (Hss : forall l, l ∈ ss ->
            l ∈ Automaton.states A
            /\ Automaton.idAt (objs w) l <> idOf (objs w) s).
  { intros l [Hl Hid]%elem_of_filter_std.
    by apply bool_decide_eq_true in Hid. }
  destruct (Automaton.initialState A) as [i|] eqn:Hi; simpl.
  - case_bool_decide as Hid; simpl.
    + destruct ss as [|s0 ss'] eqn:Hss0; simpl.
      * intros l Hl. by apply elem_of_nil in Hl.
      * intros l Hl [->|Hflag]%isInitialAt_write_true; [done|].
        destruct (Hss l Hl) as [Hin Hne].
        specialize (Hinv l Hin Hflag). congruence.
    + rewrite Hi. intros l Hl Hflag. destruct (Hss l Hl) as [Hin _]. auto.
  - rewrite Hi. intros l Hl Hflag. destruct (Hss l Hl) as [Hin _]. auto.
Qed.

Lemma setInitialState_initialIsUnique s wA :
  initialIsUnique wA -> initialIsUnique (Automaton.setInitialState s wA).
Proof.
  destruct wA as [w A]. unfold initialIsUnique, Automaton.setInitialState.
  simpl. intros Hinv.
  set (h := match Automaton.initialState A with
            | Some i => Automaton.write_isInitial i false (objs w)
            | None => objs w
            end).
  assert (Hnone : forall l, l ∈ Automaton.states A ->
                            Automaton.isInitialAt h l = false).
  { intros l Hl. apply not_true_is_false. unfold h.
    destruct (Automaton.initialState A) as [i|] eqn:Hi.
    - intros [Hne Hflag]%isInitialAt_write_false.
      specialize (Hinv l Hl Hflag). congruence.
    - intros Hflag. specialize (Hinv l Hl Hflag). congruence. }
  destruct (Automaton.resolve h A s) as [stateObj|]; simpl.
  - intros l Hl [->|Hflag]%isInitialAt_write_true; [done|].
    rewrite Hnone in Hflag; done.
  - intros l Hl Hflag. rewrite Hnone in Hflag; done.
Qed.

Lemma mutate_initialIsUnique m wA :
  initialIsUnique wA -> initialIsUnique (mutate m wA).
Proof.
  destruct m; simpl.
  - apply addState_initialIsUnique.
  - apply removeState_initialIsUnique.
  - destruct wA as [w A]. done.
  - destruct wA as [w A]. done.
  - apply setInitialState_initialIsUnique.
  - destruct wA as [w A]. unfold initialIsUnique. simpl.
    intros _ l Hl. by apply elem_of_nil in Hl.
Qed.

Lemma mutateAll_initialIsUnique ms wA :
  initialIsUnique wA -> initialIsUnique (mutateAll ms wA).
Proof.
  unfold mutateAll. revert wA.
  induction ms as [|m ms IH]; intros wA Hinv; simpl; [done|].
  by apply IH, mutate_initialIsUnique.
Qed.

Lemma filter_unique_length {A} (p : A -> bool) (l : list A) :
  NoDup l ->
  (forall a b, a ∈ l -> b ∈ l -> p a = true -> p b = true -> a = b) ->
  (length (List.filter p l) <= 1)%nat.
Proof.
  induction 1 as [|a l Hnotin Hnd IH]; intros Huniq; simpl; [lia|].
  destruct (p a) eqn:Hpa; simpl.
  - assert (Hnil : List.filter p l = []).
    { destruct (List.filter p l) as [|b l'] eqn:Hf; [done|].
      assert (Hb : b ∈ List.filter p l) by (rewrite Hf; left).
      apply elem_of_filter_std in Hb as [Hb Hpb].
      assert (a = b) by (apply Huniq; [left|by right|done|done]).
      subst. done. }
    rewrite Hnil. simpl. lia.
  - apply IH. intros b c Hb Hc. apply Huniq; by right.
Qed.

(** C8.  After any sequence of [addState], [removeState], [addTransition],
    [removeTransition], [setInitialState] and [clear] on a new automaton,
    at most one state object of the automaton has [isInitial = true]
    (a state object is counted once, however often [this.states] lists
    it). *)
Theorem at_most_one_initial_state
    (type : string) (w : world) (ms : list mutation) :
  (length
     (List.filter (Automaton.isInitialAt (objs (mutateAll ms (w, Automaton.new type)).1))
        (remove_dups (Automaton.states (mutateAll ms (w, Automaton.new type)).2)))
   <= 1)%nat.
Proof.
  pose proof (mutateAll_initialIsUnique ms (w, Automaton.new type)) as Hinv.
  apply filter_unique_length; [apply NoDup_remove_dups|].
  intros a b Ha Hb Hfa Hfb.
  rewrite elem_of_remove_dups in Ha. rewrite elem_of_remove_dups in Hb.
  assert (Hstart : initialIsUnique (w, Automaton.new type)).
  { intros l Hl. by apply elem_of_nil in Hl. }
  specialize (Hinv Hstart).
  pose proof (Hinv a Ha Hfa). pose proof (Hinv b Hb Hfb). congruence.
Qed.

(** ** Operations on an unknown id *)

(** [removeState(id)] for an id that no state has (and that the initial
    state, if it is not listed, does not have either): the states, the
    alphabet, the initial state and every object are left as they are; the
    transitions that remain are those that do not mention the id. *)
Lemma removeState_unknown_id (i : Z) (w : world) (A : Automaton.t) :
  (forall l, l ∈ Automaton.states A -> Automaton.idAt (objs w) l <> Some i) ->
  (forall l, Automaton.initialState A = Some l ->
             Automaton.idAt (objs w) l <> Some i) ->
  Automaton.removeState (Id i) (w, A)
  = (w, Automaton.set_transitions
          (List.filter
             (fun t => bool_decide (Transition.getFromStateId (objs w) t <> Some i)
                       && bool_decide (Transition.getToStateId (objs w) t <> Some i))
             (Automaton.transitions A)) A).
Proof.
  intros Hstates Hinit. unfold Automaton.removeState. simpl.
  assert (Hss : List.filter
                  (fun s => bool_decide (Automaton.idAt (objs w) s <> Some i))
                  (Automaton.states A) = Automaton.states A).
  { apply forallb_filter_id, forallb_forall.
    intros l Hl%list_elem_of_In. apply bool_decide_eq_true. auto. }
  rewrite Hss.
  destruct A as [ty ss ts al ini cs inp idx r acc]; simpl in *.
  destruct ini as [l|]; [|done].
  rewrite bool_decide_eq_false_2 by auto. done.
Qed.

(** X7.  [removeState(id)] with an id that no listed state, no transition and
    not the initial state has changes nothing: it neither throws nor
    removes anything. *)
Lemma removeState_unknown_id_noop (i : Z) (w : world) (A : Automaton.t) :
  (forall l, l ∈ Automaton.states A -> Automaton.idAt (objs w) l <> Some i) ->
  (forall l, Automaton.initialState A = Some l ->
             Automaton.idAt (objs w) l <> Some i) ->
  (forall t, t ∈ Automaton.transitions A ->
             Transition.getFromStateId (objs w) t <> Some i
             /\ Transition.getToStateId (objs w) t <> Some i) ->
  Automaton.removeState (Id i) (w, A) = (w, A).
Proof.
  intros Hstates Hinit Hts. rewrite removeState_unknown_id by done.
  f_equal.
  assert (Hf : List.filter
            (fun t => bool_decide (Transition.getFromStateId (objs w) t <> Some i)
                      && bool_decide (Transition.getToStateId (objs w) t <> Some i))
            (Automaton.transitions A) = Automaton.transitions A).
  { apply forallb_filter_id, forallb_forall.
    intros t Ht%list_elem_of_In. destruct (Hts t Ht).
    apply andb_true_iff; split; by apply bool_decide_eq_true. }
  rewrite Hf. by destruct A.
Qed.

Lemma removeState_unknown_id_noop_witness :
  Automaton.removeState (Id 7) (mkWorld a_star_heap 1 1, a_star "dfa")
  = (mkWorld a_star_heap 1 1, a_star "dfa").
Proof.
  apply (removeState_unknown_id_noop 7 (mkWorld a_star_heap 1 1) (a_star "dfa")).
  - intros l ->%list_elem_of_singleton. discriminate.
  - intros l [= <-]. discriminate.
  - intros t ->%list_elem_of_singleton. split; discriminate.
Defined.

(** [setInitialState(id)] for an id that no state has keeps
    [this.initialState], the states, the transitions and the alphabet, but
    has already cleared the [isInitial] flag of the initial state. *)
Lemma setInitialState_unknown_id (i : Z) (w : world) (A : Automaton.t) :
  (forall l, l ∈ Automaton.states A -> Automaton.idAt (objs w) l <> Some i) ->
  Automaton.setInitialState (Id i) (w, A)
  = (set_objs
       match Automaton.initialState A with
       | Some l => Automaton.write_isInitial l false (objs w)
       | None => objs w
       end w, A).
Proof.
  intros Hstates. unfold Automaton.setInitialState. simpl.
  set (h := match Automaton.initialState A with
            | Some l => Automaton.write_isInitial l false (objs w)
            | None => objs w
            end).
  assert (Hid : forall l, Automaton.idAt h l = Automaton.idAt (objs w) l).
  { intros l. unfold h, Automaton.idAt, Automaton.write_isInitial.
    destruct (Automaton.initialState A) as [l0|]; [|done].
    destruct (decide (l0 = l)) as [->|Hne].
    - rewrite list_lookup_alter_eq. by destruct (objs w !! l).
    - by rewrite list_lookup_alter_ne. }
  assert (Hnone : Automaton.getState h A i = None).
  { unfold Automaton.getState. apply JS_find_none. intros l Hl.
    apply bool_decide_eq_false. rewrite Hid. auto. }
  by rewrite Hnone.
Qed.

(** C9 (the defect).  An automaton whose only state [q0] (id 0) was added
    with [addState] has [q0] flagged initial; [setInitialState(7)], an id
    that no state has, clears that flag and leaves [this.initialState]
    pointing at [q0]. *)
Theorem setInitialState_unknown_id_clears_flag :
  let wA := Automaton.addState 0%nat (q0_world, Automaton.new "dfa") in
  let wA' := Automaton.setInitialState (Id 7) wA in
  Automaton.states wA.2 = [0%nat]
  /\ Automaton.idAt (objs wA.1) 0%nat = Some 0
  /\ Automaton.isInitialAt (objs wA.1) 0%nat = true
  /\ Automaton.initialState wA.2 = Some 0%nat
  /\ Automaton.isInitialAt (objs wA'.1) 0%nat = false
  /\ Automaton.initialState wA'.2 = Some 0%nat
  /\ Automaton.states wA'.2 = [0%nat].
Proof. vm_compute. done. Qed.

(** ** ε-closure *)

Lemma elem_of_rev_std {A} (x : A) (l : list A) : x ∈ rev l <-> x ∈ l.
Proof. by rewrite !list_elem_of_In, <- in_rev. Qed.

Lemma length_omap_le {A B} (f : A -> option B) (l : list A) :
  (length (omap f l) <= length l)%nat.
Proof.
  induction l as [|a l IH]; csimpl; [lia|]. destruct (f a); csimpl; lia.
Qed.

Lemma pending_mono h A c r :
  (pending h A (c ++ [r]) <= pending h A c)%nat.
Proof.
  unfold pending. induction (targets h A) as [|a T IH]; simpl; [lia|].
  destruct (bool_decide (a ∈ c)) eqn:Hc; simpl.
  - rewrite bool_decide_eq_true_2; [done|].
    apply bool_decide_eq_true in Hc. apply elem_of_app. by left.
  - destruct (bool_decide (a ∈ c ++ [r])); simpl; lia.
Qed.

Lemma pending_add h A c r :
  r ∈ targets h A -> r ∉ c ->
  (pending h A (c ++ [r]) < pending h A c)%nat.
Proof.
  unfold pending. intros Hin Hnotin.
  induction (targets h A) as [|a T IH]; [by apply elem_of_nil in Hin|].
  pose proof (pending_mono h A c r) as Hmono. unfold pending in Hmono.
  simpl. apply elem_of_cons in Hin as [<-|Hin].
  - rewrite (bool_decide_eq_false_2 (r ∈ c)) by done.
    rewrite (bool_decide_eq_true_2 (r ∈ c ++ [r])); simpl.
    + clear IH. assert (Hm : forall T',
        (length (List.filter (fun x => negb (bool_decide (x ∈ c ++ [r]))) T')
         <= length (List.filter (fun x => negb (bool_decide (x ∈ c))) T'))%nat).
      { induction T' as [|b T' IH']; simpl; [lia|].
        destruct (bool_decide (b ∈ c)) eqn:Hc; simpl.
        - rewrite bool_decide_eq_true_2; [done|].
          apply bool_decide_eq_true in Hc. apply elem_of_app. by left.
        - destruct (bool_decide (b ∈ c ++ [r])); simpl; lia. }
      specialize (Hm T). lia.
    + apply elem_of_app. right. apply list_elem_of_singleton. done.
  - specialize (IH Hin).
    destruct (bool_decide (a ∈ c)) eqn:Hc; simpl.
    + rewrite bool_decide_eq_true_2; [done|].
      apply bool_decide_eq_true in Hc. apply elem_of_app. by left.
    + destruct (bool_decide (a ∈ c ++ [r])); simpl; lia.
Qed.

(** The effect of [epsilonTransitions.forEach] on the closure and the
    stack. *)
Lemma closure_visit_fold h A ts cs0 :
  let cs1 := foldl (NFA.closure_visit h A) cs0 ts in
  (forall l, l ∈ cs0.1 -> l ∈ cs1.1)
  /\ (forall v, v ∈ cs0.2 -> v ∈ cs1.2)
  /\ (forall l, l ∈ cs1.1 ->
        l ∈ cs0.1
        \/ (Obj l ∈ cs1.2
            /\ exists t, t ∈ ts
                 /\ Automaton.resolve h A (Transition.toState t) = Some l))
  /\ (forall v, v ∈ cs1.2 -> v ∈ cs0.2 \/ exists l, v = Obj l /\ l ∈ cs1.1)
  /\ (forall t r, t ∈ ts ->
        Automaton.resolve h A (Transition.toState t) = Some r -> r ∈ cs1.1)
  /\ ((forall t, t ∈ ts -> t ∈ Automaton.transitions A) ->
      (length cs1.2 + pending h A cs1.1 <= length cs0.2 + pending h A cs0.1)%nat).
Proof.
  revert cs0. induction ts as [|t ts IH]; intros cs0; simpl.
  { split_and!; try tauto.
    - intros t r Ht. by apply elem_of_nil in Ht.
    - intros _. lia. }
  destruct (IH (NFA.closure_visit h A cs0 t))
    as (Hmono & Hstack & Hnew & Hpushed & Hall & Hmeasure).
  assert (Hv : (NFA.closure_visit h A cs0 t = cs0
                /\ forall r, Automaton.resolve h A (Transition.toState t) = Some r ->
                             r ∈ cs0.1)
               \/ exists r, Automaton.resolve h A (Transition.toState t) = Some r
                            /\ (r ∉ cs0.1)
                            /\ NFA.closure_visit h A cs0 t
                               = (cs0.1 ++ [r], Obj r :: cs0.2)).
  { unfold NFA.closure_visit.
    destruct (Automaton.resolve h A (Transition.toState t)) as [r|]; [|by left].
    case_bool_decide as Hr.
    - left. split; [done|]. by intros ? [= <-].
    - right. exists r. done. }
  destruct Hv as [[Hsame Hin]|(r & Hres & Hnotin & Hadd)].
  - rewrite Hsame in *. split_and!; try done.
    + intros l Hl. destruct (Hnew l Hl) as [?|(? & t' & Ht' & ?)]; [by left|].
      right. split; [done|]. exists t'. split; [by right|done].
    + intros t' r' [->|Ht']%elem_of_cons Hres'; [|by eapply Hall].
      apply Hmono. by apply Hin.
    + intros Hsub. apply Hmeasure. intros t' Ht'. apply Hsub. by right.
  - rewrite Hadd in *. simpl in *. split_and!.
    + intros l Hl. apply Hmono, elem_of_app. by left.
    + intros v Hv. apply Hstack. by right.
    + intros l Hl. destruct (Hnew l Hl) as [Hl0|(? & t' & Ht' & ?)].
      * apply elem_of_app in Hl0 as [Hold|Hlr]; [by left|].
        apply list_elem_of_singleton in Hlr as ->.
        right. split; [apply Hstack; left|]. exists t. split; [left|done].
      * right. split; [done|]. exists t'. split; [by right|done].
    + intros v Hv. destruct (Hpushed v Hv) as [[->|Hold]%elem_of_cons|?].
      * right. exists r. split; [done|]. apply Hmono, elem_of_app. right.
        apply list_elem_of_singleton. done.
      * by left.
      * by right.
    + intros t' r' [->|Ht']%elem_of_cons Hres'; [|by eapply Hall].
      rewrite Hres in Hres'. injection Hres' as <-.
      apply Hmono, elem_of_app. right. apply list_elem_of_singleton. done.
    + intros Hsub.
      assert (Hr : r ∈ targets h A).
      { unfold targets. apply list_elem_of_omap. exists t.
        split; [apply Hsub; left|done]. }
      pose proof (pending_add h A cs0.1 r Hr Hnotin).
      assert (Hm : (length (foldl (NFA.closure_visit h A) (cs0.1 ++ [r], Obj r :: cs0.2) ts).2
                    + pending h A (foldl (NFA.closure_visit h A) (cs0.1 ++ [r], Obj r :: cs0.2) ts).1
                    <= S (length cs0.2) + pending h A (cs0.1 ++ [r]))%nat).
      { apply Hmeasure. intros t' Ht'. apply Hsub. by right. }
      lia.
Qed.

Lemma elem_of_getTransitionsFrom h A q t :
  t ∈ List.filter Transition.isEpsilon (Automaton.getTransitionsFrom h A (Obj q))
  <-> t ∈ Automaton.transitions A
      /\ Transition.getFromStateId h t = Automaton.idAt h q
      /\ Transition.isEpsilon t = true.
Proof.
  unfold Automaton.getTransitionsFrom.
  rewrite !elem_of_filter_std, bool_decide_eq_true. simpl.
  unfold Automaton.idAt. tauto.
Qed.

(** One iteration of the loop keeps the invariant and, with a non-empty
    stack, uses up the measure. *)
Lemma closure_body_inv h A S cs :
  closureInv h A S cs ->
  closureInv h A S (NFA.closure_body h A cs).
Proof.
  intros [Hext Hreach Hstk Hwork]. unfold NFA.closure_body.
  destruct cs as [closure stack]. simpl in *.
  destruct stack as [|current stack]; [by constructor|].
  destruct (Automaton.resolve h A current) as [c|] eqn:Hcur.
  - set (eps := List.filter Transition.isEpsilon
                  (Automaton.getTransitionsFrom h A (Obj c))).
    destruct (closure_visit_fold h A eps (closure, stack))
      as (Hmono & Hstack & Hnew & Hpushed & Hall & _).
    simpl in *.
    assert (Hc : c ∈ closure) by (eapply Hstk; [left|done]).
    constructor; simpl.
    + auto.
    + intros l Hl. destruct (Hnew l Hl) as [Hold|(_ & t & Ht & Hres)]; [auto|].
      destruct (Hreach c Hc) as (s & Hs & Hsc).
      exists s. split; [done|]. eapply rtc_r; [done|].
      apply elem_of_getTransitionsFrom in Ht as (Ht & Hfrom & Heps).
      exists t. done.
    + intros v q Hv Hres.
      destruct (Hpushed v Hv) as [Hold|(l & -> & Hl)].
      * apply Hmono. eapply Hstk; [by right|done].
      * simpl in Hres. by injection Hres as <-.
    + intros q Hq. destruct (Hnew q Hq) as [Hold|(Hpush & _)].
      * destruct (decide (q = c)) as [->|Hne].
        -- right. intros r (t & Ht & Hfrom & Heps & Hres).
           eapply Hall; [|done]. apply elem_of_getTransitionsFrom. done.
        -- destruct (Hwork q Hold) as [(v & [->|Hv]%elem_of_cons & Hres)|Hclosed].
           ++ congruence.
           ++ left. exists v. auto.
           ++ right. intros r Hr. auto.
      * left. exists (Obj q). done.
  - constructor; simpl; [done|done| |].
    + intros v q Hv. apply Hstk. by right.
    + intros q Hq. destruct (Hwork q Hq) as [(v & [->|Hv]%elem_of_cons & Hres)|Hclosed].
      * congruence.
      * left. by exists v.
      * by right.
Qed.

Lemma closure_body_measure h A cs :
  cs.2 <> [] ->
  (length (NFA.closure_body h A cs).2 + pending h A (NFA.closure_body h A cs).1
   < length cs.2 + pending h A cs.1)%nat.
Proof.
  unfold NFA.closure_body. destruct cs as [closure stack]. simpl.
  destruct stack as [|current stack]; [done|]. intros _.
  destruct (Automaton.resolve h A current) as [c|]; simpl; [|lia].
  destruct (closure_visit_fold h A
              (List.filter Transition.isEpsilon
                 (Automaton.getTransitionsFrom h A (Obj c))) (closure, stack))
    as (_ & _ & _ & _ & _ & Hmeasure).
  simpl in Hmeasure.
  assert (Hsub : forall t,
            t ∈ List.filter Transition.isEpsilon
                  (Automaton.getTransitionsFrom h A (Obj c)) ->
            t ∈ Automaton.transitions A).
  { intros t Ht. by apply elem_of_getTransitionsFrom in Ht as (Ht & _). }
  specialize (Hmeasure Hsub). lia.
Qed.

Lemma closure_while_inv h A S fuel cs :
  closureInv h A S cs -> closureInv h A S (NFA.closure_while h A fuel cs).
Proof.
  revert cs. induction fuel as [|fuel IH]; intros cs Hinv; simpl; [done|].
  destruct (cs.2) eqn:Hstack; [done|].
  apply IH, closure_body_inv. done.
Qed.

(** With at least as much fuel as the measure, the loop has exited: the
    stack is empty. *)
Lemma closure_while_exits h A fuel cs :
  (length cs.2 + pending h A cs.1 <= fuel)%nat ->
  (NFA.closure_while h A fuel cs).2 = [].
Proof.
  revert cs. induction fuel as [|fuel IH]; intros cs Hfuel; simpl.
  - destruct (cs.2); [done|simpl in Hfuel; lia].
  - destruct (cs.2) eqn:Hstack; [done|].
    apply IH.
    pose proof (closure_body_measure h A cs) as Hm.
    rewrite Hstack in Hm. specialize (Hm ltac:(done)). simpl in *. lia.
Qed.

(** More fuel than needed changes nothing: once the stack is empty the
    loop is over. *)
Lemma closure_while_stable h A fuel fuel' cs :
  (NFA.closure_while h A fuel cs).2 = [] ->
  (fuel <= fuel')%nat ->
  NFA.closure_while h A fuel' cs = NFA.closure_while h A fuel cs.
Proof.
  revert fuel' cs. induction fuel as [|fuel IH]; intros fuel' cs Hdone Hle.
  - simpl in *. destruct fuel'; simpl; [done|]. by rewrite Hdone.
  - destruct fuel' as [|fuel']; [lia|]. simpl in *.
    destruct (cs.2); [done|]. apply IH; [done|lia].
Qed.

Lemma closure_init_elem h A states l :
  l ∈ (NFA.closure_init h A states).1 <-> l ∈ denoted h A states.
Proof.
  unfold NFA.closure_init, denoted. simpl.
  assert (Hgen : forall acc,
            l ∈ foldl (fun closure s =>
                         match Automaton.resolve h A s with
                         | Some state => JS.set_add state closure
                         | None => closure
                         end) acc states
            <-> l ∈ acc \/ l ∈ omap (Automaton.resolve h A) states).
  { induction states as [|v states IH]; intros acc; simpl.
    - rewrite elem_of_nil. tauto.
    - rewrite IH. destruct (Automaton.resolve h A v) as [q|].
      + rewrite elem_of_set_add, elem_of_cons. tauto.
      + tauto. }
  rewrite Hgen, elem_of_nil. tauto.
Qed.

Lemma closure_init_inv h A states :
  closureInv h A (denoted h A states) (NFA.closure_init h A states).
Proof.
  constructor.
  - intros l Hl. by apply closure_init_elem.
  - intros l Hl%closure_init_elem. exists l. done.
  - intros v q Hv Hres. apply closure_init_elem.
    unfold denoted. apply list_elem_of_omap. exists v. split; [|done].
    unfold NFA.closure_init in Hv. simpl in Hv.
    by rewrite elem_of_rev_std in Hv.
  - intros q Hq%closure_init_elem. left.
    unfold denoted in Hq. apply list_elem_of_omap in Hq as (v & Hv & Hres).
    exists v. split; [|done]. unfold NFA.closure_init. simpl.
    by rewrite elem_of_rev_std.
Qed.

Lemma closure_fuel_enough h A states :
  (length (NFA.closure_init h A states).2
   + pending h A (NFA.closure_init h A states).1
   <= NFA.closure_fuel A states)%nat.
Proof.
  unfold NFA.closure_fuel, pending, targets. simpl. rewrite length_rev.
  apply Nat.add_le_mono_l.
  etransitivity; [apply filter_length_le|].
  apply length_omap_le.
Qed.

(** The loop of [epsilonClosure] exits within [closure_fuel] iterations. *)
Lemma epsilonClosure_terminates h A states :
  (NFA.closure_while h A (NFA.closure_fuel A states)
     (NFA.closure_init h A states)).2 = [].
Proof. apply closure_while_exits, closure_fuel_enough. Qed.

Lemma epsilonClosure_inv h A states :
  closureInv h A (denoted h A states)
    (NFA.epsilonClosure h A states, []).
Proof.
  pose proof (closure_while_inv h A (denoted h A states)
                (NFA.closure_fuel A states) _ (closure_init_inv h A states)) as Hinv.
  unfold NFA.epsilonClosure.
  pose proof (epsilonClosure_terminates h A states) as Hdone.
  destruct (NFA.closure_while h A _ _) as [closure stack]. simpl in *.
  by subst.
Qed.

Lemma epsilonClosure_extensive h A states l :
  l ∈ denoted h A states -> l ∈ NFA.epsilonClosure h A states.
Proof. apply (inv_extensive _ _ _ _ (epsilonClosure_inv h A states)). Qed.

Lemma epsilonClosure_closed h A states :
  epsilonClosed h A (fun l => l ∈ NFA.epsilonClosure h A states).
Proof.
  intros q r Hq Hedge.
  destruct (inv_worklist _ _ _ _ (epsilonClosure_inv h A states) q Hq)
    as [(v & Hv & _)|Hclosed]; [by apply elem_of_nil in Hv|auto].
Qed.

Lemma epsilonClosure_least h A states (C : loc -> Prop) :
  (forall l, l ∈ denoted h A states -> C l) ->
  epsilonClosed h A C ->
  forall l, l ∈ NFA.epsilonClosure h A states -> C l.
Proof.
  intros Hsup Hclosed l Hl.
  destruct (inv_reached _ _ _ _ (epsilonClosure_inv h A states) l Hl)
    as (s & Hs & Hpath).
  specialize (Hsup s Hs). clear Hs Hl.
  induction Hpath as [|x y z Hxy Hyz IH]; [done|].
  apply IH. by eapply Hclosed.
Qed.

Lemma denoted_objects h A (S : list loc) : denoted h A (Obj <$> S) = S.
Proof.
  unfold denoted. induction S as [|l S IH]; csimpl; [done|]. by rewrite IH.
Qed.

(** C5.  For every NFA and every list [S] of state objects, the loop of
    [epsilonClosure(S)] exits (and more iterations than [closure_fuel]
    are never needed); its result contains [S], is idempotent (the
    ε-closure of [Array.from(epsilonClosure(S))] has the same members as
    [epsilonClosure(S)]), is closed under following ε-transitions, and is
    contained in every set that contains [S] and is closed under following
    ε-transitions. *)
Theorem epsilonClosure_least_closed_superset
    (h : heap) (A : Automaton.t) (S : list loc) :
  (forall fuel, (NFA.closure_fuel A (Obj <$> S) <= fuel)%nat ->
     NFA.closure_while h A fuel (NFA.closure_init h A (Obj <$> S))
     = (NFA.epsilonClosure h A (Obj <$> S), []))
  /\ (forall l, l ∈ S -> l ∈ NFA.epsilonClosure h A (Obj <$> S))
  /\ (forall l,
        l ∈ NFA.epsilonClosure h A (Obj <$> NFA.epsilonClosure h A (Obj <$> S))
        <-> l ∈ NFA.epsilonClosure h A (Obj <$> S))
  /\ epsilonClosed h A (fun l => l ∈ NFA.epsilonClosure h A (Obj <$> S))
  /\ (forall C : loc -> Prop,
        (forall l, l ∈ S -> C l) -> epsilonClosed h A C ->
        forall l, l ∈ NFA.epsilonClosure h A (Obj <$> S) -> C l).
Proof.
  split_and!.
  - intros fuel Hfuel.
    pose proof (epsilonClosure_terminates h A (Obj <$> S)) as Hdone.
    rewrite (closure_while_stable h A _ fuel) by done.
    unfold NFA.epsilonClosure.
    destruct (NFA.closure_while h A _ _) as [closure stack].
    simpl in *. by subst.
  - intros l Hl. apply epsilonClosure_extensive. by rewrite denoted_objects.
  - intros l. split.
    + apply (epsilonClosure_least h A _
               (fun l => l ∈ NFA.epsilonClosure h A (Obj <$> S))).
      * intros l'. by rewrite denoted_objects.
      * apply epsilonClosure_closed.
    + intros Hl. apply epsilonClosure_extensive. by rewrite denoted_objects.
  - apply epsilonClosure_closed.
  - intros C Hsup Hclosed. apply (epsilonClosure_least h A _ C); [|done].
    intros l. rewrite denoted_objects. auto.
Qed.

(** ** Subset construction *)

(** C1 (the defect).  The NFA for [a*] and the DFA that [toDFA] builds
    from it disagree on the input of 1001 times ['a']: both runs stop
    after the default budget of 1000 steps with one symbol unread; the
    NFA's [checkAcceptance] rejects, the DFA's (the base class's) accepts. *)
Theorem toDFA_disagrees_on_long_input :
  let w := replicate 1001 "a" in
  snd <$> NFA.accepts a_star_heap w (a_star "nfa") = Some (Some false)
  /\ (wD ← NFA.toDFA 2 (mkWorld a_star_heap 1 1) (a_star "nfa");
      snd <$> DFA.accepts (objs wD.1) w wD.2) = Some (Some true).
Proof. vm_compute. split; reflexivity. Qed.

(** A second disagreement: on the one-symbol input ['ε'] the NFA takes its
    ε-transition as if it read the symbol ([accepts('ε')] is [true] for an
    ε-transition) and accepts; the DFA has no transition and rejects. *)
Lemma toDFA_disagrees_on_epsilon_symbol :
  snd <$> NFA.accepts eps_heap ["ε"] eps_nfa = Some (Some true)
  /\ (wD ← NFA.toDFA 2 (mkWorld eps_heap 2 1) eps_nfa;
      snd <$> DFA.accepts (objs wD.1) ["ε"] wD.2) = Some (Some false).
Proof. vm_compute. split; reflexivity. Qed.

(** ** PDA acceptance *)

Lemma inFinalState_spec h P c :
  PDA.inFinalState h P c = true <-> stateIsFinal h P c.
Proof.
  unfold PDA.inFinalState, JS.some, stateIsFinal, Automaton.getFinalStates.
  rewrite existsb_exists. split.
  - intros (f & Hf & Heq). apply filter_In in Hf as [Hf Hfin].
    apply bool_decide_eq_true in Heq.
    exists f. by rewrite list_elem_of_In.
  - intros (f & Hf & Hfin & Heq). exists f.
    rewrite filter_In, <- list_elem_of_In, bool_decide_eq_true. done.
Qed.

Lemma some_finalConfigs (P : PDA.t) (p : PDA.config -> bool) :
  JS.some p
    (List.filter
       (fun c => (length (Automaton.input (PDA.base P)) <=? PDA.c_inputIndex c)%nat)
       (PDA.configurations P)) = true
  <-> exists c, consumedAll P c /\ p c = true.
Proof.
  unfold JS.some, consumedAll. rewrite existsb_exists. split.
  - intros (c & Hc & Hp). apply filter_In in Hc as [Hc Hle].
    apply Nat.leb_le in Hle. exists c. by rewrite list_elem_of_In.
  - intros (c & [Hc Hle] & Hp). exists c.
    rewrite filter_In, <- list_elem_of_In, Nat.leb_le. done.
Qed.

Lemma PDA_checkAcceptance_cases (h : heap) (P : PDA.t) :
  (pdaAccepting h P
   /\ PDA.checkAcceptance h P = PDA.set_isAccepted (Some true) P)
  \/ (~ pdaAccepting h P
      /\ PDA.checkAcceptance h P = PDA.set_isAccepted (Some false) P).
Proof.
  assert (Hfin : JS.some (PDA.inFinalState h P)
            (List.filter
               (fun c => (length (Automaton.input (PDA.base P))
                          <=? PDA.c_inputIndex c)%nat)
               (PDA.configurations P)) = true
          <-> exists c, consumedAll P c /\ stateIsFinal h P c).
  { rewrite some_finalConfigs. by setoid_rewrite inFinalState_spec. }
  assert (Hemp : JS.some (fun c => (length (PDA.c_stack c) =? 0)%nat)
            (List.filter
               (fun c => (length (Automaton.input (PDA.base P))
                          <=? PDA.c_inputIndex c)%nat)
               (PDA.configurations P)) = true
          <-> exists c, consumedAll P c /\ PDA.c_stack c = []).
  { rewrite some_finalConfigs.
    split; intros (c & Hc & Hs); exists c; split; try done.
    - apply Nat.eqb_eq in Hs. by destruct (PDA.c_stack c).
    - by rewrite Hs. }
  unfold PDA.checkAcceptance, pdaAccepting.
  destruct (length _ =? 0)%nat eqn:Hlen.
  { right. split; [|done].
    apply Nat.eqb_eq, nil_length_inv in Hlen. rewrite Hlen in Hfin, Hemp.
    intros [[_ Hex]|[_ Hex]]; [apply Hfin in Hex|apply Hemp in Hex]; done. }
  destruct (PDA.acceptByFinalState P && _) eqn:H1.
  { apply andb_true_iff in H1 as [Hflag Hex]. apply Hfin in Hex.
    left. split; [by left|done]. }
  destruct (PDA.acceptByEmptyStack P && _) eqn:H2.
  { apply andb_true_iff in H2 as [Hflag Hex]. apply Hemp in Hex.
    left. split; [by right|done]. }
  right. split; [|done].
  intros [[Hflag Hex]|[Hflag Hex]].
  - apply Hfin in Hex. rewrite Hflag, Hex in H1. done.
  - apply Hemp in Hex. rewrite Hflag, Hex in H2. done.
Qed.

Lemma PDA_checkAcceptance_accepts (h : heap) (P : PDA.t) :
  pdaAccepting h P ->
  PDA.checkAcceptance h P = PDA.set_isAccepted (Some true) P.
Proof.
  intros Hacc. by destruct (PDA_checkAcceptance_cases h P) as [[_ ->]|[Hnot _]].
Qed.

Lemma PDA_checkAcceptance_rejects (h : heap) (P : PDA.t) :
  ~ pdaAccepting h P ->
  PDA.checkAcceptance h P = PDA.set_isAccepted (Some false) P.
Proof.
  intros Hnot. by destruct (PDA_checkAcceptance_cases h P) as [[Hacc _]|[_ ->]].
Qed.

(** C2.  [PDA.checkAcceptance] decides from the configurations that have
    consumed all input only: the verdict is [true] iff
    ([acceptByFinalState] and some such configuration is in a final state)
    or ([acceptByEmptyStack] and some such configuration has an empty
    stack), and [false] otherwise; nothing else changes.  A new PDA has
    [acceptByFinalState = true] and [acceptByEmptyStack = false]. *)
Theorem PDA_checkAcceptance_spec (h : heap) (P : PDA.t) :
  let accepting :=
    (PDA.acceptByFinalState P = true
     /\ exists c, consumedAll P c /\ stateIsFinal h P c)
    \/ (PDA.acceptByEmptyStack P = true
        /\ exists c, consumedAll P c /\ PDA.c_stack c = []) in
  (Automaton.isAccepted (PDA.base (PDA.checkAcceptance h P)) = Some true
   <-> accepting)
  /\ (Automaton.isAccepted (PDA.base (PDA.checkAcceptance h P)) = Some false
      <-> ~ accepting)
  /\ PDA.checkAcceptance h P
     = PDA.set_isAccepted
         (Automaton.isAccepted (PDA.base (PDA.checkAcceptance h P))) P
  /\ PDA.acceptByFinalState PDA.new = true
  /\ PDA.acceptByEmptyStack PDA.new = false.
Proof.
  intros accepting.
  fold (pdaAccepting h P) in accepting. subst accepting.
  destruct (PDA_checkAcceptance_cases h P) as [[Hacc ->]|[Hnot ->]];
    simpl; split_and!; try done.
Qed.

(** ** The tape of the Turing machine *)

Lemma getTapeCell_inside (M : TuringMachine.t) (p : Z) :
  TuringMachine.visibleTapeStart M <= p
    < TuringMachine.visibleTapeStart M
      + Z.of_nat (length (TuringMachine.tape M)) ->
  TuringMachine.getTapeCell p M
  = TuringMachine.cell (TuringMachine.tape M)
      (Z.to_nat (p - TuringMachine.visibleTapeStart M)).
Proof.
  intros Hp. unfold TuringMachine.getTapeCell.
  destruct (_ <? 0) eqn:E1; [apply Z.ltb_lt in E1; lia|].
  destruct (_ <=? _) eqn:E2; [apply Z.leb_le in E2; lia|done].
Qed.

Lemma getTapeCell_outside (M : TuringMachine.t) (p : Z) :
  p < TuringMachine.visibleTapeStart M
  \/ TuringMachine.visibleTapeStart M
     + Z.of_nat (length (TuringMachine.tape M)) <= p ->
  TuringMachine.getTapeCell p M = Some (TuringMachine.blankSymbol M).
Proof.
  intros Hp. unfold TuringMachine.getTapeCell.
  destruct (_ <? 0) eqn:E1; [done|]. apply Z.ltb_ge in E1.
  destruct (_ <=? _) eqn:E2; [done|]. apply Z.leb_gt in E2. lia.
Qed.

(** Extending the tape at the left end leaves the symbol at every logical
    position as it was. *)
Lemma growLeft_getTapeCell (M : TuringMachine.t) (p : Z) :
  TuringMachine.getTapeCell p (TuringMachine.growLeft M)
  = TuringMachine.getTapeCell p M.
Proof.
  set (s := TuringMachine.visibleTapeStart M).
  set (n := Z.of_nat (length (TuringMachine.tape M))).
  destruct (decide (s <= p < s + n)) as [Hin|Hout].
  - rewrite (getTapeCell_inside M) by done.
    rewrite getTapeCell_inside by (simpl; fold s n; lia).
    simpl. fold s.
    replace (Z.to_nat (p - (s - 1))) with (S (Z.to_nat (p - s))) by lia.
    done.
  - rewrite (getTapeCell_outside M) by (fold s n; lia).
    destruct (decide (p = s - 1)) as [->|Hne].
    + rewrite getTapeCell_inside by (simpl; fold s n; lia).
      simpl. fold s. replace (s - 1 - (s - 1)) with 0 by lia. done.
    + rewrite getTapeCell_outside by (simpl; fold s n; lia). done.
Qed.

(** Extending the tape at the left end keeps the logical position of the
    head. *)
Lemma growLeft_head (M : TuringMachine.t) :
  Z.of_nat (TuringMachine.headPosition (TuringMachine.growLeft M))
  + TuringMachine.visibleTapeStart (TuringMachine.growLeft M)
  = Z.of_nat (TuringMachine.headPosition M) + TuringMachine.visibleTapeStart M.
Proof. simpl. lia. Qed.

(** Extending the tape at the right end leaves the symbol at every
    logical position as it was. *)
Lemma growRight_getTapeCell (M : TuringMachine.t) (p : Z) :
  TuringMachine.getTapeCell p (TuringMachine.growRight M)
  = TuringMachine.getTapeCell p M.
Proof.
  set (s := TuringMachine.visibleTapeStart M).
  set (n := Z.of_nat (length (TuringMachine.tape M))).
  assert (Hlen : Z.of_nat (length (TuringMachine.tape (TuringMachine.growRight M)))
                 = n + 1).
  { simpl. rewrite length_app. simpl. lia. }
  destruct (decide (s <= p < s + n)) as [Hin|Hout].
  - rewrite (getTapeCell_inside M) by done.
    rewrite getTapeCell_inside by (rewrite Hlen; simpl; fold s; lia).
    simpl. fold s. unfold TuringMachine.cell.
    rewrite lookup_app_l by lia. done.
  - rewrite (getTapeCell_outside M) by (fold s n; lia).
    destruct (decide (p = s + n)) as [->|Hne].
    + rewrite getTapeCell_inside by (rewrite Hlen; simpl; fold s; lia).
      simpl. fold s. unfold TuringMachine.cell.
      rewrite lookup_app_r by lia.
      replace (Z.to_nat (s + n - s) - length (TuringMachine.tape M))%nat
        with 0%nat by lia.
      done.
    + rewrite getTapeCell_outside by (rewrite Hlen; simpl; fold s; lia). done.
Qed.

(** A head move leaves the symbol at every logical position as it was,
    also when it extends the tape. *)
Lemma moveHead_getTapeCell (d : string) (M : TuringMachine.t) (p : Z) :
  TuringMachine.getTapeCell p (TuringMachine.moveHead d M)
  = TuringMachine.getTapeCell p M.
Proof.
  unfold TuringMachine.moveHead.
  destruct (String.eqb d "L").
  { destruct (TuringMachine.headPosition M) eqn:Hh; [|done].
    rewrite <- (growLeft_getTapeCell M p). done. }
  destruct (String.eqb d "R"); [|done].
  destruct (_ <=? _)%nat; [|done].
  rewrite <- (growRight_getTapeCell M p). done.
Qed.

(** The loop [while (index < 0)] of [setTapeCell] never exits: its body
    does not change [index]. *)
Lemma whileLeft_diverges (fuel : nat) (index : Z) (M : TuringMachine.t) :
  index < 0 -> TuringMachine.whileLeft fuel index M = None.
Proof.
  intros Hneg. apply Z.ltb_lt in Hneg. revert M.
  induction fuel as [|fuel IH]; intros M; simpl; rewrite Hneg; [done|].
  apply IH.
Qed.

Lemma setTapeCell_left_diverges
    (fuel : nat) (position : Z) (symbol : string) (M : TuringMachine.t) :
  position < TuringMachine.visibleTapeStart M ->
  TuringMachine.setTapeCell fuel position symbol M = None.
Proof.
  intros Hlt. unfold TuringMachine.setTapeCell.
  rewrite whileLeft_diverges by lia. done.
Qed.

Lemma whileRight_exits (fuel : nat) (index : Z) (M : TuringMachine.t) :
  (Z.to_nat (index + 1 - Z.of_nat (length (TuringMachine.tape M))) <= fuel)%nat ->
  exists M',
    TuringMachine.whileRight fuel index M = Some M'
    /\ index < Z.of_nat (length (TuringMachine.tape M'))
    /\ TuringMachine.visibleTapeStart M' = TuringMachine.visibleTapeStart M
    /\ TuringMachine.headPosition M' = TuringMachine.headPosition M
    /\ TuringMachine.blankSymbol M' = TuringMachine.blankSymbol M
    /\ forall p, TuringMachine.getTapeCell p M' = TuringMachine.getTapeCell p M.
Proof.
  revert M. induction fuel as [|fuel IH]; intros M Hfuel; simpl.
  - destruct (_ <=? _) eqn:E; [apply Z.leb_le in E; lia|].
    apply Z.leb_gt in E. exists M. done.
  - destruct (_ <=? _) eqn:E.
    + apply Z.leb_le in E.
      destruct (IH (TuringMachine.growRight M)) as (M' & -> & H1 & H2 & H3 & H4 & H5).
      { simpl. rewrite length_app. simpl. lia. }
      exists M'. split_and!; try done.
      intros p. rewrite H5. apply growRight_getTapeCell.
    + apply Z.leb_gt in E. exists M. done.
Qed.

(** X25.  A write at or to the right of the first materialized cell lands at
    its logical position and changes no other position. *)
Lemma setTapeCell_writes
    (position : Z) (symbol : string) (M : TuringMachine.t) :
  TuringMachine.visibleTapeStart M <= position ->
  exists M',
    TuringMachine.setTapeCell
      (Z.to_nat (position - TuringMachine.visibleTapeStart M + 1))
      position symbol M = Some M'
    /\ TuringMachine.getTapeCell position M' = Some symbol
    /\ (forall q, q <> position ->
          TuringMachine.getTapeCell q M' = TuringMachine.getTapeCell q M)
    /\ Z.of_nat (TuringMachine.headPosition M') + TuringMachine.visibleTapeStart M'
       = Z.of_nat (TuringMachine.headPosition M) + TuringMachine.visibleTapeStart M.
Proof.
  intros Hge. unfold TuringMachine.setTapeCell.
  set (index := position - TuringMachine.visibleTapeStart M).
  assert (Hleft : forall fuel, TuringMachine.whileLeft fuel index M = Some M).
  { intros [|fuel]; simpl; destruct (index <? 0) eqn:E; try done;
      apply Z.ltb_lt in E; lia. }
  rewrite Hleft. simpl.
  destruct (whileRight_exits (Z.to_nat (index + 1)) index M)
    as (M1 & -> & Hlen & Hs & Hh & Hb & Hget); [lia|]. simpl.
  eexists. split; [done|].
  assert (Hidx : (Z.to_nat index < length (TuringMachine.tape M1))%nat) by lia.
  assert (Hassign : TuringMachine.assign (TuringMachine.tape M1)
                      (Z.to_nat index) (Some symbol)
                    = <[Z.to_nat index := Some symbol]> (TuringMachine.tape M1)).
  { unfold TuringMachine.assign. apply Nat.ltb_lt in Hidx. by rewrite Hidx. }
  rewrite Hassign. split_and!.
  - rewrite getTapeCell_inside by (simpl; rewrite length_insert; lia).
    simpl. rewrite Hs. fold index. unfold TuringMachine.cell.
    rewrite list_lookup_insert_eq by done. done.
  - intros q Hq. rewrite <- Hget.
    set (M2 := TuringMachine.set_tapeAlphabet _ _).
    destruct (decide (TuringMachine.visibleTapeStart M1 <= q
                      < TuringMachine.visibleTapeStart M1
                        + Z.of_nat (length (TuringMachine.tape M1)))) as [Hin|Hout].
    + rewrite (getTapeCell_inside M1) by done.
      rewrite getTapeCell_inside by (simpl; rewrite length_insert; lia).
      simpl. unfold TuringMachine.cell.
      rewrite list_lookup_insert_ne by (unfold index; lia). done.
    + rewrite (getTapeCell_outside M1) by lia.
      rewrite getTapeCell_outside by (simpl; rewrite length_insert; lia). done.
  - simpl. lia.
Qed.

Lemma setTapeCell_writes_witness :
  exists M',
    TuringMachine.setTapeCell
      (Z.to_nat (12 - TuringMachine.visibleTapeStart blank_machine + 1))
      12 "1" blank_machine = Some M'
    /\ TuringMachine.getTapeCell 12 M' = Some "1"
    /\ (forall q, q <> 12 ->
          TuringMachine.getTapeCell q M'
          = TuringMachine.getTapeCell q blank_machine)
    /\ Z.of_nat (TuringMachine.headPosition M') + TuringMachine.visibleTapeStart M'
       = Z.of_nat (TuringMachine.headPosition blank_machine)
         + TuringMachine.visibleTapeStart blank_machine.
Proof.
  apply (setTapeCell_writes 12 "1" blank_machine). vm_compute. discriminate.
Defined.

(** C7 (the defect).  On the blank machine, whose first materialized cell
    is at logical position -10, [setTapeCell(-11, '1')] never returns:
    however many iterations are allowed, the loop [while (index < 0)] has
    not exited. *)
Theorem setTapeCell_left_of_window_never_returns (fuel : nat) :
  TuringMachine.visibleTapeStart blank_machine = -10
  /\ TuringMachine.setTapeCell fuel (-11) "1" blank_machine = None.
Proof.
  split; [done|]. apply setTapeCell_left_diverges. done.
Qed.

(** ** The run of the Turing machine *)

Lemma moveHead_base d M :
  TuringMachine.base (TuringMachine.moveHead d M) = TuringMachine.base M.
Proof.
  unfold TuringMachine.moveHead.
  destruct (String.eqb d "L").
  { by destruct (TuringMachine.headPosition M). }
  destruct (String.eqb d "R"); [|done].
  by destruct (_ <=? _)%nat.
Qed.

(** A step that returns [true] has moved to a state that is neither halt
    nor final, and has not touched the verdict. *)
Lemma TM_step_continues h M M1 :
  TuringMachine.step h M = (M1, true) ->
  Automaton.isAccepted (TuringMachine.base M1)
  = Automaton.isAccepted (TuringMachine.base M)
  /\ exists nextState,
       Automaton.currentStates (TuringMachine.base M1) = [nextState]
       /\ Automaton.isHaltAt h nextState = false
       /\ Automaton.isFinalAt h nextState = false.
Proof.
  unfold TuringMachine.step.
  destruct (Automaton.currentStates (TuringMachine.base M)) as [|c cs]; [done|].
  destruct (Automaton.isHaltAt h c || Automaton.isFinalAt h c); [done|].
  destruct (JS.find _ _) as [t|]; [|done].
  destruct (Automaton.resolve _ _ _) as [nextState|]; [|done].
  destruct (Automaton.isHaltAt h nextState || Automaton.isFinalAt h nextState)
    eqn:Hnext; [done|].
  apply orb_false_elim in Hnext as [Hhalt Hfinal].
  intros [= <-].
  cbn [TuringMachine.base TuringMachine.set_base TuringMachine.set_trace
       Automaton.isAccepted Automaton.set_inputIndex
       Automaton.set_currentStates Automaton.currentStates].
  rewrite moveHead_base.
  cbn [TuringMachine.base TuringMachine.set_tape].
  split; [done|]. exists nextState. done.
Qed.

Lemma loopDetected_spec tr current :
  TuringMachine.loopDetected tr = Some current <->
  (100 < length tr)%nat
  /\ last tr = Some current
  /\ (2 < length (List.filter (TuringMachine.sameConfig current)
                    (TuringMachine.recent tr)))%nat.
Proof.
  unfold TuringMachine.loopDetected.
  destruct (100 <? length tr)%nat eqn:Hlen.
  - apply Nat.ltb_lt in Hlen. destruct (last tr) as [c|].
    + destruct (2 <? _)%nat eqn:Hdup.
      * apply Nat.ltb_lt in Hdup. split.
        -- intros [= <-]. done.
        -- intros (_ & [= <-] & _). done.
      * apply Nat.ltb_ge in Hdup. split; [done|].
        intros (_ & [= ->] & Hgt). lia.
    + split; [done|]. intros (_ & Hlast & _). done.
  - apply Nat.ltb_ge in Hlen. split; [done|]. intros (Hgt & _). lia.
Qed.

Lemma TM_run_loop_steps h budget M :
  ((TuringMachine.run_loop h budget M).1.2 <= budget)%nat.
Proof.
  revert M. induction budget as [|budget IH]; intros M; simpl; [lia|].
  destruct (TuringMachine.step h M) as [M1 continued].
  destruct continued; simpl; [|lia].
  destruct (TuringMachine.loopDetected _); simpl; [lia|].
  specialize (IH M1).
  destruct (TuringMachine.run_loop h budget M1) as [[M2 n] e]. simpl in *. lia.
Qed.

Lemma TM_run_loop_guard h budget M M' n :
  TuringMachine.run_loop h budget M = (M', n, TuringMachine.LoopGuard) ->
  exists M1 current,
    M' = TuringMachine.set_trace
           (TuringMachine.trace M1
            ++ [TuringMachine.loopEntry (TuringMachine.trace M1) current]) M1
    /\ TuringMachine.loopDetected (TuringMachine.trace M1) = Some current
    /\ Automaton.isAccepted (TuringMachine.base M1)
       = Automaton.isAccepted (TuringMachine.base M)
    /\ exists nextState,
         Automaton.currentStates (TuringMachine.base M1) = [nextState]
         /\ Automaton.isHaltAt h nextState = false
         /\ Automaton.isFinalAt h nextState = false.
Proof.
  revert M n. induction budget as [|budget IH]; intros M n; simpl; [done|].
  destruct (TuringMachine.step h M) as [M1 continued] eqn:Hstep.
  destruct continued; simpl; [|done].
  apply TM_step_continues in Hstep as [Hacc Hnext].
  destruct (TuringMachine.loopDetected _) as [current|] eqn:Hdet.
  - intros [= <- <-]. exists M1, current. done.
  - destruct (TuringMachine.run_loop h budget M1) as [[M2 k] e] eqn:Hrun.
    intros [= <- <- ->].
    destruct (IH _ _ Hrun) as (M3 & current & -> & Hd & Ha & Hn).
    exists M3, current. split_and!; try done. congruence.
Qed.

(** When a step continues and the detector's condition holds for the
    trace, this iteration is the last one. *)
Lemma TM_run_loop_halts_early h budget M M1 current :
  TuringMachine.step h M = (M1, true) ->
  (100 < length (TuringMachine.trace M1))%nat ->
  last (TuringMachine.trace M1) = Some current ->
  (2 < length (List.filter (TuringMachine.sameConfig current)
                 (TuringMachine.recent (TuringMachine.trace M1))))%nat ->
  TuringMachine.run_loop h (S budget) M
  = (TuringMachine.set_trace
       (TuringMachine.trace M1
        ++ [TuringMachine.loopEntry (TuringMachine.trace M1) current]) M1,
     1%nat, TuringMachine.LoopGuard).
Proof.
  intros Hstep Hlen Hlast Hdup. simpl. rewrite Hstep. simpl.
  assert (Hdet : TuringMachine.loopDetected (TuringMachine.trace M1)
                 = Some current) by (by apply loopDetected_spec).
  by rewrite Hdet.
Qed.

Lemma TM_initSimulation_undecided h inp M :
  Automaton.isAccepted (TuringMachine.base (TuringMachine.initSimulation h inp M).1)
  = None.
Proof.
  unfold TuringMachine.initSimulation.
  cbn [fst TuringMachine.base TuringMachine.set_base TuringMachine.set_trace
       TuringMachine.set_visibleTapeEnd TuringMachine.set_visibleTapeStart
       TuringMachine.initializeTape TuringMachine.set_headPosition
       TuringMachine.set_tapeAlphabet TuringMachine.set_tape
       Automaton.initialState Automaton.set_currentStates
       Automaton.set_isAccepted Automaton.set_isRunning
       Automaton.set_inputIndex Automaton.set_input].
  by destruct (Automaton.initialState (TuringMachine.base M)).
Qed.

Lemma TM_run_steps h maxSteps M :
  ((TuringMachine.run h maxSteps M).1.2 <= maxSteps)%nat.
Proof.
  unfold TuringMachine.run.
  pose proof (TM_run_loop_steps h maxSteps (TuringMachine.set_isRunning true M)) as H.
  destruct (TuringMachine.run_loop h maxSteps _) as [[M1 n] e]. done.
Qed.

(** What a run that the loop detector ended looks like. *)
Lemma TM_run_guard h maxSteps M :
  (TuringMachine.run h maxSteps M).2 = TuringMachine.LoopGuard ->
  Automaton.isAccepted (TuringMachine.base M) <> Some true ->
  Automaton.isAccepted (TuringMachine.base (TuringMachine.run h maxSteps M).1.1)
  = Some false
  /\ exists tr current,
       TuringMachine.trace (TuringMachine.run h maxSteps M).1.1
       = tr ++ [TuringMachine.loopEntry tr current]
       /\ TuringMachine.te_description (TuringMachine.loopEntry tr current)
          = "Potential infinite loop detected - halting"
       /\ (100 < length tr)%nat
       /\ last tr = Some current
       /\ (2 < length (List.filter (TuringMachine.sameConfig current)
                         (TuringMachine.recent tr)))%nat.
Proof.
  unfold TuringMachine.run.
  destruct (TuringMachine.run_loop h maxSteps _) as [[M1 n] e] eqn:Hrun.
  simpl. intros -> Hnot.
  apply TM_run_loop_guard in Hrun
    as (M2 & current & -> & Hdet & Hacc & nextState & Hcur & Hhalt & Hfinal).
  apply loopDetected_spec in Hdet as (Hlen & Hlast & Hdup).
  set (tr := TuringMachine.trace M2) in *.
  set (M3 := TuringMachine.set_trace (tr ++ [TuringMachine.loopEntry tr current]) M2).
  assert (Hacc3 : Automaton.isAccepted (TuringMachine.base M3)
                  = Automaton.isAccepted (TuringMachine.base M)) by done.
  assert (Hcur3 : Automaton.currentStates (TuringMachine.base M3) = [nextState])
    by done.
  assert (Htr3 : TuringMachine.trace M3 = tr ++ [TuringMachine.loopEntry tr current])
    by done.
  clearbody M3. rewrite Hacc3.
  destruct (Automaton.isAccepted (TuringMachine.base M)) as [[|]|] eqn:HM;
    [done| |].
  - split; [simpl; by rewrite Hacc3|].
    exists tr, current. done.
  - split.
    + unfold TuringMachine.checkAcceptance. simpl. rewrite Hcur3.
      rewrite Hhalt, Hfinal. done.
    + exists tr, current. split_and!; try done.
      unfold TuringMachine.checkAcceptance. simpl. rewrite Hcur3.
      by destruct (_ || _).
Qed.

(** C6.  [TuringMachine.run(maxSteps)] calls [step] at most [maxSteps]
    times (10000 by default).  When, after a step, the trace is longer
    than 100 and more than two of its last 50 records have the state, head
    position and tape string of the latest record, the loop is left at
    once and a 'Potential infinite loop' record is appended to the trace;
    the verdict of such a run is [false], for a run started by
    [initSimulation] and for any run that did not start with the verdict
    [true]. *)
Theorem TM_run_bounded_with_loop_guard
    (h : heap) (maxSteps : nat) (M : TuringMachine.t) (inp : list string) :
  ((TuringMachine.run h maxSteps M).1.2 <= maxSteps)%nat
  /\ Z.of_nat TuringMachine.defaultMaxSteps = 10000
  /\ (forall budget M0 M1 current,
        TuringMachine.step h M0 = (M1, true) ->
        (100 < length (TuringMachine.trace M1))%nat ->
        last (TuringMachine.trace M1) = Some current ->
        (2 < length (List.filter (TuringMachine.sameConfig current)
                       (TuringMachine.recent (TuringMachine.trace M1))))%nat ->
        TuringMachine.run_loop h (S budget) M0
        = (TuringMachine.set_trace
             (TuringMachine.trace M1
              ++ [TuringMachine.loopEntry (TuringMachine.trace M1) current]) M1,
           1%nat, TuringMachine.LoopGuard))
  /\ ((TuringMachine.run h maxSteps M).2 = TuringMachine.LoopGuard ->
      Automaton.isAccepted (TuringMachine.base M) <> Some true ->
      Automaton.isAccepted (TuringMachine.base (TuringMachine.run h maxSteps M).1.1)
      = Some false
      /\ exists tr current,
           TuringMachine.trace (TuringMachine.run h maxSteps M).1.1
           = tr ++ [TuringMachine.loopEntry tr current]
           /\ TuringMachine.te_description (TuringMachine.loopEntry tr current)
              = "Potential infinite loop detected - halting"
           /\ (100 < length tr)%nat
           /\ last tr = Some current
           /\ (2 < length (List.filter (TuringMachine.sameConfig current)
                             (TuringMachine.recent tr)))%nat)
  /\ ((TuringMachine.run h maxSteps (TuringMachine.initSimulation h inp M).1).2
      = TuringMachine.LoopGuard ->
      Automaton.isAccepted
        (TuringMachine.base
           (TuringMachine.run h maxSteps
              (TuringMachine.initSimulation h inp M).1).1.1)
      = Some false).
Proof.
  split_and!.
  - apply TM_run_steps.
  - by vm_compute.
  - intros budget M0 M1 current. apply TM_run_loop_halts_early.
  - apply TM_run_guard.
  - intros Hguard. apply TM_run_guard; [done|].
    by rewrite TM_initSimulation_undecided.
Qed.

(** On the staying machine the detector fires after 100 steps and the
    run is rejected. *)
Lemma TM_run_bounded_with_loop_guard_witness :
  (TuringMachine.run stay_heap TuringMachine.defaultMaxSteps stay_machine).1.2
  = 100%nat
  /\ Automaton.isAccepted
       (TuringMachine.base
          (TuringMachine.run stay_heap TuringMachine.defaultMaxSteps
             stay_machine).1.1)
     = Some false.
Proof.
  split; [by vm_compute|].
  destruct (TM_run_bounded_with_loop_guard stay_heap
              TuringMachine.defaultMaxSteps stay_machine [])
    as (_ & _ & _ & Hguard & _).
  apply Hguard.
  - by vm_compute.
  - discriminate.
Defined.


(** ** The loops of [run] *)


(** The DFA for [a*] on input ["aab"] with a budget of two steps: the
    loop of [run] exits after two steps with the budget exhausted, one
    symbol unread and [q0] active; [run] then calls the base
    [checkAcceptance], which does not look at the input, and the verdict
    is [true]. *)
Lemma DFA_run_budget_exhausted_accepts :
  let A := (Automaton.initSimulation ["a"; "a"; "b"] (a_star "dfa")).1 in
  (fun r => (r.2, Automaton.inputIndex r.1, length (Automaton.input r.1),
             Automaton.currentStates r.1, Automaton.isAccepted r.1))
    <$> DFA.run a_star_heap 2 A
  = Some (2%nat, 2%nat, 3%nat, [0%nat], Some true).
Proof. vm_compute. reflexivity. Qed.






(** ** Structured round trip *)

Lemma reloaded_id s :
  State.name s <> EmptyString -> State.x s <> 0 -> State.y s <> 0 ->
  reloaded s = s.
Proof.
  intros Hname Hx Hy. unfold reloaded, JSON.toState, State.new. simpl.
  unfold JS.or_string, JS.or_number.
  apply String.eqb_neq in Hname. apply Z.eqb_neq in Hx. apply Z.eqb_neq in Hy.
  rewrite Hname, Hx, Hy. by destruct s.
Qed.

Lemma loadStates_spec ss w :
  JSON.loadStates ss w
  = (seq (length (objs w)) (length ss),
     mkWorld (objs w ++ (reloaded <$> ss)) (State_nextId w) (Transition_nextId w)).
Proof.
  unfold JSON.loadStates.
  assert (Hgen : forall locs w,
    foldl (fun acc s =>
             let '(locs, w) := acc in
             let '(o, n) := JSON.toState s (State_nextId w) in
             (locs ++ [length (objs w)],
              mkWorld (objs w ++ [o]) n (Transition_nextId w)))
      (locs, w) ss
    = (locs ++ seq (length (objs w)) (length ss),
       mkWorld (objs w ++ (reloaded <$> ss)) (State_nextId w) (Transition_nextId w))).
  { clear w. induction ss as [|s ss IH]; intros locs w; simpl.
    - rewrite !app_nil_r. by destruct w.
    - rewrite IH. simpl.
      rewrite length_app. simpl. rewrite Nat.add_1_r.
      rewrite <- !app_assoc. simpl. done. }
  rewrite Hgen. done.
Qed.

Lemma loadTransitions_spec states js w :
  JSON.loadTransitions states js w
  = ((fun j => (JSON.toTransition (objs w) states j 0).1) <$> js, w).
Proof.
  unfold JSON.loadTransitions.
  assert (Hgen : forall acc,
    foldl (fun acc j =>
             let '(done, w) := acc in
             let '(t, n) := JSON.toTransition (objs w) states j (Transition_nextId w) in
             (done ++ [t], mkWorld (objs w) (State_nextId w) n))
      (acc, w) js
    = (acc ++ ((fun j => (JSON.toTransition (objs w) states j 0).1) <$> js), w)).
  { induction js as [|j js IH]; intros acc; simpl.
    - by rewrite app_nil_r.
    - destruct w as [o sn tn]. simpl in *. rewrite IH.
      rewrite <- app_assoc. done. }
  rewrite Hgen. done.
Qed.

Lemma set_of_list_NoDup {A} `{EqDecision A} (l : list A) :
  NoDup l -> JS.set_of_list l = l.
Proof.
  unfold JS.set_of_list.
  assert (Hgen : forall acc, NoDup (acc ++ l) ->
            foldl (fun s x => JS.set_add x s) acc l = acc ++ l).
  { induction l as [|a l IH]; intros acc Hnd; simpl.
    - by rewrite app_nil_r.
    - assert (Ha : a ∉ acc).
      { apply NoDup_app in Hnd as (_ & Hdis & _). intros Hin.
        apply (Hdis a Hin). left. }
      unfold JS.set_add at 2. rewrite bool_decide_eq_false_2 by done.
      rewrite IH; rewrite <- app_assoc; done. }
  intros Hnd. by rewrite Hgen.
Qed.

(** The new state objects, read back. *)
Lemma lookup_new_states (h0 ss : list State.t) k :
  (k < length ss)%nat -> (h0 ++ ss) !! (length h0 + k)%nat = ss !! k.
Proof.
  intros Hk. rewrite lookup_app_r by lia. f_equal. lia.
Qed.

Lemma omap_new_states (h0 ss : list State.t) :
  omap (fun l => (h0 ++ ss) !! l) (seq (length h0) (length ss)) = ss.
Proof.
  revert h0. induction ss as [|s ss IH]; intros h0; [done|].
  simpl. rewrite lookup_app_r by lia. rewrite Nat.sub_diag. simpl.
  f_equal. specialize (IH (h0 ++ [s])).
  rewrite length_app, <- app_assoc in IH. simpl in IH.
  rewrite Nat.add_1_r in IH. done.
Qed.

(** Looking a written id up among the new states finds a state of that
    id as soon as an old state had it. *)
Lemma find_new_state (h : heap) (ss : list State.t) (h0 : heap) (i : Z) :
  (exists s, s ∈ ss /\ State.id s = i) ->
  exists l,
    JS.find (fun l => bool_decide (Automaton.idAt (h0 ++ ss) l = Some i))
      (seq (length h0) (length ss)) = Some l
    /\ Automaton.idAt (h0 ++ ss) l = Some i.
Proof.
  intros (s & Hs & Hid).
  destruct (JS.find _ _) as [l|] eqn:Hfind.
  - exists l. split; [done|].
    apply JS_find_some in Hfind as [_ Hl]. by apply bool_decide_eq_true in Hl.
  - exfalso. apply list_elem_of_lookup in Hs as [k Hk].
    pose proof (lookup_lt_Some _ _ _ Hk) as Hlt.
    rewrite JS_find_none in Hfind.
    specialize (Hfind (length h0 + k)%nat).
    rewrite bool_decide_eq_false in Hfind. apply Hfind.
    + apply elem_of_seq. lia.
    + unfold Automaton.idAt. rewrite lookup_new_states by done.
      rewrite Hk. simpl. by rewrite Hid.
Qed.

Lemma written_state_of (h : heap) (A : Automaton.t) (l : loc) (i : Z) :
  l ∈ Automaton.states A -> Automaton.idAt h l = Some i ->
  exists s, s ∈ omap (fun l => h !! l) (Automaton.states A) /\ State.id s = i.
Proof.
  intros Hl Hid. unfold Automaton.idAt in Hid.
  destruct (h !! l) as [s|] eqn:Hs; [|done].
  exists s. split; [|by injection Hid].
  apply list_elem_of_omap. by exists l.
Qed.

Lemma or_null_id (o : option string) :
  o <> Some EmptyString -> Transition.or_null o = o.
Proof.
  intros Hne. destruct o as [s|]; [|done]. simpl.
  destruct (String.eqb s EmptyString) eqn:E; [|done].
  apply String.eqb_eq in E. congruence.
Qed.

(** The endpoint found on loading has the written id. *)
Lemma findState_id (h : heap) (A : Automaton.t) (h0 : heap) (o : option Z) :
  (forall i, o = Some i ->
     exists l, l ∈ Automaton.states A /\ Automaton.idAt h l = Some i) ->
  idOf (h0 ++ omap (fun l => h !! l) (Automaton.states A))
    (JSON.findState (h0 ++ omap (fun l => h !! l) (Automaton.states A))
       (seq (length h0) (length (omap (fun l => h !! l) (Automaton.states A)))) o)
  = o.
Proof.
  intros Hex. unfold JSON.findState. destruct o as [i|].
  - destruct (Hex i eq_refl) as (l & Hl & Hid).
    destruct (find_new_state h _ h0 i (written_state_of h A l i Hl Hid))
      as (l' & -> & Hid').
    done.
  - assert (Hnone : JS.find (fun _ : nat => false)
              (seq (length h0)
                 (length (omap (fun l => h !! l) (Automaton.states A)))) = None).
    { by apply JS_find_none. }
    by rewrite Hnone.
Qed.

Lemma objs_updateIdCounters A w : objs (JSON.updateIdCounters A w) = objs w.
Proof.
  unfold JSON.updateIdCounters.
  destruct (Automaton.states A); destruct (Automaton.transitions A); done.
Qed.

(** The fields that [loadFromJSON] sets. *)
Lemma loadAutomaton_fields (json : JSON.automaton) (w : world) (A0 : Automaton.t) :
  let wA := JSON.loadAutomaton json (w, A0) in
  let h' := objs w ++ (reloaded <$> JSON.a_states json) in
  let L := seq (length (objs w)) (length (JSON.a_states json)) in
  objs wA.1 = h'
  /\ Automaton.states wA.2 = L
  /\ Automaton.transitions wA.2
     = (fun j => (JSON.toTransition h' L j 0).1) <$> JSON.a_transitions json
  /\ Automaton.alphabet wA.2 = JS.set_of_list (JSON.a_alphabet json)
  /\ Automaton.type wA.2 = JS.or_string (JSON.a_type json) "dfa"
  /\ Automaton.initialState wA.2
     = match JSON.a_initialStateId json with
       | Some i => JS.find (fun l => bool_decide (Automaton.idAt h' l = Some i)) L
       | None => JS.find (Automaton.isInitialAt h') L
       end.
Proof.
  unfold JSON.loadAutomaton. cbv zeta.
  rewrite loadStates_spec. cbn [objs State_nextId Transition_nextId].
  rewrite loadTransitions_spec. cbn [objs State_nextId Transition_nextId].
  cbn [fst snd]. rewrite objs_updateIdCounters. cbn.
  split_and!; done.
Qed.

(** The structured round trip of a well-formed automaton: what
    [loadFromJSON(toJSON(A))] builds is written by [toJSON] as [A] is --
    the same type, the same states field by field, the same transitions
    by id, endpoint ids and label fields, the same alphabet and the same
    initial state id. *)
Lemma roundtrip_wellformed (h : heap) (A : Automaton.t)
    (w : world) (A0 : Automaton.t) :
  roundTrips h A ->
  JSON.ofAutomaton
    (objs (JSON.loadAutomaton (JSON.ofAutomaton h A) (w, A0)).1)
    (JSON.loadAutomaton (JSON.ofAutomaton h A) (w, A0)).2
  = JSON.ofAutomaton h A.
Proof.
  intros [Htype Hstates Hends Hlabels Hinit Halpha].
  destruct (loadAutomaton_fields (JSON.ofAutomaton h A) w A0)
    as (Hobjs & HL & Hts & Hal & Hty & Hini).
  set (wA := JSON.loadAutomaton (JSON.ofAutomaton h A) (w, A0)) in *.
  clearbody wA. cbn [JSON.ofAutomaton JSON.a_states JSON.a_transitions
    JSON.a_alphabet JSON.a_type JSON.a_initialStateId] in *.
  set (ss := omap (fun l => h !! l) (Automaton.states A)) in *.
  assert (Hre : reloaded <$> ss = ss).
  { rewrite <- (list_fmap_id ss) at 2. apply list_fmap_ext.
    intros k s Hk. simpl.
    assert (Hs : s ∈ ss) by (apply list_elem_of_lookup; eauto).
    apply list_elem_of_omap in Hs as (l & Hl & Hls).
    destruct (Hstates l s Hl Hls) as (? & ? & ?). by apply reloaded_id. }
  rewrite Hre in *.
  set (h' := objs w ++ ss) in *.
  set (L := seq (length (objs w)) (length ss)) in *.
  unfold JSON.ofAutomaton. rewrite Hobjs, HL, Hts, Hal, Hty, Hini.
  f_equal.
  - unfold JS.or_string. apply String.eqb_neq in Htype. by rewrite Htype.
  - apply omap_new_states.
  - rewrite <- !list_fmap_compose. apply list_fmap_ext.
    intros k t Hk. simpl.
    assert (Ht : t ∈ Automaton.transitions A) by (apply list_elem_of_lookup; eauto).
    destruct (Hlabels t Ht) as (H1 & H2 & H3 & H4 & H5).
    unfold JSON.ofTransition, JSON.toTransition, Transition.new,
      Transition.getFromStateId, Transition.getToStateId. simpl.
    rewrite !or_null_id by done.
    unfold h', L, ss.
    rewrite !(findState_id h A).
    + done.
    + intros i Hi. apply (Hends t i Ht). by right.
    + intros i Hi. apply (Hends t i Ht). by left.
  - by apply set_of_list_NoDup.
  - destruct (Automaton.initialState A ≫= Automaton.idAt h) as [i|] eqn:Hi.
    + destruct Hinit as (l & Hl & Hid).
      destruct (find_new_state h ss (objs w) i (written_state_of h A l i Hl Hid))
        as (l' & Hfind & Hid').
      fold h' L in Hfind. rewrite Hfind. simpl. done.
    + assert (Hnone : JS.find (Automaton.isInitialAt h') L = None).
      { apply JS_find_none. intros l' Hl'. apply elem_of_seq in Hl'.
        unfold Automaton.isInitialAt, h'.
        replace l' with (length (objs w) + (l' - length (objs w)))%nat by lia.
        rewrite lookup_new_states by lia.
        destruct (ss !! (l' - length (objs w))%nat) as [s|] eqn:Hs; [|done].
        simpl.
        assert (Hin : s ∈ ss) by (apply list_elem_of_lookup; eauto).
        apply list_elem_of_omap in Hin as (l & Hl & Hls).
        specialize (Hinit l Hl). unfold Automaton.isInitialAt in Hinit.
        by rewrite Hls in Hinit. }
      by rewrite Hnone.
Qed.

(** X12.  The structured round trip of a well-formed PDA, whose
    [initialStackSymbol] is not empty: what [loadFromJSON(toJSON(P))]
    builds is written by [toJSON] as [P] is, the stack settings
    ([initialStackSymbol], [acceptByFinalState], [acceptByEmptyStack],
    [stackAlphabet]) included. *)
Lemma roundtrip_wellformed_PDA (h : heap) (P : PDA.t) (w : world) (P0 : PDA.t) :
  roundTrips h (PDA.base P) ->
  PDA.initialStackSymbol P <> EmptyString ->
  NoDup (PDA.stackAlphabet P) ->
  JSON.ofPDA (objs (JSON.loadPDA (JSON.ofPDA h P) (w, P0)).1)
    (JSON.loadPDA (JSON.ofPDA h P) (w, P0)).2
  = JSON.ofPDA h P.
Proof.
  intros Hrt Hsym Hnd.
  pose proof (roundtrip_wellformed h (PDA.base P) w (PDA.base P0) Hrt) as Hbase.
  unfold JSON.loadPDA. cbn [JSON.ofPDA JSON.p_base JSON.p_initialStackSymbol
    JSON.p_acceptByFinalState JSON.p_acceptByEmptyStack JSON.p_stackAlphabet].
  destruct (JSON.loadAutomaton _ _) as [w' B]. cbn [fst snd] in *.
  unfold JSON.ofPDA. cbn. rewrite Hbase. f_equal.
  - unfold JS.or_string. apply String.eqb_neq in Hsym. by rewrite Hsym.
  - by destruct (PDA.acceptByFinalState P).
  - by destruct (PDA.acceptByEmptyStack P).
  - by apply set_of_list_NoDup.
Qed.

(** X13.  The structured round trip of a well-formed Turing machine, whose
    [blankSymbol] is not empty: what [loadFromJSON(toJSON(M))] builds is
    written by [toJSON] as [M] is, [blankSymbol] and [tapeAlphabet]
    included. *)
Lemma roundtrip_wellformed_TM (h : heap) (M : TuringMachine.t)
    (w : world) (M0 : TuringMachine.t) :
  roundTrips h (TuringMachine.base M) ->
  TuringMachine.blankSymbol M <> EmptyString ->
  NoDup (TuringMachine.tapeAlphabet M) ->
  JSON.ofTM (objs (JSON.loadTM (JSON.ofTM h M) (w, M0)).1)
    (JSON.loadTM (JSON.ofTM h M) (w, M0)).2
  = JSON.ofTM h M.
Proof.
  intros Hrt Hsym Hnd.
  pose proof (roundtrip_wellformed h (TuringMachine.base M) w
                (TuringMachine.base M0) Hrt) as Hbase.
  unfold JSON.loadTM. cbn [JSON.ofTM JSON.m_base JSON.m_blankSymbol
    JSON.m_tapeAlphabet].
  destruct (JSON.loadAutomaton _ _) as [w' B]. cbn [fst snd] in *.
  unfold JSON.ofTM. cbn. rewrite Hbase. f_equal.
  - unfold JS.or_string. apply String.eqb_neq in Hsym. by rewrite Hsym.
  - by apply set_of_list_NoDup.
Qed.

Lemma roundTrips_anbn : roundTrips anbn_heap (PDA.base anbn).
Proof.
  constructor; cbn.
  - done.
  - intros l s Hl Hs. rewrite !elem_of_cons, elem_of_nil in Hl.
    destruct Hl as [->|[->|[->|[]]]]; injection Hs as <-; done.
  - intros t i Ht Hi. rewrite !elem_of_cons, elem_of_nil in Ht.
    destruct Ht as [->|[->|[->|[->|[->|[]]]]]]; destruct Hi as [[= <-]|[= <-]];
      match goal with |- exists l, _ /\ _ = Some ?i =>
        exists (Z.to_nat i) end;
      (split; [vm_compute Z.to_nat; rewrite !elem_of_cons; tauto|reflexivity]).
  - intros t Ht. rewrite !elem_of_cons, elem_of_nil in Ht.
    destruct Ht as [->|[->|[->|[->|[->|[]]]]]]; done.
  - exists 0%nat. split; [left|done].
  - apply (bool_decide_unpack _). by vm_compute.
Qed.

Lemma roundtrip_wellformed_PDA_witness :
  JSON.ofPDA
    (objs (JSON.loadPDA (JSON.ofPDA anbn_heap anbn)
             (mkWorld anbn_heap 3 5, PDA.new)).1)
    (JSON.loadPDA (JSON.ofPDA anbn_heap anbn) (mkWorld anbn_heap 3 5, PDA.new)).2
  = JSON.ofPDA anbn_heap anbn.
Proof.
  apply (roundtrip_wellformed_PDA anbn_heap anbn (mkWorld anbn_heap 3 5) PDA.new).
  - exact roundTrips_anbn.
  - discriminate.
  - apply NoDup_singleton.
Defined.

Lemma roundTrips_flip : roundTrips flip_heap (TuringMachine.base flip_machine).
Proof.
  constructor; cbn.
  - done.
  - intros l s Hl Hs. rewrite !elem_of_cons, elem_of_nil in Hl.
    destruct Hl as [->|[->|[]]]; injection Hs as <-; done.
  - intros t i Ht Hi. rewrite !elem_of_cons, elem_of_nil in Ht.
    destruct Ht as [->|[->|[->|[]]]]; destruct Hi as [[= <-]|[= <-]];
      match goal with |- exists l, _ /\ _ = Some ?i =>
        exists (Z.to_nat i) end;
      (split; [vm_compute Z.to_nat; rewrite !elem_of_cons; tauto|reflexivity]).
  - intros t Ht. rewrite !elem_of_cons, elem_of_nil in Ht.
    destruct Ht as [->|[->|[->|[]]]]; done.
  - exists 0%nat. split; [left|done].
  - apply NoDup_nil_2.
Qed.

Lemma roundtrip_wellformed_TM_witness :
  JSON.ofTM
    (objs (JSON.loadTM (JSON.ofTM flip_heap flip_machine)
             (mkWorld flip_heap 2 3, TuringMachine.new)).1)
    (JSON.loadTM (JSON.ofTM flip_heap flip_machine)
       (mkWorld flip_heap 2 3, TuringMachine.new)).2
  = JSON.ofTM flip_heap flip_machine.
Proof.
  apply (roundtrip_wellformed_TM flip_heap flip_machine (mkWorld flip_heap 2 3)
           TuringMachine.new).
  - exact roundTrips_flip.
  - discriminate.
  - apply NoDup_singleton.
Defined.

(** C4 (the defect).  The round trip of the DFA whose state [q0] is at
    [(0, 50)] yields a state at [(100, 50)]: [State.fromJSON] passes
    [x: 0] to the constructor, whose [options.x || 100] takes [0] for a
    missing value. *)
Theorem roundtrip_moves_state_at_x0 :
  let json := JSON.ofAutomaton x0_heap x0_dfa in
  let wA := JSON.loadAutomaton json (mkWorld x0_heap 1 0, Automaton.new "dfa") in
  (State.x <$> JSON.a_states json) = [0]
  /\ (State.x <$> JSON.a_states (JSON.ofAutomaton (objs wA.1) wA.2)) = [100].
Proof. by vm_compute. Qed.

(** The NFA for [a*] is well formed for the round trip, and comes back
    as it was written. *)
Example roundtrip_a_star (w : world) (A0 : Automaton.t) :
  JSON.ofAutomaton
    (objs (JSON.loadAutomaton (JSON.ofAutomaton a_star_heap (a_star "nfa")) (w, A0)).1)
    (JSON.loadAutomaton (JSON.ofAutomaton a_star_heap (a_star "nfa")) (w, A0)).2
  = JSON.ofAutomaton a_star_heap (a_star "nfa").
Proof.
  apply roundtrip_wellformed. constructor.
  - done.
  - intros l s ->%list_elem_of_singleton [= <-]. done.
  - intros t i ->%list_elem_of_singleton [[= <-]|[= <-]];
      exists 0%nat; (split; [apply list_elem_of_singleton|]; done).
  - intros t ->%list_elem_of_singleton. done.
  - simpl. exists 0%nat. split; [apply list_elem_of_singleton|]; done.
  - apply NoDup_singleton.
Qed.

(** ** Removing a state; the alphabet *)

Lemma idAt_write_isInitial h l b l' :
  Automaton.idAt (Automaton.write_isInitial l b h) l' = Automaton.idAt h l'.
Proof.
  unfold Automaton.idAt, Automaton.write_isInitial.
  destruct (decide (l = l')) as [->|Hne].
  - rewrite list_lookup_alter_eq. by destruct (h !! l').
  - by rewrite list_lookup_alter_ne.
Qed.

Lemma idOf_write_isInitial h l b v :
  idOf (Automaton.write_isInitial l b h) v = idOf h v.
Proof. destruct v; [apply idAt_write_isInitial|done..]. Qed.

(** The store after [removeState] gives every state object the id it
    had. *)
Lemma removeState_ids state w A l :
  Automaton.idAt (objs (Automaton.removeState state (w, A)).1) l
  = Automaton.idAt (objs w) l.
Proof.
  unfold Automaton.removeState. cbv zeta.
  destruct (Automaton.initialState _) as [i|]; [|done].
  case_bool_decide; [|done].
  destruct (List.filter _ (Automaton.states A)) as [|s0 ss]; [done|].
  apply idAt_write_isInitial.
Qed.

Lemma removeState_idOf state w A v :
  idOf (objs (Automaton.removeState state (w, A)).1) v = idOf (objs w) v.
Proof. destruct v; [apply removeState_ids|done..]. Qed.

Lemma removeState_states state w A :
  Automaton.states (Automaton.removeState state (w, A)).2
  = List.filter
      (fun s => bool_decide (Automaton.idAt (objs w) s <> idOf (objs w) state))
      (Automaton.states A).
Proof.
  unfold Automaton.removeState. cbv zeta.
  destruct (Automaton.initialState _) as [i|]; [|done].
  case_bool_decide; [|done].
  destruct (List.filter _ (Automaton.states A)) as [|s0 ss] eqn:Hss; done.
Qed.

Lemma removeState_transitions state w A :
  Automaton.transitions (Automaton.removeState state (w, A)).2
  = List.filter
      (fun t =>
         bool_decide (Transition.getFromStateId (objs w) t <> idOf (objs w) state)
         && bool_decide (Transition.getToStateId (objs w) t <> idOf (objs w) state))
      (Automaton.transitions A).
Proof.
  unfold Automaton.removeState. cbv zeta.
  destruct (Automaton.initialState _) as [i|]; [|done].
  case_bool_decide; [|done].
  destruct (List.filter _ (Automaton.states A)) as [|s0 ss] eqn:Hss; done.
Qed.

Lemma removeState_alphabet state wA :
  Automaton.alphabet (Automaton.removeState state wA).2 = Automaton.alphabet wA.2.
Proof.
  destruct wA as [w A]. unfold Automaton.removeState. cbv zeta.
  destruct (Automaton.initialState _) as [i|]; [|done].
  case_bool_decide; [|done].
  destruct (List.filter _ (Automaton.states A)) as [|s0 ss] eqn:Hss; done.
Qed.

(** X6.  [removeState] leaves nothing that mentions the id of the removed
    state: no listed state has it, no transition starts or ends at it, and
    [this.initialState] does not have it.  Nothing else goes: the states
    with another id and the transitions between them stay, in order.  If
    the initial state had the id, the first state that is left becomes the
    initial state and is flagged so. *)
Theorem removeState_purges_id
    (state : StateOrId) (i : Z) (w : world) (A : Automaton.t) :
  idOf (objs w) state = Some i ->
  let wA' := Automaton.removeState state (w, A) in
  let h' := objs wA'.1 in
  Automaton.states wA'.2
  = List.filter (fun l => bool_decide (Automaton.idAt h' l <> Some i))
      (Automaton.states A)
  /\ Automaton.transitions wA'.2
     = List.filter
         (fun t => bool_decide (Transition.getFromStateId h' t <> Some i)
                   && bool_decide (Transition.getToStateId h' t <> Some i))
         (Automaton.transitions A)
  /\ (forall l, Automaton.initialState wA'.2 = Some l ->
                Automaton.idAt h' l <> Some i)
  /\ (forall l0, Automaton.initialState A = Some l0 ->
                 Automaton.idAt (objs w) l0 = Some i ->
                 Automaton.initialState wA'.2 = head (Automaton.states wA'.2)
                 /\ forall l s, Automaton.initialState wA'.2 = Some l ->
                                h' !! l = Some s -> State.isInitial s = true).
Proof.
  intros Hid wA' h'.
  assert (Hids : forall l, Automaton.idAt h' l = Automaton.idAt (objs w) l).
  { intros l. apply removeState_ids. }
  assert (HidOf : forall v, idOf h' v = idOf (objs w) v).
  { intros v. apply removeState_idOf. }
  split_and!.
  - unfold wA'. rewrite removeState_states, Hid.
    apply filter_ext. intros l. by rewrite Hids.
  - unfold wA'. rewrite removeState_transitions, Hid.
    apply filter_ext. intros t.
    unfold Transition.getFromStateId, Transition.getToStateId.
    by rewrite !HidOf.
  - intros l. rewrite Hids. unfold wA', Automaton.removeState. cbv zeta.
    rewrite Hid.
    destruct A as [ty ss ts al ini cs inp idx r acc].
    cbn [Automaton.initialState Automaton.set_states Automaton.set_transitions
         Automaton.states Automaton.transitions].
    destruct ini as [l0|]; [|done].
    case_bool_decide as Hl0.
    + destruct (List.filter _ ss) as [|s0 ss'] eqn:Hss; [done|].
      cbn. intros [= <-].
      assert (Hin : s0 ∈ List.filter
                (fun s => bool_decide (Automaton.idAt (objs w) s <> Some i)) ss).
      { rewrite Hss. apply list_elem_of_here. }
      apply elem_of_filter_std in Hin as [_ Hin].
      by apply bool_decide_eq_true in Hin.
    + cbn. intros [= <-]. done.
  - intros l0 Hini Hl0. unfold h', wA', Automaton.removeState. cbv zeta.
    rewrite Hid.
    destruct A as [ty ss ts al ini cs inp idx r acc].
    cbn [Automaton.initialState Automaton.set_states Automaton.set_transitions
         Automaton.states Automaton.transitions] in *.
    subst ini. rewrite bool_decide_eq_true_2 by done.
    destruct (List.filter _ ss) as [|s0 ss'] eqn:Hss; cbn; [done|].
    split; [done|]. intros l s [= <-].
    unfold Automaton.write_isInitial. rewrite list_lookup_alter_eq.
    destruct (objs w !! s0); [|done]. by intros [= <-].
Qed.

Lemma removeState_purges_id_witness :
  let wA' := Automaton.removeState (Obj 1%nat) (mkWorld three_heap 3 3, astarb_nfa) in
  let h' := objs wA'.1 in
  Automaton.states wA'.2
  = List.filter (fun l => bool_decide (Automaton.idAt h' l <> Some 1))
      (Automaton.states astarb_nfa)
  /\ Automaton.transitions wA'.2
     = List.filter
         (fun t => bool_decide (Transition.getFromStateId h' t <> Some 1)
                   && bool_decide (Transition.getToStateId h' t <> Some 1))
         (Automaton.transitions astarb_nfa)
  /\ (forall l, Automaton.initialState wA'.2 = Some l ->
                Automaton.idAt h' l <> Some 1)
  /\ (forall l0, Automaton.initialState astarb_nfa = Some l0 ->
                 Automaton.idAt (objs (mkWorld three_heap 3 3)) l0 = Some 1 ->
                 Automaton.initialState wA'.2 = head (Automaton.states wA'.2)
                 /\ forall l s, Automaton.initialState wA'.2 = Some l ->
                                h' !! l = Some s -> State.isInitial s = true).
Proof.
  apply (removeState_purges_id (Obj 1%nat) 1 (mkWorld three_heap 3 3) astarb_nfa).
  reflexivity.
Defined.

(** What [addTransition] makes of the alphabet. *)
Lemma addTransition_alphabet_fold (symbols alpha : list string) :
  let alpha' :=
    foldl
      (fun acc s =>
         if negb (String.eqb s EmptyString) && negb (String.eqb s "ε")
         then JS.set_add s acc else acc)
      alpha symbols in
  (forall s, s ∈ alpha' <->
             s ∈ alpha \/ (s ∈ symbols /\ s <> EmptyString /\ s <> "ε"))
  /\ (NoDup alpha -> NoDup alpha').
Proof.
  revert alpha. induction symbols as [|c symbols IH]; intros alpha; cbn zeta.
  - simpl. split; [|done]. intros s. rewrite elem_of_nil. tauto.
  - cbn [foldl]. destruct (IH
      (if negb (String.eqb c EmptyString) && negb (String.eqb c "ε")
       then JS.set_add c alpha else alpha)) as [Hin Hnd].
    cbv zeta in Hin, Hnd. split.
    + intros s. rewrite Hin. rewrite elem_of_cons.
      destruct (String.eqb c EmptyString) eqn:E1; simpl.
      { apply String.eqb_eq in E1. subst c. split; [tauto|].
        intros [?|[[->|?] [? ?]]]; tauto. }
      destruct (String.eqb c "ε") eqn:E2; simpl.
      { apply String.eqb_eq in E2. subst c. split; [tauto|].
        intros [?|[[->|?] [? ?]]]; tauto. }
      apply String.eqb_neq in E1, E2.
      rewrite elem_of_set_add. split.
      * intros [[->|?]|?]; tauto.
      * intros [?|[[->|?] [? ?]]]; tauto.
    + intros Hnd0. apply Hnd.
      destruct (negb _ && negb _); [by apply NoDup_set_add|done].
Qed.

Lemma addTransition_alphabet t wA s :
  s ∈ Automaton.alphabet (Automaton.addTransition t wA).2
  <-> s ∈ Automaton.alphabet wA.2
      \/ (s ∈ Transition.symbols t /\ s <> EmptyString /\ s <> "ε").
Proof.
  destruct wA as [w A]. unfold Automaton.addTransition. cbn.
  apply addTransition_alphabet_fold.
Qed.

Lemma mutate_alphabet m wA :
  (exists t, m = AddTransition t)
  \/ m = Clear /\ Automaton.alphabet (mutate m wA).2 = []
  \/ Automaton.alphabet (mutate m wA).2 = Automaton.alphabet wA.2.
Proof.
  destruct m as [s|s|t|i|s|]; simpl.
  - right. right. destruct wA as [w A]. unfold Automaton.addState.
    destruct (_ =? _)%nat; destruct (Automaton.isInitialAt _ _);
      try destruct (Automaton.initialState _); done.
  - right. right. apply removeState_alphabet.
  - left. eauto.
  - right. right. by destruct wA.
  - right. right. destruct wA as [w A]. unfold Automaton.setInitialState.
    cbv zeta. by destruct (Automaton.resolve _ _ _).
  - right. left. by destruct wA.
Qed.

Lemma mutate_alphabetClean m wA :
  alphabetClean wA.2 -> alphabetClean (mutate m wA).2.
Proof.
  intros (Heps & Hempty & Hnd).
  destruct (mutate_alphabet m wA) as [[t ->]|[[-> Hal]|Hal]].
  - simpl. unfold alphabetClean. rewrite !addTransition_alphabet.
    split_and!; [tauto|tauto|].
    destruct wA as [w A]. unfold Automaton.addTransition. cbn.
    by apply addTransition_alphabet_fold.
  - unfold alphabetClean. rewrite Hal. rewrite !elem_of_nil.
    split_and!; [tauto|tauto|apply NoDup_nil_2].
  - unfold alphabetClean. by rewrite Hal.
Qed.

Lemma mutateAll_alphabetClean ms wA :
  alphabetClean wA.2 -> alphabetClean (mutateAll ms wA).2.
Proof.
  unfold mutateAll. revert wA. induction ms as [|m ms IH]; intros wA H; simpl.
  - done.
  - apply IH. by apply mutate_alphabetClean.
Qed.

(** X8.  Whatever edits are made to a new automaton, its alphabet never holds
    ['ε'] or the empty string, and holds no symbol twice. *)
Theorem alphabet_stays_clean (ms : list mutation) (w : world) (type : string) :
  let A := (mutateAll ms (w, Automaton.new type)).2 in
  ("ε" ∉ Automaton.alphabet A)
  /\ (EmptyString ∉ Automaton.alphabet A)
  /\ NoDup (Automaton.alphabet A).
Proof.
  apply (mutateAll_alphabetClean ms (w, Automaton.new type)).
  unfold alphabetClean. simpl. rewrite !elem_of_nil.
  split_and!; [tauto|tauto|apply NoDup_nil_2].
Qed.

Lemma mutate_alphabet_grows m wA s :
  m <> Clear ->
  s ∈ Automaton.alphabet wA.2 -> s ∈ Automaton.alphabet (mutate m wA).2.
Proof.
  intros Hm Hs.
  destruct (mutate_alphabet m wA) as [[t ->]|[[-> Hal]|Hal]]; [|done|].
  - simpl. apply addTransition_alphabet. by left.
  - by rewrite Hal.
Qed.

(** X9.  The symbols of a transition stay in the alphabet once it was added,
    whatever edits follow short of [clear] -- also when the transition
    itself, or the states it joins, are removed. *)
Theorem alphabet_keeps_removed_symbols
    (t : Transition.t) (ms : list mutation) (wA : world * Automaton.t)
    (s : string) :
  s ∈ Transition.symbols t -> s <> EmptyString -> s <> "ε" ->
  Clear ∉ ms ->
  s ∈ Automaton.alphabet (mutateAll (AddTransition t :: ms) wA).2.
Proof.
  intros Hs Hne Heps Hclear. unfold mutateAll. cbn [foldl mutate].
  assert (H0 : s ∈ Automaton.alphabet (Automaton.addTransition t wA).2).
  { apply addTransition_alphabet. by right. }
  revert H0. generalize (Automaton.addTransition t wA). clear wA.
  induction ms as [|m ms IH]; intros wA H0; simpl; [done|].
  apply IH.
  - intros Hin. apply Hclear. by apply list_elem_of_further.
  - apply mutate_alphabet_grows; [|done].
    intros ->. apply Hclear. apply list_elem_of_here.
Qed.

Lemma alphabet_keeps_removed_symbols_witness :
  "a" ∈ Automaton.alphabet
          (mutateAll [AddTransition a_star_transition; RemoveTransition 0;
                      RemoveState (Id 0)]
             (mkWorld a_star_heap 1 0, Automaton.new "dfa")).2.
Proof.
  apply (alphabet_keeps_removed_symbols a_star_transition
           [RemoveTransition 0; RemoveState (Id 0)]
           (mkWorld a_star_heap 1 0, Automaton.new "dfa") "a").
  - apply list_elem_of_here.
  - discriminate.
  - discriminate.
  - intros H. repeat (apply elem_of_cons in H as [H|H]; [discriminate|]).
    by apply elem_of_nil in H.
Defined.

(** ** Undo history *)

Lemma slice0_take {A} (e : Z) (arr : list A) :
  0 <= e -> JS.slice0 e arr = take (Z.to_nat e) arr.
Proof.
  intros He. unfold JS.slice0.
  destruct (e <? 0) eqn:E; [apply Z.ltb_lt in E; lia|done].
Qed.

(** What [saveToHistory] leaves: the snapshot of the automaton as the
    last entry, [historyIndex] on it, and at most [maxHistory] entries. *)
Lemma saveToHistory_spec (w : world) (E : History.t) :
  historyOk E ->
  let E' := (History.saveToHistory (w, E)).2 in
  (History.saveToHistory (w, E)).1 = w
  /\ History.machine E' = History.machine E
  /\ historyOk E'
  /\ History.historyIndex E' = Z.of_nat (length (History.history E')) - 1
  /\ Z.of_nat (length (History.history E'))
     = Z.min (History.historyIndex E + 2) History.maxHistory
  /\ last (History.history E')
     = Some (JSON.ofAutomaton (objs w) (History.machine E))
  /\ (0 <= History.historyIndex E ->
      History.history E' !! Z.to_nat (History.historyIndex E' - 1)
      = History.history E !! Z.to_nat (History.historyIndex E)).
Proof.
  intros [Hlen Hidx]. unfold History.saveToHistory, historyOk, History.maxHistory in *.
  cbn [snd fst].
  set (snapshot := JSON.ofAutomaton (objs w) (History.machine E)).
  set (hist := if History.historyIndex E <? _ then _ else _).
  assert (Hhist : hist = take (Z.to_nat (History.historyIndex E + 1)) (History.history E)).
  { unfold hist. destruct (_ <? _) eqn:E1.
    - apply slice0_take. lia.
    - apply Z.ltb_ge in E1. rewrite take_ge; [done|lia]. }
  assert (Hhl : length hist = Z.to_nat (History.historyIndex E + 1)).
  { rewrite Hhist, length_take. lia. }
  clearbody hist.
  destruct (50 <? _) eqn:E2; cbn [fst snd History.machine History.history
    History.historyIndex].
  - apply Z.ltb_lt in E2. rewrite length_app in E2. simpl in E2.
    assert (Hfull : History.historyIndex E = 49) by lia.
    destruct hist as [|j0 hist']; [simpl in Hhl; lia|]. simpl in Hhl.
    cbn [tail app]. rewrite length_app. simpl.
    split_and!; try done; try lia.
    + rewrite last_snoc. done.
    + intros _. rewrite Hfull. change (Z.to_nat (49 - 1)) with 48%nat.
      change (Z.to_nat 49) with 49%nat.
      rewrite lookup_app_l by lia.
      assert (Heq : j0 :: hist' = take (Z.to_nat (History.historyIndex E + 1))
                                    (History.history E)) by done.
      change (hist' !! 48%nat) with ((j0 :: hist') !! 49%nat).
      rewrite Heq, Hfull. apply lookup_take_lt. lia.
  - apply Z.ltb_ge in E2. rewrite length_app in *. simpl in *.
    split_and!; try done; try lia.
    + rewrite last_snoc. done.
    + intros Hge. rewrite lookup_app_l by lia.
      rewrite Hhist.
      replace (Z.to_nat (History.historyIndex E + 1 - 1))
        with (Z.to_nat (History.historyIndex E)) by lia.
      apply lookup_take_lt. lia.
Qed.

Lemma saving_spec body (w : world) (E : History.t) :
  historyOk E ->
  let wA := body (w, History.machine E) in
  let wE' := History.saving body (w, E) in
  wE'.1 = wA.1
  /\ History.machine wE'.2 = wA.2
  /\ historyOk wE'.2
  /\ History.historyIndex wE'.2
     = Z.of_nat (length (History.history wE'.2)) - 1
  /\ Z.of_nat (length (History.history wE'.2))
     = Z.min (History.historyIndex E + 2) History.maxHistory
  /\ last (History.history wE'.2) = Some (JSON.ofAutomaton (objs wA.1) wA.2)
  /\ (0 <= History.historyIndex E ->
      History.history wE'.2 !! Z.to_nat (History.historyIndex wE'.2 - 1)
      = History.history E !! Z.to_nat (History.historyIndex E)).
Proof.
  intros Hok. unfold History.saving. cbv zeta.
  destruct (body (w, History.machine E)) as [w1 A1]. cbn [fst snd].
  pose proof (saveToHistory_spec w1 (History.set_machine A1 E)) as Hs.
  apply Hs. done.
Qed.

Lemma record_saving m wE :
  record m wE = History.saving (mutate m) wE.
Proof. by destruct m. Qed.

Lemma record_spec m (wE : world * History.t) :
  historyOk wE.2 ->
  let wA := mutate m (wE.1, History.machine wE.2) in
  let wE' := record m wE in
  wE'.1 = wA.1
  /\ History.machine wE'.2 = wA.2
  /\ historyOk wE'.2
  /\ History.historyIndex wE'.2
     = Z.of_nat (length (History.history wE'.2)) - 1
  /\ Z.of_nat (length (History.history wE'.2))
     = Z.min (History.historyIndex wE.2 + 2) History.maxHistory
  /\ last (History.history wE'.2) = Some (JSON.ofAutomaton (objs wA.1) wA.2)
  /\ (0 <= History.historyIndex wE.2 ->
      History.history wE'.2 !! Z.to_nat (History.historyIndex wE'.2 - 1)
      = History.history wE.2 !! Z.to_nat (History.historyIndex wE.2)).
Proof.
  intros Hok. rewrite record_saving. destruct wE as [w E].
  apply saving_spec. done.
Qed.

Lemma reload_spec idx (wE : world * History.t) :
  0 <= idx < Z.of_nat (length (History.history wE.2)) ->
  exists json,
    History.history wE.2 !! Z.to_nat idx = Some json
    /\ History.reload idx wE
       = Some ((JSON.loadAutomaton json (wE.1, History.machine wE.2)).1,
               History.mk (JSON.loadAutomaton json (wE.1, History.machine wE.2)).2
                 (History.history wE.2) idx).
Proof.
  intros Hidx. destruct wE as [w E]. unfold History.reload. cbn [fst snd] in *.
  destruct (idx <? 0) eqn:E1; [apply Z.ltb_lt in E1; lia|].
  destruct (lookup_lt_is_Some_2 (History.history E) (Z.to_nat idx)) as [json Hj];
    [lia|].
  exists json. rewrite Hj. split; [done|].
  by destruct (JSON.loadAutomaton _ _).
Qed.

Lemma perform_historyOk r wE :
  historyOk wE.2 -> exists wE', perform r wE = Some wE' /\ historyOk wE'.2.
Proof.
  intros Hok. destruct r as [m| |]; simpl.
  - eexists. split; [done|]. by apply record_spec.
  - unfold History.undo. destruct (0 <? _) eqn:E1.
    + apply Z.ltb_lt in E1. destruct Hok as [Hlen Hidx].
      destruct (reload_spec (History.historyIndex wE.2 - 1) wE) as (j & _ & ->);
        [lia|].
      simpl. eexists. split; [done|]. split; simpl; lia.
    + simpl. eauto.
  - unfold History.redo. destruct (_ <? _) eqn:E1.
    + apply Z.ltb_lt in E1. destruct Hok as [Hlen Hidx].
      destruct (reload_spec (History.historyIndex wE.2 + 1) wE) as (j & _ & ->);
        [lia|].
      simpl. eexists. split; [done|]. split; simpl; lia.
    + simpl. eauto.
Qed.

Lemma performAll_historyOk rs wE :
  historyOk wE.2 -> exists wE', performAll rs wE = Some wE' /\ historyOk wE'.2.
Proof.
  unfold performAll. revert wE. induction rs as [|r rs IH]; intros wE Hok; simpl.
  - eauto.
  - destruct (perform_historyOk r wE Hok) as (wE1 & -> & Hok1). simpl.
    apply IH. done.
Qed.

(** X1.  Whatever the editor asks of a new automaton -- edits, undo, redo, in
    any order -- no request throws, the history never holds more than 50
    snapshots, and [historyIndex] is the index of one of them (or [-1]
    while there is none). *)
Theorem history_stays_bounded (rs : list request) (w : world) (type : string) :
  exists wE,
    performAll rs (w, History.new type) = Some wE
    /\ (length (History.history wE.2) <= 50)%nat
    /\ -1 <= History.historyIndex wE.2
       < Z.of_nat (length (History.history wE.2)).
Proof.
  destruct (performAll_historyOk rs (w, History.new type)) as (wE & H & Hlen & Hidx).
  { split; simpl; unfold History.maxHistory; lia. }
  exists wE. unfold History.maxHistory in Hlen. split_and!; [done|lia|lia..].
Qed.

(** X2.  The first edit of a new automaton cannot be undone: the constructor
    saves no snapshot, so the snapshot of the first edit is entry [0], and
    [undo] returns [false] and changes nothing. *)
Theorem undo_refused_after_first_edit (m : mutation) (w : world) (type : string) :
  History.undo (record m (w, History.new type))
  = Some (record m (w, History.new type), false).
Proof.
  assert (Hok : historyOk (w, History.new type).2).
  { split; simpl; unfold History.maxHistory; lia. }
  destruct (record_spec m (w, History.new type) Hok)
    as (_ & _ & _ & Hidx & Hlen & _).
  cbn [snd History.new History.historyIndex] in Hlen.
  unfold History.maxHistory in Hlen.
  unfold History.undo.
  destruct (0 <? _) eqn:E1; [apply Z.ltb_lt in E1; lia|done].
Qed.

(** X3.  After an edit there is nothing to redo, also when the edit follows an
    undo: [redo] returns [false] and changes nothing. *)
Theorem redo_refused_after_edit
    (rs : list request) (m : mutation) (w : world) (type : string)
    (wE : world * History.t) :
  performAll rs (w, History.new type) = Some wE ->
  History.redo (record m wE) = Some (record m wE, false).
Proof.
  intros Hrs.
  destruct (performAll_historyOk rs (w, History.new type)) as (wE' & H & Hok).
  { split; simpl; unfold History.maxHistory; lia. }
  rewrite Hrs in H. injection H as <-.
  destruct (record_spec m wE Hok) as (_ & _ & _ & Hidx & _).
  unfold History.redo.
  destruct (_ <? _) eqn:E1; [apply Z.ltb_lt in E1; lia|done].
Qed.

Lemma redo_refused_after_edit_witness :
  History.redo (record (SetInitialState (Id 0)) undone_clear)
  = Some (record (SetInitialState (Id 0)) undone_clear, false).
Proof.
  apply (redo_refused_after_edit [Edit (AddState 0%nat); Edit Clear; Undo]
           (SetInitialState (Id 0)) q0_world "dfa").
  vm_compute. reflexivity.
Defined.

Lemma last_lookup_Z {A} (l : list A) (x : A) (i : Z) :
  last l = Some x -> i = Z.of_nat (length l) - 1 -> l !! Z.to_nat i = Some x.
Proof.
  intros Hlast ->. rewrite last_lookup in Hlast.
  replace (Z.to_nat (Z.of_nat (length l) - 1)) with (pred (length l)) by lia.
  done.
Qed.

(** X4.  [undo] after two edits brings back the automaton as it was after the
    first of them: it returns [true], and what it has loaded is written by
    [toJSON] as the automaton was after the first edit, provided that
    automaton is one that the structured round trip preserves. *)
Theorem undo_restores_previous_edit
    (m1 m2 : mutation) (wE0 : world * History.t) :
  historyOk wE0.2 ->
  roundTrips (objs (record m1 wE0).1) (History.machine (record m1 wE0).2) ->
  exists wE3,
    History.undo (record m2 (record m1 wE0)) = Some (wE3, true)
    /\ JSON.ofAutomaton (objs wE3.1) (History.machine wE3.2)
       = JSON.ofAutomaton (objs (record m1 wE0).1)
           (History.machine (record m1 wE0).2).
Proof.
  intros Hok0 Hrt.
  destruct (record_spec m1 wE0 Hok0) as (Hw1 & HA1 & Hok1 & Hidx1 & Hlen1 & Hlast1 & _).
  rewrite <- Hw1, <- HA1 in Hlast1.
  set (wE1 := record m1 wE0) in *. clearbody wE1.
  destruct (record_spec m2 wE1 Hok1) as (_ & _ & Hok2 & Hidx2 & Hlen2 & _ & Hprev).
  set (wE2 := record m2 wE1) in *. clearbody wE2.
  destruct Hok0 as [_ Hidx0]. unfold History.maxHistory in *.
  unfold History.undo.
  destruct (0 <? _) eqn:E1; [|apply Z.ltb_ge in E1; lia].
  destruct (reload_spec (History.historyIndex wE2.2 - 1) wE2) as (json & Hj & ->);
    [lia|].
  rewrite Hprev in Hj by lia.
  rewrite (last_lookup_Z _ _ _ Hlast1 Hidx1) in Hj. injection Hj as <-.
  cbn [mbind option_bind]. eexists. split; [reflexivity|].
  cbn [fst snd History.machine].
  by apply roundtrip_wellformed.
Qed.

(** X5.  [redo] after [undo] brings the undone edit back: both return [true],
    and what [redo] has loaded is written by [toJSON] as the automaton was
    after the edit -- provided there was a snapshot to go back to, and the
    edited automaton is one that the structured round trip preserves. *)
Theorem redo_after_undo_restores_edit (m : mutation) (wE0 : world * History.t) :
  historyOk wE0.2 ->
  0 <= History.historyIndex wE0.2 ->
  roundTrips (objs (record m wE0).1) (History.machine (record m wE0).2) ->
  exists wEu wEr,
    History.undo (record m wE0) = Some (wEu, true)
    /\ History.redo wEu = Some (wEr, true)
    /\ JSON.ofAutomaton (objs wEr.1) (History.machine wEr.2)
       = JSON.ofAutomaton (objs (record m wE0).1)
           (History.machine (record m wE0).2).
Proof.
  intros Hok0 Hidx0 Hrt.
  destruct (record_spec m wE0 Hok0) as (Hw1 & HA1 & Hok1 & Hidx1 & Hlen1 & Hlast1 & _).
  rewrite <- Hw1, <- HA1 in Hlast1.
  set (wE1 := record m wE0) in *. clearbody wE1.
  unfold History.maxHistory in *.
  unfold History.undo.
  destruct (0 <? _) eqn:E1; [|apply Z.ltb_ge in E1; lia].
  destruct (reload_spec (History.historyIndex wE1.2 - 1) wE1) as (json & Hj & ->);
    [lia|].
  set (loaded := JSON.loadAutomaton json _). clearbody loaded.
  cbn [mbind option_bind].
  pose (wEu := (loaded.1, History.mk loaded.2 (History.history wE1.2)
                            (History.historyIndex wE1.2 - 1))).
  destruct (reload_spec (History.historyIndex wE1.2) wEu) as (json' & Hj' & Hre).
  { unfold wEu. cbn [fst snd History.history]. lia. }
  unfold wEu in Hj'. cbn [fst snd History.history] in Hj'.
  rewrite (last_lookup_Z _ _ _ Hlast1 Hidx1) in Hj'. injection Hj' as <-.
  exists wEu. eexists. split; [reflexivity|]. split.
  - unfold History.redo.
    replace (History.historyIndex wEu.2 + 1)
      with (History.historyIndex wE1.2) by (unfold wEu; simpl; lia).
    rewrite Hre.
    destruct (History.historyIndex wEu.2 <? _) eqn:E2; [reflexivity|].
    apply Z.ltb_ge in E2. unfold wEu in E2. simpl in E2. lia.
  - cbn [fst snd History.machine]. by apply roundtrip_wellformed.
Qed.

Lemma roundTrips_one_state (s : State.t) (A : Automaton.t) :
  Automaton.type A <> EmptyString ->
  State.name s <> EmptyString -> State.x s <> 0 -> State.y s <> 0 ->
  Automaton.states A = [0%nat] ->
  Automaton.transitions A = [] ->
  Automaton.alphabet A = [] ->
  Automaton.initialState A = Some 0%nat ->
  roundTrips [s] A.
Proof.
  intros Hty Hn Hx Hy Hss Hts Hal Hini. constructor.
  - done.
  - rewrite Hss. intros l s' ->%list_elem_of_singleton [= <-]. done.
  - rewrite Hts. intros t i Ht. by apply elem_of_nil in Ht.
  - rewrite Hts. intros t Ht. by apply elem_of_nil in Ht.
  - rewrite Hini, Hss. simpl. exists 0%nat.
    split; [apply list_elem_of_singleton|]; done.
  - rewrite Hal. apply NoDup_nil_2.
Qed.

Lemma undo_restores_previous_edit_witness :
  exists wE3,
    History.undo
      (record Clear (record (AddState 0%nat) (q0_world, History.new "dfa")))
    = Some (wE3, true)
    /\ JSON.ofAutomaton (objs wE3.1) (History.machine wE3.2)
       = JSON.ofAutomaton
           (objs (record (AddState 0%nat) (q0_world, History.new "dfa")).1)
           (History.machine
              (record (AddState 0%nat) (q0_world, History.new "dfa")).2).
Proof.
  apply (undo_restores_previous_edit (AddState 0%nat) Clear
           (q0_world, History.new "dfa")).
  - split; simpl; unfold History.maxHistory; lia.
  - apply roundTrips_one_state; vm_compute; congruence.
Defined.

Lemma redo_after_undo_restores_edit_witness :
  exists wEu wEr,
    History.undo
      (record (SetInitialState (Id 0))
         (record (AddState 0%nat) (q0_world, History.new "dfa")))
    = Some (wEu, true)
    /\ History.redo wEu = Some (wEr, true)
    /\ JSON.ofAutomaton (objs wEr.1) (History.machine wEr.2)
       = JSON.ofAutomaton
           (objs (record (SetInitialState (Id 0))
                    (record (AddState 0%nat) (q0_world, History.new "dfa"))).1)
           (History.machine
              (record (SetInitialState (Id 0))
                 (record (AddState 0%nat) (q0_world, History.new "dfa"))).2).
Proof.
  apply (redo_after_undo_restores_edit (SetInitialState (Id 0))
           (record (AddState 0%nat) (q0_world, History.new "dfa"))).
  - split; simpl; unfold History.maxHistory; lia.
  - simpl. lia.
  - apply roundTrips_one_state; vm_compute; congruence.
Defined.

(** ** Reloading: id counters, [toNFA] *)

Lemma maximum_ge (d x : Z) (l : list Z) : x ∈ l -> x <= JSON.maximum d l.
Proof.
  destruct l as [|a l]; [by intros ?%elem_of_nil|]. simpl.
  assert (Hgen : forall l acc, x <= acc \/ x ∈ l -> x <= foldl Z.max acc l).
  { clear. induction l as [|b l IH]; intros acc; simpl.
    - intros [?|?%elem_of_nil]; done.
    - intros [?|[->|?]%elem_of_cons]; apply IH; [left|left|right]; try done; lia. }
  intros [->|Hx]%elem_of_cons; apply Hgen; [left; lia|by right].
Qed.

(** X10.  After [loadFromJSON] the static counters lie above every id that was
    loaded: the next state made by [new State()] and the next transition
    made by [new Transition()] get an id that no loaded state, and no
    loaded transition, has. *)
Theorem loadFromJSON_leaves_fresh_ids
    (json : JSON.automaton) (w : world) (A0 : Automaton.t) :
  let wA := JSON.loadAutomaton json (w, A0) in
  (forall l i, l ∈ Automaton.states wA.2 ->
               Automaton.idAt (objs wA.1) l = Some i ->
               i < State_nextId wA.1)
  /\ (forall t, t ∈ Automaton.transitions wA.2 ->
                Transition.id t < Transition_nextId wA.1).
Proof.
  unfold JSON.loadAutomaton. cbv zeta.
  destruct (JSON.loadStates _ _) as [states w1].
  destruct (JSON.loadTransitions _ _ _) as [transitions w2].
  cbn [fst snd]. rewrite objs_updateIdCounters.
  set (A1 := Automaton.set_initialState _ _).
  assert (Hs : Automaton.states A1 = states) by done.
  assert (Ht : Automaton.transitions A1 = transitions) by done.
  assert (Hs' : forall B, Automaton.states (Automaton.resetSimulation B)
                          = Automaton.states B) by (by intros []).
  assert (Ht' : forall B, Automaton.transitions (Automaton.resetSimulation B)
                          = Automaton.transitions B) by (by intros []).
  rewrite Hs', Ht', Hs, Ht. clearbody A1.
  unfold JSON.updateIdCounters. rewrite Hs, Ht. split.
  - intros l i Hl Hid.
    assert (Hin : i ∈ omap (Automaton.idAt (objs w2)) states).
    { apply list_elem_of_omap. by exists l. }
    destruct states as [|s0 states']; [by apply elem_of_nil in Hl|].
    apply (maximum_ge 0) in Hin.
    destruct transitions; cbn [State_nextId objs] in *; lia.
  - intros t Hin.
    assert (Hin' : Transition.id t ∈ Transition.id <$> transitions).
    { apply list_elem_of_fmap. by exists t. }
    destruct transitions as [|t0 transitions']; [by apply elem_of_nil in Hin|].
    apply (maximum_ge 0) in Hin'.
    destruct states; cbn [Transition_nextId] in *; lia.
Qed.

(** X11.  [toNFA()] of a DFA that the structured round trip preserves: the
    result has the type ['nfa'] and is otherwise written by [toJSON] as
    the DFA is; its states are new objects, and the objects of the DFA are
    not touched. *)
Theorem toNFA_copies_automaton (w : world) (A : Automaton.t) :
  roundTrips (objs w) A ->
  let wN := JSON.toNFA w A in
  let json := JSON.ofAutomaton (objs w) A in
  JSON.ofAutomaton (objs wN.1) wN.2
  = JSON.mkAutomaton "nfa" (JSON.a_states json) (JSON.a_transitions json)
      (JSON.a_alphabet json) (JSON.a_initialStateId json)
  /\ (exists new, objs wN.1 = objs w ++ new)
  /\ forall l, l ∈ Automaton.states wN.2 -> (length (objs w) <= l)%nat.
Proof.
  intros Hrt wN json.
  pose proof (roundtrip_wellformed (objs w) A w (Automaton.new "nfa") Hrt) as Hround.
  destruct (loadAutomaton_fields (JSON.ofAutomaton (objs w) A) w
              (Automaton.new "nfa")) as (Hobjs & Hstates & _).
  unfold wN, JSON.toNFA. fold json in Hround, Hobjs, Hstates |- *.
  destruct (JSON.loadAutomaton json (w, Automaton.new "nfa")) as [w' N].
  cbn [fst snd] in *. split_and!.
  - rewrite <- Hround. by destruct N.
  - eexists. exact Hobjs.
  - intros l Hl.
    assert (Hl' : l ∈ Automaton.states N) by (by destruct N).
    rewrite Hstates in Hl'. apply elem_of_seq in Hl'. lia.
Qed.

Lemma toNFA_copies_automaton_witness :
  let w := mkWorld three_heap 3 3 in
  let wN := JSON.toNFA w abplus_dfa in
  let json := JSON.ofAutomaton (objs w) abplus_dfa in
  JSON.ofAutomaton (objs wN.1) wN.2
  = JSON.mkAutomaton "nfa" (JSON.a_states json) (JSON.a_transitions json)
      (JSON.a_alphabet json) (JSON.a_initialStateId json)
  /\ (exists new, objs wN.1 = objs w ++ new)
  /\ forall l, l ∈ Automaton.states wN.2 -> (length (objs w) <= l)%nat.
Proof.
  apply (toNFA_copies_automaton (mkWorld three_heap 3 3) abplus_dfa).
  constructor; cbn.
  - done.
  - intros l s Hl Hs. rewrite !elem_of_cons, elem_of_nil in Hl.
    destruct Hl as [->|[->|[->|[]]]]; injection Hs as <-; done.
  - intros t i Ht Hi. rewrite !elem_of_cons, elem_of_nil in Ht.
    destruct Ht as [->|[->|[->|[]]]]; destruct Hi as [[= <-]|[= <-]];
      match goal with |- exists l, _ /\ _ = Some ?i =>
        exists (Z.to_nat i) end;
      (split; [vm_compute Z.to_nat; rewrite !elem_of_cons; tauto|reflexivity]).
  - intros t Ht. rewrite !elem_of_cons, elem_of_nil in Ht.
    destruct Ht as [->|[->|[->|[]]]]; done.
  - exists 0%nat. split; [left|done].
  - apply (bool_decide_unpack _). by vm_compute.
Defined.

(** ** Reachable states of a DFA *)

Lemma filter_notin_snoc_le {A} `{EqDecision A} (T c : list A) (r : A) :
  (length (List.filter (fun x => negb (bool_decide (x ∈ c ++ [r]))) T)
   <= length (List.filter (fun x => negb (bool_decide (x ∈ c))) T))%nat.
Proof.
  induction T as [|a T IH]; simpl; [lia|].
  destruct (bool_decide (a ∈ c)) eqn:Hc; simpl.
  - rewrite bool_decide_eq_true_2; [done|].
    apply bool_decide_eq_true in Hc. apply elem_of_app. by left.
  - destruct (bool_decide (a ∈ c ++ [r])); simpl; lia.
Qed.

Lemma filter_notin_snoc_lt {A} `{EqDecision A} (T c : list A) (r : A) :
  r ∈ T -> r ∉ c ->
  (length (List.filter (fun x => negb (bool_decide (x ∈ c ++ [r]))) T)
   < length (List.filter (fun x => negb (bool_decide (x ∈ c))) T))%nat.
Proof.
  intros Hin Hnotin.
  induction T as [|a T IH]; [by apply elem_of_nil in Hin|].
  pose proof (filter_notin_snoc_le T c r) as Hm.
  simpl. apply elem_of_cons in Hin as [<-|Hin].
  - rewrite (bool_decide_eq_false_2 (r ∈ c)) by done.
    rewrite (bool_decide_eq_true_2 (r ∈ c ++ [r])); simpl; [lia|].
    apply elem_of_app. right. by apply list_elem_of_singleton.
  - specialize (IH Hin).
    destruct (bool_decide (a ∈ c)) eqn:Hc; simpl.
    + rewrite bool_decide_eq_true_2; [done|].
      apply bool_decide_eq_true in Hc. apply elem_of_app. by left.
    + destruct (bool_decide (a ∈ c ++ [r])); simpl; lia.
Qed.

Lemma elem_of_transitionsFrom h A q t :
  t ∈ Automaton.getTransitionsFrom h A (Obj q)
  <-> t ∈ Automaton.transitions A
      /\ Transition.getFromStateId h t = Automaton.idAt h q.
Proof.
  unfold Automaton.getTransitionsFrom.
  rewrite elem_of_filter_std, bool_decide_eq_true. simpl.
  unfold Automaton.idAt. tauto.
Qed.

(** The effect of [transitions.forEach] on [reachable] and the queue. *)
Lemma reach_visit_fold h A ts rq0 :
  let rq1 := foldl (DFA.reach_visit h A) rq0 ts in
  (forall x, x ∈ rq0.1 -> x ∈ rq1.1)
  /\ (forall q, q ∈ rq0.2 -> q ∈ rq1.2)
  /\ (forall x, x ∈ rq1.1 ->
        x ∈ rq0.1
        \/ exists t r, t ∈ ts
             /\ Automaton.resolve h A (Transition.toState t) = Some r
             /\ Automaton.idAt h r = x /\ r ∈ rq1.2)
  /\ (forall q, q ∈ rq1.2 ->
        q ∈ rq0.2
        \/ (Automaton.idAt h q ∈ rq1.1
            /\ exists t, t ∈ ts
                 /\ Automaton.resolve h A (Transition.toState t) = Some q))
  /\ (forall t r, t ∈ ts ->
        Automaton.resolve h A (Transition.toState t) = Some r ->
        Automaton.idAt h r ∈ rq1.1)
  /\ ((forall t, t ∈ ts -> t ∈ Automaton.transitions A) ->
      (length rq1.2 + pendingIds h A rq1.1
       <= length rq0.2 + pendingIds h A rq0.1)%nat).
Proof.
  revert rq0. induction ts as [|t ts IH]; intros rq0; simpl.
  { split_and!; try tauto.
    - intros t r Ht. by apply elem_of_nil in Ht.
    - intros _. lia. }
  destruct (IH (DFA.reach_visit h A rq0 t))
    as (Hmono & Hqueue & Hnew & Hpushed & Hall & Hmeasure).
  assert (Hv : (DFA.reach_visit h A rq0 t = rq0
                /\ forall r, Automaton.resolve h A (Transition.toState t) = Some r ->
                             Automaton.idAt h r ∈ rq0.1)
               \/ exists r, Automaton.resolve h A (Transition.toState t) = Some r
                            /\ (Automaton.idAt h r ∉ rq0.1)
                            /\ DFA.reach_visit h A rq0 t
                               = (rq0.1 ++ [Automaton.idAt h r], rq0.2 ++ [r])).
  { unfold DFA.reach_visit.
    destruct (Automaton.resolve h A (Transition.toState t)) as [r|]; [|by left].
    case_bool_decide as Hr.
    - left. split; [done|]. by intros ? [= <-].
    - right. exists r. done. }
  destruct Hv as [[Hsame Hin]|(r & Hres & Hnotin & Hadd)].
  - rewrite Hsame in *. split_and!; try done.
    + intros x Hx. destruct (Hnew x Hx) as [?|(t' & r' & Ht' & ?)]; [by left|].
      right. exists t', r'. split; [by right|done].
    + intros q Hq. destruct (Hpushed q Hq) as [?|(? & t' & Ht' & ?)]; [by left|].
      right. split; [done|]. exists t'. split; [by right|done].
    + intros t' r' [->|Ht']%elem_of_cons Hres'; [|by eapply Hall].
      apply Hmono. by apply Hin.
    + intros Hsub. apply Hmeasure. intros t' Ht'. apply Hsub. by right.
  - rewrite Hadd in *. simpl in *. split_and!.
    + intros x Hx. apply Hmono, elem_of_app. by left.
    + intros q Hq. apply Hqueue, elem_of_app. by left.
    + intros x Hx. destruct (Hnew x Hx) as [Hx0|(t' & r' & Ht' & ?)].
      * apply elem_of_app in Hx0 as [Hold|Hxr]; [by left|].
        apply list_elem_of_singleton in Hxr as ->.
        right. exists t, r. split_and!; [left|done|done|].
        apply Hqueue, elem_of_app. right. by apply list_elem_of_singleton.
      * right. exists t', r'. split; [by right|done].
    + intros q Hq. destruct (Hpushed q Hq) as [[Hold|Hqr]%elem_of_app|(? & t' & Ht' & ?)].
      * by left.
      * apply list_elem_of_singleton in Hqr as ->. right. split.
        -- apply Hmono, elem_of_app. right. by apply list_elem_of_singleton.
        -- exists t. split; [left|done].
      * right. split; [done|]. exists t'. split; [by right|done].
    + intros t' r' [->|Ht']%elem_of_cons Hres'; [|by eapply Hall].
      rewrite Hres in Hres'. injection Hres' as <-.
      apply Hmono, elem_of_app. right. by apply list_elem_of_singleton.
    + intros Hsub.
      assert (Hr : Automaton.idAt h r ∈ targetIds h A).
      { unfold targetIds. apply list_elem_of_omap. exists t.
        split; [apply Hsub; left|]. by rewrite Hres. }
      pose proof (filter_notin_snoc_lt (targetIds h A) rq0.1 _ Hr Hnotin) as Hlt.
      assert (Hm : (length (foldl (DFA.reach_visit h A)
                              (rq0.1 ++ [Automaton.idAt h r], rq0.2 ++ [r]) ts).2
                    + pendingIds h A
                        (foldl (DFA.reach_visit h A)
                           (rq0.1 ++ [Automaton.idAt h r], rq0.2 ++ [r]) ts).1
                    <= length (rq0.2 ++ [r])
                       + pendingIds h A (rq0.1 ++ [Automaton.idAt h r]))%nat).
      { apply Hmeasure. intros t' Ht'. apply Hsub. by right. }
      rewrite length_app in Hm. simpl in Hm. unfold pendingIds in *. lia.
Qed.

Lemma transitionEdge_id h A q q' r :
  Automaton.idAt h q = Automaton.idAt h q' ->
  transitionEdge h A q r -> transitionEdge h A q' r.
Proof. intros Hid (t & Ht & Hfrom & Hres). exists t. by rewrite <- Hid. Qed.

Lemma reach_body_inv h A i0 rq :
  reachInv h A i0 rq -> reachInv h A i0 (DFA.reach_body h A rq).
Proof.
  intros [Hini Hsound Hq Hwork]. unfold DFA.reach_body.
  destruct rq as [reachable queue]. simpl in *.
  destruct queue as [|c queue]; [by constructor|].
  destruct (reach_visit_fold h A (Automaton.getTransitionsFrom h A (Obj c))
              (reachable, queue))
    as (Hmono & Hqueue & Hnew & Hpushed & Hall & _).
  simpl in *.
  destruct (Hq c ltac:(left)) as [Hc Hcin].
  constructor; simpl.
  - auto.
  - intros x Hx. destruct (Hnew x Hx) as [Hold|(t & r & Ht & Hres & Hid & _)]; [auto|].
    exists r. split; [|done]. eapply rtc_r; [exact Hc|].
    apply elem_of_transitionsFrom in Ht as [Ht Hfrom]. by exists t.
  - intros q Hqin. destruct (Hpushed q Hqin) as [Hold|(Hid & t & Ht & Hres)].
    + destruct (Hq q ltac:(by right)) as [? ?]. auto.
    + split; [|done]. eapply rtc_r; [exact Hc|].
      apply elem_of_transitionsFrom in Ht as [Ht Hfrom]. by exists t.
  - intros q Hqid. destruct (Hnew _ Hqid) as [Hold|(t & r & Ht & Hres & Hid & Hr)].
    + destruct (Hwork q Hold) as [(q' & [->|Hq']%elem_of_cons & Hid)|Hclosed].
      * right. intros r Hr. apply (transitionEdge_id h A q c r) in Hr; [|done].
        destruct Hr as (t & Ht & Hfrom & Hres).
        eapply Hall; [|done]. by apply elem_of_transitionsFrom.
      * left. exists q'. auto.
      * right. intros r Hr. auto.
    + left. exists r. done.
Qed.

Lemma reach_body_measure h A rq :
  rq.2 <> [] ->
  (length (DFA.reach_body h A rq).2 + pendingIds h A (DFA.reach_body h A rq).1
   < length rq.2 + pendingIds h A rq.1)%nat.
Proof.
  unfold DFA.reach_body. destruct rq as [reachable queue]. simpl.
  destruct queue as [|c queue]; [done|]. intros _.
  destruct (reach_visit_fold h A (Automaton.getTransitionsFrom h A (Obj c))
              (reachable, queue))
    as (_ & _ & _ & _ & _ & Hmeasure).
  simpl in *.
  assert (Hsub : forall t, t ∈ Automaton.getTransitionsFrom h A (Obj c) ->
                           t ∈ Automaton.transitions A).
  { intros t Ht. by apply elem_of_transitionsFrom in Ht as [Ht _]. }
  specialize (Hmeasure Hsub). lia.
Qed.

Lemma reach_while_inv h A i0 fuel rq :
  reachInv h A i0 rq -> reachInv h A i0 (DFA.reach_while h A fuel rq).
Proof.
  revert rq. induction fuel as [|fuel IH]; intros rq Hinv; simpl; [done|].
  destruct (rq.2) eqn:Hqueue; [done|].
  apply IH, reach_body_inv. done.
Qed.

(** With at least as much fuel as the measure, the loop has exited: the
    queue is empty. *)
Lemma reach_while_exits h A fuel rq :
  (length rq.2 + pendingIds h A rq.1 <= fuel)%nat ->
  (DFA.reach_while h A fuel rq).2 = [].
Proof.
  revert rq. induction fuel as [|fuel IH]; intros rq Hfuel; simpl.
  - destruct (rq.2); [done|simpl in Hfuel; lia].
  - destruct (rq.2) eqn:Hqueue; [done|].
    apply IH.
    pose proof (reach_body_measure h A rq) as Hm.
    rewrite Hqueue in Hm. specialize (Hm ltac:(done)). simpl in *. lia.
Qed.

(** More fuel than needed changes nothing. *)
Lemma reach_while_stable h A fuel fuel' rq :
  (DFA.reach_while h A fuel rq).2 = [] ->
  (fuel <= fuel')%nat ->
  DFA.reach_while h A fuel' rq = DFA.reach_while h A fuel rq.
Proof.
  revert fuel' rq. induction fuel as [|fuel IH]; intros fuel' rq Hdone Hle.
  - simpl in *. destruct fuel'; simpl; [done|]. by rewrite Hdone.
  - destruct fuel' as [|fuel']; [lia|]. simpl in *.
    destruct (rq.2); [done|]. apply IH; [done|lia].
Qed.

Lemma reach_fuel_enough h A :
  (length (DFA.reach_init h A).2 + pendingIds h A (DFA.reach_init h A).1
   <= DFA.reach_fuel A)%nat.
Proof.
  unfold DFA.reach_fuel, DFA.reach_init, pendingIds, targetIds.
  assert (Hp : forall R : list (option Z),
            (length (List.filter (fun x => negb (bool_decide (x ∈ R)))
                       (omap (fun t => Automaton.idAt h
                                <$> Automaton.resolve h A (Transition.toState t))
                          (Automaton.transitions A)))
             <= length (Automaton.transitions A))%nat).
  { intros R. etransitivity; [apply filter_length_le|]. apply length_omap_le. }
  destruct (Automaton.initialState A) as [i|];
    cbn [fst snd length].
  - specialize (Hp [Automaton.idAt h i]). lia.
  - specialize (Hp []). lia.
Qed.

Lemma reach_init_inv h A i0 :
  Automaton.initialState A = Some i0 ->
  reachInv h A i0 (DFA.reach_init h A).
Proof.
  intros Hini. unfold DFA.reach_init. rewrite Hini. constructor; simpl.
  - apply list_elem_of_here.
  - intros x ->%list_elem_of_singleton. by exists i0.
  - intros q ->%list_elem_of_singleton. split; [done|apply list_elem_of_here].
  - intros q Hq%list_elem_of_singleton. left. exists i0.
    split; [apply list_elem_of_here|done].
Qed.

(** The ids that [getReachableStates()] of a DFA returns. *)
Lemma DFA_reachable_ids (h : heap) (A : Automaton.t) :
  match Automaton.initialState A with
  | Some i0 =>
      forall x, x ∈ DFA.getReachableStates h A
                <-> exists r, rtc (transitionEdge h A) i0 r
                              /\ Automaton.idAt h r = x
  | None => DFA.getReachableStates h A = []
  end.
Proof.
  assert (Hexit : (DFA.reach_while h A (DFA.reach_fuel A) (DFA.reach_init h A)).2
                  = []).
  { apply reach_while_exits, reach_fuel_enough. }
  destruct (Automaton.initialState A) as [i0|] eqn:Hini.
  - pose proof (reach_while_inv h A i0 (DFA.reach_fuel A) _
                  (reach_init_inv h A i0 Hini)) as [Hi Hsound _ Hwork].
    fold (DFA.getReachableStates h A) in *.
    intros x. split; [apply Hsound|].
    intros (r & Hpath & <-).
    revert r Hpath.
    apply (rtc_ind_r
             (fun r => Automaton.idAt h r ∈ DFA.getReachableStates h A) i0);
      [done|].
    intros q r _ Hqr IH.
    destruct (Hwork q IH) as [(q' & Hq' & _)|Hclosed].
    + rewrite Hexit in Hq'. by apply elem_of_nil in Hq'.
    + by apply Hclosed.
  - unfold DFA.getReachableStates, DFA.reach_init. rewrite Hini.
    unfold DFA.reach_fuel. done.
Qed.

(** X14.  [getReachableStates()] of a DFA: its loop exits (within
    [transitions.length + 1] iterations, and more iterations change
    nothing), and the ids it returns are exactly the ids of the states
    that a path of transitions reaches from the initial state; without an
    initial state it returns no id. *)
Theorem DFA_getReachableStates_spec (h : heap) (A : Automaton.t) :
  (DFA.reach_while h A (DFA.reach_fuel A) (DFA.reach_init h A)).2 = []
  /\ (forall fuel, (DFA.reach_fuel A <= fuel)%nat ->
        (DFA.reach_while h A fuel (DFA.reach_init h A)).1
        = DFA.getReachableStates h A)
  /\ match Automaton.initialState A with
     | Some i0 =>
         forall x, x ∈ DFA.getReachableStates h A
                   <-> exists r, rtc (transitionEdge h A) i0 r
                                 /\ Automaton.idAt h r = x
     | None => DFA.getReachableStates h A = []
     end.
Proof.
  assert (Hexit : (DFA.reach_while h A (DFA.reach_fuel A) (DFA.reach_init h A)).2
                  = []).
  { apply reach_while_exits, reach_fuel_enough. }
  split_and!; [done| |apply DFA_reachable_ids].
  intros fuel Hfuel. unfold DFA.getReachableStates.
  by rewrite (reach_while_stable h A (DFA.reach_fuel A) fuel).
Qed.

(** ** What the NFA simulation computes *)

Lemma mem_epsilonClosure h A r l :
  l ∈ NFA.epsilonClosure h A [Obj r] <-> rtc (epsilonEdge h A) r l.
Proof.
  split.
  - intros Hl.
    destruct (inv_reached _ _ _ _ (epsilonClosure_inv h A [Obj r]) l Hl)
      as (s & Hs & Hpath).
    change (denoted h A [Obj r]) with [r] in Hs.
    by apply list_elem_of_singleton in Hs as ->.
  - intros Hpath.
    assert (H0 : r ∈ NFA.epsilonClosure h A [Obj r]).
    { apply epsilonClosure_extensive. change (denoted h A [Obj r]) with [r].
      apply list_elem_of_here. }
    revert l Hpath.
    apply (rtc_ind_r (fun l => l ∈ NFA.epsilonClosure h A [Obj r]) r); [done|].
    intros y z _ Hyz Hy. by eapply (epsilonClosure_closed h A [Obj r]).
Qed.

Lemma foldl_set_add_elem {A} `{EqDecision A} (xs acc : list A) (x : A) :
  x ∈ foldl (fun s y => JS.set_add y s) acc xs <-> x ∈ acc \/ x ∈ xs.
Proof.
  revert acc. induction xs as [|y xs IH]; intros acc; simpl.
  - rewrite elem_of_nil. tauto.
  - rewrite IH, elem_of_set_add, elem_of_cons. tauto.
Qed.

Lemma foldl_set_add_NoDup {A} `{EqDecision A} (xs acc : list A) :
  NoDup acc -> NoDup (foldl (fun s y => JS.set_add y s) acc xs).
Proof.
  revert acc. induction xs as [|y xs IH]; intros acc Hnd; simpl; [done|].
  apply IH. by apply NoDup_set_add.
Qed.

Lemma elem_of_closeAll h A next l :
  l ∈ NFA.closeAll h A next
  <-> exists r, r ∈ next /\ rtc (epsilonEdge h A) r l.
Proof.
  unfold NFA.closeAll.
  assert (Hgen : forall acc,
    l ∈ foldl (fun closed state =>
                 foldl (fun closed s => JS.set_add s closed) closed
                   (NFA.epsilonClosure h A [Obj state])) acc next
    <-> l ∈ acc \/ exists r, r ∈ next /\ rtc (epsilonEdge h A) r l).
  { induction next as [|r next IH]; intros acc; simpl.
    - split; [by left|]. intros [?|(r & Hr & _)]; [done|].
      by apply elem_of_nil in Hr.
    - rewrite IH, foldl_set_add_elem, mem_epsilonClosure. split.
      + intros [[?|?]|(r' & ? & ?)]; [by left| |].
        * right. exists r. split; [left|done].
        * right. exists r'. split; [by right|done].
      + intros [?|(r' & [->|?]%elem_of_cons & ?)]; [by left;left|by left;right|].
        right. by exists r'. }
  rewrite Hgen, elem_of_nil. tauto.
Qed.

Lemma NoDup_closeAll h A next : NoDup (NFA.closeAll h A next).
Proof.
  unfold NFA.closeAll.
  assert (Hgen : forall acc, NoDup acc ->
    NoDup (foldl (fun closed state =>
                    foldl (fun closed s => JS.set_add s closed) closed
                      (NFA.epsilonClosure h A [Obj state])) acc next)).
  { induction next as [|r next IH]; intros acc Hnd; simpl; [done|].
    apply IH. by apply foldl_set_add_NoDup. }
  apply Hgen, NoDup_nil_2.
Qed.

Lemma elem_of_move h A from a r :
  r ∈ (NFA.move h A from (Some a)).1
  <-> exists q, q ∈ from /\ symbolEdge h A a q r.
Proof.
  unfold NFA.move.
  set (inner := fun (acc : list loc * list Transition.t) t0 =>
                  if Transition.accepts t0 (Some a)
                  then match Automaton.resolve h A (Transition.toState t0) with
                       | Some toState => (JS.set_add toState acc.1, acc.2 ++ [t0])
                       | None => acc
                       end
                  else acc).
  assert (Hinner : forall ts acc,
    r ∈ (foldl inner acc ts).1
    <-> r ∈ acc.1
        \/ exists t, t ∈ ts /\ Transition.accepts t (Some a) = true
                     /\ Automaton.resolve h A (Transition.toState t) = Some r).
  { induction ts as [|t ts IH]; intros acc; simpl.
    - split; [by left|]. intros [?|(t & Ht & _)]; [done|].
      by apply elem_of_nil in Ht.
    - rewrite IH. unfold inner.
      destruct (Transition.accepts t (Some a)) eqn:Hacc.
      + destruct (Automaton.resolve h A (Transition.toState t)) as [r'|] eqn:Hres.
        * simpl. rewrite elem_of_set_add. split.
          -- intros [[->|?]|(t' & ? & ? & ?)].
             ++ right. exists t. split; [left|done].
             ++ by left.
             ++ right. exists t'. split; [by right|done].
          -- intros [?|(t' & [->|?]%elem_of_cons & ? & Hr)].
             ++ by left; right.
             ++ rewrite Hres in Hr. injection Hr as ->. by left; left.
             ++ right. by exists t'.
        * split.
          -- intros [?|(t' & ? & ? & ?)]; [by left|].
             right. exists t'. split; [by right|done].
          -- intros [?|(t' & [->|?]%elem_of_cons & ? & Hr)]; [by left|congruence|].
             right. by exists t'.
      + split.
        * intros [?|(t' & ? & ? & ?)]; [by left|].
          right. exists t'. split; [by right|done].
        * intros [?|(t' & [->|?]%elem_of_cons & ? & Hr)]; [by left|congruence|].
          right. by exists t'. }
  assert (Houter : forall cs acc,
    r ∈ (foldl (fun acc currentState =>
                  foldl inner acc
                    (Automaton.getTransitionsFrom h A (Obj currentState)))
           acc cs).1
    <-> r ∈ acc.1 \/ exists q, q ∈ cs /\ symbolEdge h A a q r).
  { induction cs as [|c cs IH]; intros acc; simpl.
    - split; [by left|]. intros [?|(q & Hq & _)]; [done|].
      by apply elem_of_nil in Hq.
    - rewrite IH, Hinner. split.
      + intros [[?|(t & Ht & Hacc & Hres)]|(q & ? & ?)].
        * by left.
        * right. exists c. split; [left|].
          apply elem_of_transitionsFrom in Ht as [Ht Hfrom]. by exists t.
        * right. exists q. split; [by right|done].
      + intros [?|(q & [->|?]%elem_of_cons & Hedge)].
        * by left; left.
        * left. right. destruct Hedge as (t & Ht & Hfrom & Hacc & Hres).
          exists t. split; [|done]. by apply elem_of_transitionsFrom.
        * right. by exists q. }
  rewrite Houter. simpl. rewrite elem_of_nil. tauto.
Qed.

(** The result of [NFA.step] on an input symbol, with a state active. *)
Lemma NFA_step_taken (h : heap) (A : Automaton.t) (a : string) :
  Automaton.input A !! Automaton.inputIndex A = Some a ->
  Automaton.currentStates A <> [] ->
  let next :=
    NFA.closeAll h A (NFA.move h A (Automaton.currentStates A) (Some a)).1 in
  let A1 :=
    Automaton.set_inputIndex (S (Automaton.inputIndex A))
      (Automaton.set_currentStates next A) in
  NFA.step h A
  = Some (if (length next =? 0)%nat
          then (Automaton.set_isRunning false
                  (Automaton.set_isAccepted (Some false) A1), false)
          else (A1, true)).
Proof.
  intros Hsym Hcur. unfold NFA.step.
  pose proof (lookup_lt_Some _ _ _ Hsym) as Hlt.
  replace (length (Automaton.input A) <=? Automaton.inputIndex A)%nat
    with false by (symmetry; apply Nat.leb_gt; lia).
  replace (length (Automaton.currentStates A) =? 0)%nat with false
    by (symmetry; apply Nat.eqb_neq; by destruct (Automaton.currentStates A)).
  cbn [orb]. rewrite Hsym.
  destruct (NFA.move h A (Automaton.currentStates A) (Some a))
    as [nextStates used]. cbn [fst].
  destruct A as [ty ss ts al ini cs inp idx run acc].
  cbn [Automaton.set_currentStates Automaton.set_inputIndex
       Automaton.currentStates Automaton.inputIndex].
  by destruct (length (NFA.closeAll h _ nextStates) =? 0)%nat.
Qed.

(** The states that [NFA.step] activates on the symbol [a]. *)
Lemma elem_of_step_targets (h : heap) (A : Automaton.t) (a : string) (l : loc) :
  l ∈ NFA.closeAll h A (NFA.move h A (Automaton.currentStates A) (Some a)).1
  <-> exists q r, q ∈ Automaton.currentStates A
                  /\ symbolEdge h A a q r
                  /\ rtc (epsilonEdge h A) r l.
Proof.
  rewrite elem_of_closeAll. setoid_rewrite elem_of_move. split.
  - intros (r & (q & Hq & Hedge) & Hpath). by exists q, r.
  - intros (q & r & Hq & Hedge & Hpath). exists r. split; [|done].
    by exists q.
Qed.

(** X18.  [NFA.step] on the input symbol [a]: the states that are active
    afterwards are exactly those entered from an active state by one
    transition that accepts [a], followed by any number of ε-transitions;
    they are held without duplicates.  The step consumes the symbol,
    returns whether a state is still active, and sets the verdict to
    [false] when none is. *)
Theorem NFA_step_follows_symbol_then_epsilon
    (h : heap) (A : Automaton.t) (a : string) :
  Automaton.input A !! Automaton.inputIndex A = Some a ->
  Automaton.currentStates A <> [] ->
  exists A1 b,
    NFA.step h A = Some (A1, b)
    /\ sameStructure A A1
    /\ Automaton.input A1 = Automaton.input A
    /\ Automaton.inputIndex A1 = S (Automaton.inputIndex A)
    /\ (forall l, l ∈ Automaton.currentStates A1
                  <-> exists q r, q ∈ Automaton.currentStates A
                                  /\ symbolEdge h A a q r
                                  /\ rtc (epsilonEdge h A) r l)
    /\ NoDup (Automaton.currentStates A1)
    /\ (b = true <-> Automaton.currentStates A1 <> [])
    /\ (Automaton.currentStates A1 = [] ->
        Automaton.isAccepted A1 = Some false)
    /\ (Automaton.currentStates A1 <> [] ->
        Automaton.isAccepted A1 = Automaton.isAccepted A).
Proof.
  intros Hsym Hcur. rewrite (NFA_step_taken h A a Hsym Hcur).
  pose proof (fun l => elem_of_step_targets h A a l) as Hclosed.
  pose proof (NoDup_closeAll h A
                (NFA.move h A (Automaton.currentStates A) (Some a)).1) as Hnd.
  set (next := NFA.closeAll h A _) in *. clearbody next.
  destruct A as [ty ss ts al ini cs inp idx run acc].
  cbn [Automaton.set_currentStates Automaton.set_inputIndex
       Automaton.currentStates Automaton.inputIndex Automaton.input] in *.
  destruct (length next =? 0)%nat eqn:E.
  - apply Nat.eqb_eq, nil_length_inv in E. subst next.
    eexists. eexists. split; [reflexivity|].
    cbn. split_and!; try done.
  - apply Nat.eqb_neq in E.
    assert (Hne : next <> []) by (intros ->; done).
    eexists. eexists. split; [reflexivity|].
    cbn. split_and!; try done.
Qed.

Lemma NFA_step_follows_symbol_then_epsilon_witness :
  let A := (NFA.initSimulation three_heap ["a"; "b"] astarb_nfa).1 in
  exists A1 b,
    NFA.step three_heap A = Some (A1, b)
    /\ sameStructure A A1
    /\ Automaton.input A1 = Automaton.input A
    /\ Automaton.inputIndex A1 = S (Automaton.inputIndex A)
    /\ (forall l, l ∈ Automaton.currentStates A1
                  <-> exists q r, q ∈ Automaton.currentStates A
                                  /\ symbolEdge three_heap A "a" q r
                                  /\ rtc (epsilonEdge three_heap A) r l)
    /\ NoDup (Automaton.currentStates A1)
    /\ (b = true <-> Automaton.currentStates A1 <> [])
    /\ (Automaton.currentStates A1 = [] ->
        Automaton.isAccepted A1 = Some false)
    /\ (Automaton.currentStates A1 <> [] ->
        Automaton.isAccepted A1 = Automaton.isAccepted A).
Proof.
  apply (NFA_step_follows_symbol_then_epsilon three_heap
           (NFA.initSimulation three_heap ["a"; "b"] astarb_nfa).1 "a").
  - reflexivity.
  - vm_compute. discriminate.
Defined.

Lemma sameStructure_refl A : sameStructure A A.
Proof. done. Qed.

Lemma sameStructure_trans A B C :
  sameStructure A B -> sameStructure B C -> sameStructure A C.
Proof. intros (? & ? & ?) (? & ? & ?). split_and!; congruence. Qed.

Lemma sameStructure_resolve h A B v :
  sameStructure A B -> Automaton.resolve h B v = Automaton.resolve h A v.
Proof.
  intros (Hs & _ & _). destruct v; [done| |done].
  unfold Automaton.resolve, Automaton.getState. by rewrite Hs.
Qed.

Lemma sameStructure_epsilonEdge h A B q r :
  sameStructure A B -> epsilonEdge h B q r <-> epsilonEdge h A q r.
Proof.
  intros Hsame. pose proof Hsame as (_ & Ht & _). unfold epsilonEdge.
  rewrite Ht. setoid_rewrite (sameStructure_resolve h A B _ Hsame). done.
Qed.

Lemma sameStructure_symbolEdge h A B a q r :
  sameStructure A B -> symbolEdge h B a q r <-> symbolEdge h A a q r.
Proof.
  intros Hsame. pose proof Hsame as (_ & Ht & _). unfold symbolEdge.
  rewrite Ht. setoid_rewrite (sameStructure_resolve h A B _ Hsame). done.
Qed.

Lemma sameStructure_rtc h A B q r :
  sameStructure A B ->
  rtc (epsilonEdge h B) q r <-> rtc (epsilonEdge h A) q r.
Proof.
  intros Hsame. split; apply rtc_subrel; intros x y Hxy;
    by apply (sameStructure_epsilonEdge h A B x y Hsame).
Qed.

Lemma reads_rtc h A q0 w q r :
  reads h A q0 w q -> rtc (epsilonEdge h A) q r -> reads h A q0 w r.
Proof.
  intros Hq Hpath. induction Hpath as [|x y z Hxy Hyz IH]; [done|].
  apply IH. by eapply reads_epsilon.
Qed.

Lemma reads_nil h A q0 l :
  reads h A q0 [] l <-> rtc (epsilonEdge h A) q0 l.
Proof.
  split.
  - intros H. remember [] as w eqn:Hw.
    induction H as [|w q r Hq IH Hedge|w a q r Hq IH Hedge].
    + done.
    + eapply rtc_r; [by apply IH|done].
    + by destruct w.
  - intros Hpath. eapply reads_rtc; [apply reads_start|done].
Qed.

Lemma reads_snoc h A q0 w a l :
  reads h A q0 (w ++ [a]) l
  <-> exists q r, reads h A q0 w q /\ symbolEdge h A a q r
                  /\ rtc (epsilonEdge h A) r l.
Proof.
  split.
  - intros H. remember (w ++ [a]) as w' eqn:Hw'.
    induction H as [|w1 q r Hq IH Hedge|w1 a1 q r Hq IH Hedge].
    + by destruct w.
    + destruct (IH Hw') as (q' & r' & Hq' & Hsym & Hpath).
      exists q', r'. split_and!; [done..|]. by eapply rtc_r.
    + apply app_inj_tail in Hw' as [-> ->]. by exists q, r.
  - intros (q & r & Hq & Hsym & Hpath).
    eapply reads_rtc; [|done]. by eapply reads_symbol.
Qed.

Lemma reads_prefix h A q0 w l k :
  reads h A q0 w l -> exists l', reads h A q0 (take k w) l'.
Proof.
  intros H. induction H as [|w q r Hq IH Hedge|w a q r Hq IH Hedge].
  - exists q0. rewrite take_nil. apply reads_start.
  - done.
  - destruct (decide (k <= length w)%nat) as [Hle|Hgt].
    + by rewrite take_app_le.
    + rewrite take_ge by (rewrite length_app; simpl; lia).
      exists r. by eapply reads_symbol.
Qed.

Lemma NFA_initSimulation_simulates h A inp :
  simulates h A inp 0 (NFA.initSimulation h inp A).1.
Proof.
  unfold NFA.initSimulation. cbv zeta.
  set (A0 := Automaton.set_currentStates [] _).
  assert (Hsame : sameStructure A A0) by (by destruct A).
  assert (Hinp : Automaton.input A0 = inp) by (by destruct A).
  assert (Hidx : Automaton.inputIndex A0 = 0%nat) by (by destruct A).
  assert (Hini : Automaton.initialState A0 = Automaton.initialState A)
    by (by destruct A).
  assert (Hcur : Automaton.currentStates A0 = []) by (by destruct A).
  clearbody A0. rewrite Hini.
  destruct (Automaton.initialState A) as [i0|] eqn:Hi.
  - cbn [fst]. constructor.
    + destruct A0; apply Hsame.
    + by destruct A0.
    + by destruct A0.
    + lia.
    + intros l.
      assert (Hc : Automaton.currentStates
                (Automaton.set_currentStates
                   (foldl (fun cur s => JS.set_add s cur)
                      (Automaton.currentStates A0)
                      (NFA.epsilonClosure h A0 [Obj i0])) A0)
              = foldl (fun cur s => JS.set_add s cur) []
                  (NFA.epsilonClosure h A0 [Obj i0])).
      { rewrite Hcur. by destruct A0. }
      rewrite Hc, foldl_set_add_elem, elem_of_nil, mem_epsilonClosure.
      rewrite (sameStructure_rtc h A A0) by done.
      unfold activeAfter. rewrite take_0. split.
      * intros [[]|Hpath]. exists i0. split; [done|]. by apply reads_nil.
      * intros (i & Hi' & Hreads). rewrite Hi in Hi'. injection Hi' as <-.
        right. by apply reads_nil.
  - cbn [fst]. constructor; try done.
    + lia.
    + intros l. rewrite Hcur, elem_of_nil. split; [done|].
      intros (i & Hi' & _). congruence.
Qed.

Lemma NFA_step_simulates h A inp k B :
  simulates h A inp k B -> (k < length inp)%nat ->
  Automaton.currentStates B <> [] ->
  exists B1 b, NFA.step h B = Some (B1, b) /\ simulates h A inp (S k) B1.
Proof.
  intros [Hsame Hinp Hidx Hbound Hact] Hlt Hcur.
  destruct (lookup_lt_is_Some_2 inp k Hlt) as [a Ha].
  assert (Hsym : Automaton.input B !! Automaton.inputIndex B = Some a)
    by (by rewrite Hinp, Hidx).
  pose proof (NFA_step_taken h B a Hsym Hcur) as Hstep.
  pose proof (fun l => elem_of_step_targets h B a l) as Hcur1.
  set (next := NFA.closeAll h B _) in *. clearbody next.
  set (B' := Automaton.set_inputIndex (S (Automaton.inputIndex B))
               (Automaton.set_currentStates next B)) in *.
  assert (HB' : exists B1 b,
             NFA.step h B = Some (B1, b)
             /\ sameStructure B B1
             /\ Automaton.input B1 = Automaton.input B
             /\ Automaton.inputIndex B1 = S (Automaton.inputIndex B)
             /\ Automaton.currentStates B1 = next).
  { rewrite Hstep. destruct B. destruct (length next =? 0)%nat;
      eexists; eexists; (split; [reflexivity|]); by cbn. }
  clear Hstep. destruct HB' as (B1 & b & Hstep & Hsame1 & Hinp1 & Hidx1 & HB1).
  rewrite <- HB1 in Hcur1. clear HB1 B'.
  exists B1, b. split; [done|]. constructor.
  - by eapply sameStructure_trans.
  - congruence.
  - congruence.
  - lia.
  - intros l. rewrite Hcur1. unfold activeAfter.
    rewrite (take_S_r inp k a Ha).
    setoid_rewrite reads_snoc. split.
    + intros (q & r & Hq & Hedge & Hpath).
      apply Hact in Hq as (i0 & Hi0 & Hq).
      exists i0. split; [done|]. exists q, r. split_and!; [done| |].
      * by apply (sameStructure_symbolEdge h A B).
      * by apply (sameStructure_rtc h A B).
    + intros (i0 & Hi0 & q & r & Hq & Hedge & Hpath).
      exists q, r. split_and!.
      * apply Hact. by exists i0.
      * by apply (sameStructure_symbolEdge h A B).
      * by apply (sameStructure_rtc h A B).
Qed.

Lemma NFA_run_loop_simulates h A inp budget k B :
  simulates h A inp k B -> (length inp - k <= budget)%nat ->
  exists B' n k',
    Automaton.run_loop NFA.step h budget B = Some (B', n)
    /\ simulates h A inp k' B'
    /\ (k' = length inp \/ Automaton.currentStates B' = []).
Proof.
  revert k B. induction budget as [|budget IH]; intros k B Hsim Hbudget.
  - simpl. exists B, 0%nat, k. split_and!; [done..|].
    left. destruct Hsim. lia.
  - simpl. pose proof Hsim as [Hsame Hinp Hidx Hbound Hact].
    rewrite Hinp, Hidx.
    destruct (k <? length inp)%nat eqn:E1.
    + apply Nat.ltb_lt in E1.
      destruct (0 <? length (Automaton.currentStates B))%nat eqn:E2.
      * apply Nat.ltb_lt in E2.
        destruct (NFA_step_simulates h A inp k B Hsim E1) as (B1 & b & -> & Hsim1).
        { intros HE. rewrite HE in E2. simpl in E2. lia. }
        destruct (IH (S k) B1 Hsim1) as (B' & n & k' & -> & Hsim' & Hexit); [lia|].
        by exists B', (S n), k'.
      * apply Nat.ltb_ge in E2. simpl. exists B, 0%nat, k.
        split_and!; [done..|]. right.
        destruct (Automaton.currentStates B); [done|simpl in E2; lia].
    + apply Nat.ltb_ge in E1. simpl. exists B, 0%nat, k.
      split_and!; [done..|]. left. lia.
Qed.

Lemma some_final h B cs :
  JS.some
    (fun state =>
       JS.some (fun f => bool_decide (Automaton.idAt h f = Automaton.idAt h state))
         (Automaton.getFinalStates h B)) cs = true
  <-> exists l, l ∈ cs /\ finalId h B l.
Proof.
  unfold JS.some. rewrite existsb_exists. split.
  - intros (l & Hl & Hf). apply existsb_exists in Hf as (f & Hf & Hid).
    apply bool_decide_eq_true in Hid.
    exists l. split; [by apply list_elem_of_In|].
    apply list_elem_of_In, elem_of_filter_std in Hf as [Hf Hfin].
    by exists f.
  - intros (l & Hl & f & Hf & Hfin & Hid).
    exists l. split; [by apply list_elem_of_In|].
    apply existsb_exists. exists f. split.
    + apply list_elem_of_In, elem_of_filter_std. done.
    + by apply bool_decide_eq_true.
Qed.

(** X19.  [NFA.accepts(input)] on an input of at most 1000 symbols returns
    [true] exactly when the automaton has an initial state and some path
    from it -- ε-transitions, and for each input symbol in turn one
    transition that accepts it -- reads the whole input and ends in a
    state object that has the id of a final state; otherwise it returns
    [false].  It never throws and never leaves the verdict undecided. *)
Theorem NFA_accepts_iff_accepting_path
    (h : heap) (A : Automaton.t) (inp : list string) :
  (length inp <= 1000)%nat ->
  exists A' b,
    NFA.accepts h inp A = Some (A', Some b)
    /\ (b = true
        <-> exists i0 l, Automaton.initialState A = Some i0
                         /\ reads h A i0 inp l /\ finalId h A l).
Proof.
  intros Hlen. unfold NFA.accepts, Automaton.accepts, Automaton.run.
  pose proof (NFA_initSimulation_simulates h A inp) as Hsim0.
  set (B0 := (NFA.initSimulation h inp A).1) in *. clearbody B0.
  assert (Hsim0' : simulates h A inp 0 (Automaton.set_isRunning true B0)).
  { destruct Hsim0. constructor; by destruct B0. }
  destruct (NFA_run_loop_simulates h A inp 1000 0
              (Automaton.set_isRunning true B0) Hsim0')
    as (B' & n & k' & -> & Hsim' & Hexit); [lia|].
  assert (Hsim'' : simulates h A inp k' (Automaton.set_isRunning false B')).
  { destruct Hsim'. constructor; by destruct B'. }
  assert (Hexit' : k' = length inp
                   \/ Automaton.currentStates (Automaton.set_isRunning false B') = []).
  { destruct Hexit as [?|HE]; [by left|right]. by destruct B'. }
  set (B := Automaton.set_isRunning false B') in *. clearbody B.
  clear Hsim' Hexit Hsim0 Hsim0' B0 B'.
  destruct Hsim'' as [Hsame Hinp Hidx Hbound Hact].
  assert (Hfinal : forall l, finalId h B l <-> finalId h A l).
  { intros l. destruct Hsame as (Hs & _ & _). unfold finalId. by rewrite Hs. }
  unfold NFA.checkAcceptance. rewrite Hinp, Hidx.
  destruct (k' <? length inp)%nat eqn:E.
  - apply Nat.ltb_lt in E. destruct Hexit' as [?|Hempty]; [lia|].
    eexists. exists false. split; [by destruct B|].
    split; [done|]. intros (i0 & l & Hi0 & Hreads & _).
    destruct (reads_prefix h A i0 inp l k' Hreads) as (l' & Hl').
    assert (Hin : l' ∈ Automaton.currentStates B).
    { apply Hact. by exists i0. }
    rewrite Hempty in Hin. by apply elem_of_nil in Hin.
  - apply Nat.ltb_ge in E. assert (k' = length inp) as -> by lia.
    assert (Hact' : forall l, l ∈ Automaton.currentStates B
                    <-> exists i0, Automaton.initialState A = Some i0
                                   /\ reads h A i0 inp l).
    { intros l. rewrite Hact. unfold activeAfter. by rewrite firstn_all. }
    destruct (JS.some _ (Automaton.currentStates B)) eqn:Hsome.
    + eexists. exists true. split; [by destruct B|]. split; [|done].
      intros _. apply some_final in Hsome as (l & Hl & Hf).
      apply Hact' in Hl as (i0 & Hi0 & Hreads).
      exists i0, l. split_and!; [done..|]. by apply Hfinal.
    + eexists. exists false. split; [by destruct B|]. split; [done|].
      intros (i0 & l & Hi0 & Hreads & Hf).
      assert (Htrue : JS.some
                (fun state =>
                   JS.some (fun f => bool_decide (Automaton.idAt h f
                                                  = Automaton.idAt h state))
                     (Automaton.getFinalStates h B))
                (Automaton.currentStates B) = true).
      { apply some_final. exists l. split; [|by apply Hfinal].
        apply Hact'. by exists i0. }
      congruence.
Qed.

Lemma NFA_accepts_iff_accepting_path_witness :
  exists A' b,
    NFA.accepts three_heap ["a"; "a"; "b"] astarb_nfa = Some (A', Some b)
    /\ (b = true
        <-> exists i0 l, Automaton.initialState astarb_nfa = Some i0
                         /\ reads three_heap astarb_nfa i0 ["a"; "a"; "b"] l
                         /\ finalId three_heap astarb_nfa l).
Proof.
  apply (NFA_accepts_iff_accepting_path three_heap astarb_nfa ["a"; "a"; "b"]).
  simpl. lia.
Defined.

(** ** Reachable states of an NFA *)

Lemma epsilonEdge_transitionEdge h A q r :
  epsilonEdge h A q r -> transitionEdge h A q r.
Proof. intros (t & Ht & Hfrom & _ & Hres). by exists t. Qed.

Lemma rtc_epsilon_transition h A q r :
  rtc (epsilonEdge h A) q r -> rtc (transitionEdge h A) q r.
Proof. apply rtc_subrel. intros x y. apply epsilonEdge_transitionEdge. Qed.

(** A state entered along ε-transitions from the target of a transition
    is itself the target of a transition. *)
Lemma closure_member_target h A t r s :
  t ∈ Automaton.transitions A ->
  Automaton.resolve h A (Transition.toState t) = Some r ->
  rtc (epsilonEdge h A) r s ->
  Automaton.idAt h s ∈ targetIds h A.
Proof.
  intros Ht Hres Hpath. unfold targetIds. apply list_elem_of_omap.
  apply rtc_inv_r in Hpath as [->|(y & _ & (t' & Ht' & _ & _ & Hres'))].
  - exists t. by rewrite Hres.
  - exists t'. by rewrite Hres'.
Qed.

(** The effect of [closure.forEach] on [reachable] and the queue. *)
Lemma reach_add_fold h A ss rq0 :
  let rq1 := foldl (NFA.reach_add h) rq0 ss in
  (forall x, x ∈ rq0.1 -> x ∈ rq1.1)
  /\ (forall q, q ∈ rq0.2 -> q ∈ rq1.2)
  /\ (forall x, x ∈ rq1.1 ->
        x ∈ rq0.1 \/ exists s, s ∈ ss /\ Automaton.idAt h s = x /\ s ∈ rq1.2)
  /\ (forall q, q ∈ rq1.2 ->
        q ∈ rq0.2 \/ (q ∈ ss /\ Automaton.idAt h q ∈ rq1.1))
  /\ (forall s, s ∈ ss -> Automaton.idAt h s ∈ rq1.1)
  /\ ((forall s, s ∈ ss -> Automaton.idAt h s ∈ targetIds h A) ->
      (length rq1.2 + pendingIds h A rq1.1
       <= length rq0.2 + pendingIds h A rq0.1)%nat).
Proof.
  revert rq0. induction ss as [|s ss IH]; intros rq0; simpl.
  { split_and!; try tauto.
    - intros s Hs. by apply elem_of_nil in Hs.
    - intros _. lia. }
  destruct (IH (NFA.reach_add h rq0 s))
    as (Hmono & Hqueue & Hnew & Hpushed & Hall & Hmeasure).
  assert (Hv : (NFA.reach_add h rq0 s = rq0 /\ Automaton.idAt h s ∈ rq0.1)
               \/ ((Automaton.idAt h s ∉ rq0.1)
                   /\ NFA.reach_add h rq0 s
                      = (rq0.1 ++ [Automaton.idAt h s], rq0.2 ++ [s]))).
  { unfold NFA.reach_add. case_bool_decide; [by left|by right]. }
  destruct Hv as [[Hsame Hs]|[Hs Hadd]].
  - rewrite Hsame in *. split_and!; try done.
    + intros x Hx. destruct (Hnew x Hx) as [?|(s' & ? & ?)]; [by left|].
      right. exists s'. split; [by right|done].
    + intros q Hq. destruct (Hpushed q Hq) as [?|[? ?]]; [by left|].
      right. split; [by right|done].
    + intros s' [->|Hs']%elem_of_cons; [by apply Hmono|by apply Hall].
    + intros Hsub. apply Hmeasure. intros s' Hs'. apply Hsub. by right.
  - rewrite Hadd in *. simpl in *. split_and!.
    + intros x Hx. apply Hmono, elem_of_app. by left.
    + intros q Hq. apply Hqueue, elem_of_app. by left.
    + intros x Hx. destruct (Hnew x Hx) as [Hx0|(s' & ? & ?)].
      * apply elem_of_app in Hx0 as [?|Hxs]; [by left|].
        apply list_elem_of_singleton in Hxs as ->. right. exists s.
        split_and!; [left|done|].
        apply Hqueue, elem_of_app. right. by apply list_elem_of_singleton.
      * right. exists s'. split; [by right|done].
    + intros q Hq. destruct (Hpushed q Hq) as [[?|Hqs]%elem_of_app|[? ?]].
      * by left.
      * apply list_elem_of_singleton in Hqs as ->. right. split; [left|].
        apply Hmono, elem_of_app. right. by apply list_elem_of_singleton.
      * right. split; [by right|done].
    + intros s' [->|Hs']%elem_of_cons; [|by apply Hall].
      apply Hmono, elem_of_app. right. by apply list_elem_of_singleton.
    + intros Hsub.
      assert (Hin : Automaton.idAt h s ∈ targetIds h A) by (apply Hsub; left).
      pose proof (filter_notin_snoc_lt (targetIds h A) rq0.1 _ Hin Hs) as Hlt.
      assert (Hm : (length (foldl (NFA.reach_add h)
                              (rq0.1 ++ [Automaton.idAt h s], rq0.2 ++ [s]) ss).2
                    + pendingIds h A
                        (foldl (NFA.reach_add h)
                           (rq0.1 ++ [Automaton.idAt h s], rq0.2 ++ [s]) ss).1
                    <= length (rq0.2 ++ [s])
                       + pendingIds h A (rq0.1 ++ [Automaton.idAt h s]))%nat).
      { apply Hmeasure. intros s' Hs'. apply Hsub. by right. }
      rewrite length_app in Hm. simpl in Hm. unfold pendingIds in *. lia.
Qed.

(** The effect of [transitions.forEach] on [reachable] and the queue. *)
Lemma NFA_reach_visit_fold h A ts rq0 :
  let rq1 := foldl (NFA.reach_visit h A) rq0 ts in
  (forall x, x ∈ rq0.1 -> x ∈ rq1.1)
  /\ (forall q, q ∈ rq0.2 -> q ∈ rq1.2)
  /\ (forall x, x ∈ rq1.1 ->
        x ∈ rq0.1
        \/ exists t r s, t ∈ ts
             /\ Automaton.resolve h A (Transition.toState t) = Some r
             /\ rtc (epsilonEdge h A) r s
             /\ Automaton.idAt h s = x /\ s ∈ rq1.2)
  /\ (forall q, q ∈ rq1.2 ->
        q ∈ rq0.2
        \/ (Automaton.idAt h q ∈ rq1.1
            /\ exists t r, t ∈ ts
                 /\ Automaton.resolve h A (Transition.toState t) = Some r
                 /\ rtc (epsilonEdge h A) r q))
  /\ (forall t r, t ∈ ts ->
        Automaton.resolve h A (Transition.toState t) = Some r ->
        Automaton.idAt h r ∈ rq1.1)
  /\ ((forall t, t ∈ ts -> t ∈ Automaton.transitions A) ->
      (length rq1.2 + pendingIds h A rq1.1
       <= length rq0.2 + pendingIds h A rq0.1)%nat).
Proof.
  revert rq0. induction ts as [|t ts IH]; intros rq0; simpl.
  { split_and!; try tauto.
    - intros t r Ht. by apply elem_of_nil in Ht.
    - intros _. lia. }
  destruct (IH (NFA.reach_visit h A rq0 t))
    as (Hmono & Hqueue & Hnew & Hpushed & Hall & Hmeasure).
  assert (Hv : (NFA.reach_visit h A rq0 t = rq0
                /\ forall r, Automaton.resolve h A (Transition.toState t) = Some r ->
                             Automaton.idAt h r ∈ rq0.1)
               \/ exists r, Automaton.resolve h A (Transition.toState t) = Some r
                            /\ NFA.reach_visit h A rq0 t
                               = foldl (NFA.reach_add h) rq0
                                   (NFA.epsilonClosure h A [Obj r])).
  { unfold NFA.reach_visit.
    destruct (Automaton.resolve h A (Transition.toState t)) as [r|]; [|by left].
    case_bool_decide as Hr.
    - left. split; [done|]. by intros ? [= <-].
    - right. by exists r. }
  destruct Hv as [[Hsame Hin]|(r & Hres & Hadd)].
  { rewrite Hsame in *. split_and!; try done.
    - intros x Hx. destruct (Hnew x Hx) as [?|(t' & r' & s & ? & ?)]; [by left|].
      right. exists t', r', s. split; [by right|done].
    - intros q Hq. destruct (Hpushed q Hq) as [?|(? & t' & r' & ? & ?)]; [by left|].
      right. split; [done|]. exists t', r'. split; [by right|done].
    - intros t' r' [->|Ht']%elem_of_cons Hres'; [|by eapply Hall].
      apply Hmono. by apply Hin.
    - intros Hsub. apply Hmeasure. intros t' Ht'. apply Hsub. by right. }
  rewrite Hadd in *.
  destruct (reach_add_fold h A (NFA.epsilonClosure h A [Obj r]) rq0)
    as (Hmono' & Hqueue' & Hnew' & Hpushed' & Hall' & Hmeasure').
  set (rq' := foldl (NFA.reach_add h) rq0 (NFA.epsilonClosure h A [Obj r])) in *.
  split_and!.
  - auto.
  - auto.
  - intros x Hx. destruct (Hnew x Hx) as [Hx'|(t' & r' & s & ? & ?)].
    + destruct (Hnew' x Hx') as [?|(s & Hs & Hid & Hq)]; [by left|].
      right. exists t, r, s. split_and!; [left|done| |done|by apply Hqueue].
      by apply mem_epsilonClosure.
    + right. exists t', r', s. split; [by right|done].
  - intros q Hq. destruct (Hpushed q Hq) as [Hq'|(? & t' & r' & ? & ?)].
    + destruct (Hpushed' q Hq') as [?|[Hs Hid]]; [by left|].
      right. split; [by apply Hmono|]. exists t, r.
      split_and!; [left|done|]. by apply mem_epsilonClosure.
    + right. split; [done|]. exists t', r'. split; [by right|done].
  - intros t' r' [->|Ht']%elem_of_cons Hres'; [|by eapply Hall].
    rewrite Hres in Hres'. injection Hres' as <-.
    apply Hmono, Hall'. apply mem_epsilonClosure. done.
  - intros Hsub.
    assert (Ht : t ∈ Automaton.transitions A) by (apply Hsub; left).
    assert (H1 : (length rq'.2 + pendingIds h A rq'.1
                  <= length rq0.2 + pendingIds h A rq0.1)%nat).
    { apply Hmeasure'. intros s Hs%mem_epsilonClosure.
      by eapply closure_member_target. }
    assert (H2 : (length (foldl (NFA.reach_visit h A) rq' ts).2
                  + pendingIds h A (foldl (NFA.reach_visit h A) rq' ts).1
                  <= length rq'.2 + pendingIds h A rq'.1)%nat).
    { apply Hmeasure. intros t' Ht'. apply Hsub. by right. }
    lia.
Qed.

Lemma NFA_reach_body_inv h A i0 rq :
  reachInv h A i0 rq -> reachInv h A i0 (NFA.reach_body h A rq).
Proof.
  intros [Hini Hsound Hq Hwork]. unfold NFA.reach_body.
  destruct rq as [reachable queue]. simpl in *.
  destruct queue as [|c queue]; [by constructor|].
  destruct (NFA_reach_visit_fold h A (Automaton.getTransitionsFrom h A (Obj c))
              (reachable, queue))
    as (Hmono & Hqueue & Hnew & Hpushed & Hall & _).
  simpl in *.
  destruct (Hq c ltac:(left)) as [Hc Hcin].
  assert (Hstep : forall t r s,
            t ∈ Automaton.getTransitionsFrom h A (Obj c) ->
            Automaton.resolve h A (Transition.toState t) = Some r ->
            rtc (epsilonEdge h A) r s ->
            rtc (transitionEdge h A) i0 s).
  { intros t r s Ht Hres Hpath.
    apply elem_of_transitionsFrom in Ht as [Ht Hfrom].
    etransitivity; [exact Hc|].
    eapply rtc_l; [by exists t|]. by apply rtc_epsilon_transition. }
  constructor; simpl.
  - auto.
  - intros x Hx.
    destruct (Hnew x Hx) as [Hold|(t & r & s & Ht & Hres & Hpath & Hid & _)];
      [auto|].
    exists s. split; [|done]. by eapply Hstep.
  - intros q Hqin.
    destruct (Hpushed q Hqin) as [Hold|(Hid & t & r & Ht & Hres & Hpath)].
    + destruct (Hq q ltac:(by right)) as [? ?]. auto.
    + split; [|done]. by eapply Hstep.
  - intros q Hqid.
    destruct (Hnew _ Hqid) as [Hold|(t & r & s & Ht & Hres & Hpath & Hid & Hs)].
    + destruct (Hwork q Hold) as [(q' & [->|Hq']%elem_of_cons & Hid)|Hclosed].
      * right. intros r Hr. apply (transitionEdge_id h A q c r) in Hr; [|done].
        destruct Hr as (t & Ht & Hfrom & Hres).
        eapply Hall; [|done]. by apply elem_of_transitionsFrom.
      * left. exists q'. auto.
      * right. intros r Hr. auto.
    + left. exists s. done.
Qed.

Lemma NFA_reach_body_measure h A rq :
  rq.2 <> [] ->
  (length (NFA.reach_body h A rq).2 + pendingIds h A (NFA.reach_body h A rq).1
   < length rq.2 + pendingIds h A rq.1)%nat.
Proof.
  unfold NFA.reach_body. destruct rq as [reachable queue]. simpl.
  destruct queue as [|c queue]; [done|]. intros _.
  destruct (NFA_reach_visit_fold h A (Automaton.getTransitionsFrom h A (Obj c))
              (reachable, queue))
    as (_ & _ & _ & _ & _ & Hmeasure).
  simpl in *.
  assert (Hsub : forall t, t ∈ Automaton.getTransitionsFrom h A (Obj c) ->
                           t ∈ Automaton.transitions A).
  { intros t Ht. by apply elem_of_transitionsFrom in Ht as [Ht _]. }
  specialize (Hmeasure Hsub). lia.
Qed.

Lemma NFA_reach_while_inv h A i0 fuel rq :
  reachInv h A i0 rq -> reachInv h A i0 (NFA.reach_while h A fuel rq).
Proof.
  revert rq. induction fuel as [|fuel IH]; intros rq Hinv; simpl; [done|].
  destruct (rq.2) eqn:Hqueue; [done|].
  apply IH, NFA_reach_body_inv. done.
Qed.

(** With at least as much fuel as the measure, the loop has exited: the
    queue is empty. *)
Lemma NFA_reach_while_exits h A fuel rq :
  (length rq.2 + pendingIds h A rq.1 <= fuel)%nat ->
  (NFA.reach_while h A fuel rq).2 = [].
Proof.
  revert rq. induction fuel as [|fuel IH]; intros rq Hfuel; simpl.
  - destruct (rq.2); [done|simpl in Hfuel; lia].
  - destruct (rq.2) eqn:Hqueue; [done|].
    apply IH.
    pose proof (NFA_reach_body_measure h A rq) as Hm.
    rewrite Hqueue in Hm. specialize (Hm ltac:(done)). simpl in *. lia.
Qed.

Lemma NFA_reach_while_stable h A fuel fuel' rq :
  (NFA.reach_while h A fuel rq).2 = [] ->
  (fuel <= fuel')%nat ->
  NFA.reach_while h A fuel' rq = NFA.reach_while h A fuel rq.
Proof.
  revert fuel' rq. induction fuel as [|fuel IH]; intros fuel' rq Hdone Hle.
  - simpl in *. destruct fuel'; simpl; [done|]. by rewrite Hdone.
  - destruct fuel' as [|fuel']; [lia|]. simpl in *.
    destruct (rq.2); [done|]. apply IH; [done|lia].
Qed.

Lemma NFA_reach_init_spec h A i0 :
  Automaton.initialState A = Some i0 ->
  (forall x, x ∈ (NFA.reach_init h A).1
             <-> exists s, s ∈ NFA.epsilonClosure h A [Obj i0]
                           /\ Automaton.idAt h s = x)
  /\ (NFA.reach_init h A).2 = NFA.epsilonClosure h A [Obj i0].
Proof.
  intros Hini. unfold NFA.reach_init. rewrite Hini.
  assert (Hgen : forall ss rq,
    let rq1 := foldl (fun rq s => (JS.set_add (Automaton.idAt h s) rq.1,
                                   rq.2 ++ [s])) rq ss in
    (forall x, x ∈ rq1.1 <-> x ∈ rq.1 \/ exists s, s ∈ ss /\ Automaton.idAt h s = x)
    /\ rq1.2 = rq.2 ++ ss).
  { induction ss as [|s ss IH]; intros rq; simpl.
    - split; [|by rewrite app_nil_r]. intros x. split; [by left|].
      intros [?|(s & Hs & _)]; [done|]. by apply elem_of_nil in Hs.
    - destruct (IH (JS.set_add (Automaton.idAt h s) rq.1, rq.2 ++ [s]))
        as [Hin Hq]. simpl in *. split.
      + intros x. rewrite Hin, elem_of_set_add. split.
        * intros [[->|?]|(s' & ? & ?)]; [right|by left|right].
          -- exists s. split; [left|done].
          -- exists s'. split; [by right|done].
        * intros [?|(s' & [->|?]%elem_of_cons & ?)];
            [by left; right|by left; left|].
          right. by exists s'.
      + rewrite Hq, <- app_assoc. done. }
  destruct (Hgen (NFA.epsilonClosure h A [Obj i0]) ([], [])) as [Hin Hq].
  simpl in *. split; [|done].
  intros x. rewrite Hin, elem_of_nil. tauto.
Qed.

Lemma NFA_reach_init_inv h A i0 :
  Automaton.initialState A = Some i0 ->
  reachInv h A i0 (NFA.reach_init h A).
Proof.
  intros Hini. destruct (NFA_reach_init_spec h A i0 Hini) as [Hin Hq].
  constructor.
  - apply Hin. exists i0. split; [|done]. by apply mem_epsilonClosure.
  - intros x (s & Hs%mem_epsilonClosure & <-)%Hin.
    exists s. split; [|done]. by apply rtc_epsilon_transition.
  - intros q. rewrite Hq. intros Hs. split.
    + apply rtc_epsilon_transition. by apply mem_epsilonClosure.
    + apply Hin. by exists q.
  - intros q (s & Hs & Hid)%Hin. left. exists s. by rewrite Hq.
Qed.

Lemma NFA_reach_fuel_enough h A :
  (length (NFA.reach_init h A).2 + pendingIds h A (NFA.reach_init h A).1
   <= NFA.reach_fuel h A)%nat.
Proof.
  unfold NFA.reach_fuel, pendingIds, targetIds.
  apply Nat.add_le_mono_l.
  etransitivity; [apply filter_length_le|]. apply length_omap_le.
Qed.

(** The ids that [getReachableStates()] of an NFA returns. *)
Lemma NFA_reachable_ids (h : heap) (A : Automaton.t) :
  match Automaton.initialState A with
  | Some i0 =>
      forall x, x ∈ NFA.getReachableStates h A
                <-> exists r, rtc (transitionEdge h A) i0 r
                              /\ Automaton.idAt h r = x
  | None => NFA.getReachableStates h A = []
  end.
Proof.
  assert (Hexit : (NFA.reach_while h A (NFA.reach_fuel h A) (NFA.reach_init h A)).2
                  = []).
  { apply NFA_reach_while_exits, NFA_reach_fuel_enough. }
  destruct (Automaton.initialState A) as [i0|] eqn:Hini.
  - pose proof (NFA_reach_while_inv h A i0 (NFA.reach_fuel h A) _
                  (NFA_reach_init_inv h A i0 Hini)) as [Hi Hsound _ Hwork].
    fold (NFA.getReachableStates h A) in *.
    intros x. split; [apply Hsound|].
    intros (r & Hpath & <-). revert r Hpath.
    apply (rtc_ind_r
             (fun r => Automaton.idAt h r ∈ NFA.getReachableStates h A) i0);
      [done|].
    intros q r _ Hqr IH.
    destruct (Hwork q IH) as [(q' & Hq' & _)|Hclosed].
    + rewrite Hexit in Hq'. by apply elem_of_nil in Hq'.
    + by apply Hclosed.
  - unfold NFA.getReachableStates, NFA.reach_fuel, NFA.reach_init.
    rewrite Hini. simpl. by destruct (length (Automaton.transitions A)).
Qed.

(** X20.  [getReachableStates()] of an NFA: its loop exits, and the ids it
    returns are exactly the ids of the states that a path of transitions,
    ε-transitions among them, reaches from the initial state -- the ids
    that [getReachableStates()] of a DFA returns for the same states and
    transitions. *)
Theorem NFA_getReachableStates_spec (h : heap) (A : Automaton.t) :
  (NFA.reach_while h A (NFA.reach_fuel h A) (NFA.reach_init h A)).2 = []
  /\ (forall fuel, (NFA.reach_fuel h A <= fuel)%nat ->
        (NFA.reach_while h A fuel (NFA.reach_init h A)).1
        = NFA.getReachableStates h A)
  /\ match Automaton.initialState A with
     | Some i0 =>
         forall x, x ∈ NFA.getReachableStates h A
                   <-> exists r, rtc (transitionEdge h A) i0 r
                                 /\ Automaton.idAt h r = x
     | None => NFA.getReachableStates h A = []
     end
  /\ forall x, x ∈ NFA.getReachableStates h A
               <-> x ∈ DFA.getReachableStates h A.
Proof.
  assert (Hexit : (NFA.reach_while h A (NFA.reach_fuel h A) (NFA.reach_init h A)).2
                  = []).
  { apply NFA_reach_while_exits, NFA_reach_fuel_enough. }
  pose proof (NFA_reachable_ids h A) as Hspec.
  split_and!; [done| |done|].
  - intros fuel Hfuel. unfold NFA.getReachableStates.
    by rewrite (NFA_reach_while_stable h A (NFA.reach_fuel h A) fuel).
  - intros x. pose proof (DFA_reachable_ids h A) as Hdfa.
    destruct (Automaton.initialState A) as [i0|].
    + by rewrite Hspec, Hdfa.
    + by rewrite Hspec, Hdfa.
Qed.

(** ** Validation *)

Lemma concat_fmap_nil {A B} (f : A -> list B) (l : list A) :
  concat (f <$> l) = [] <-> forall x, x ∈ l -> f x = [].
Proof.
  induction l as [|a l IH]; simpl.
  - split; [|done]. intros _ x Hx. by apply elem_of_nil in Hx.
  - split.
    + intros [Ha Hl]%app_eq_nil x [->|Hx]%elem_of_cons; [done|].
      by apply IH.
    + intros H. rewrite (H a) by left. simpl. apply IH.
      intros x Hx. apply H. by right.
Qed.

Lemma length_eqb_0 {A} (l : list A) : (length l =? 0)%nat = true <-> l = [].
Proof. rewrite Nat.eqb_eq. by destruct l. Qed.

(** X16.  [validate()] of a DFA answers [isValid: true] exactly when there is
    an initial state, some state is final, no state has two transitions
    that accept the same symbol of the alphabet, and no state has a
    transition for which [isEpsilon()] holds. *)
Theorem DFA_validate_isValid (h : heap) (A : Automaton.t) :
  (DFA.validate h A).1.1 = true
  <-> Automaton.initialState A <> None
      /\ Automaton.getFinalStates h A <> []
      /\ forall state, state ∈ Automaton.states A ->
           (forall symbol, symbol ∈ Automaton.alphabet A ->
              (length (List.filter
                         (fun t => Transition.accepts t (Some symbol))
                         (Automaton.getTransitionsFrom h A (Obj state)))
               <= 1)%nat)
           /\ forall t, t ∈ Automaton.getTransitionsFrom h A (Obj state) ->
                        Transition.isEpsilon t = false.
Proof.
  unfold DFA.validate. cbn [fst]. rewrite length_eqb_0.
  split.
  - intros [Hbase Hstates]%app_eq_nil.
    rewrite concat_fmap_nil in Hstates.
    unfold Automaton.validate in Hbase. cbn [snd] in Hbase.
    split_and!.
    + intros Hnone. rewrite Hnone in Hbase.
      by destruct (_ =? _)%nat.
    + intros Hnone. rewrite Hnone in Hbase. simpl in Hbase.
      by destruct (Automaton.initialState A).
    + intros state Hstate. specialize (Hstates state Hstate).
      unfold DFA.stateErrors in Hstates. cbv zeta in Hstates.
      apply app_eq_nil in Hstates as [Hsym Heps]. split.
      * rewrite concat_fmap_nil in Hsym. intros symbol Hsymbol.
        specialize (Hsym symbol Hsymbol). cbv beta in Hsym.
        destruct (1 <? _)%nat eqn:E; [done|]. by apply Nat.ltb_ge in E.
      * intros t Ht.
        destruct (0 <? _)%nat eqn:E; [done|]. apply Nat.ltb_ge in E.
        destruct (Transition.isEpsilon t) eqn:Ht'; [|done].
        assert (Hin : t ∈ List.filter Transition.isEpsilon
                          (Automaton.getTransitionsFrom h A (Obj state))).
        { by apply elem_of_filter_std. }
        destruct (List.filter _ _); [by apply elem_of_nil in Hin|].
        simpl in E. lia.
  - intros (Hini & Hfin & Hstates). apply app_nil. split.
    + unfold Automaton.validate. cbn [snd].
      destruct (Automaton.initialState A); [|done].
      destruct (Automaton.getFinalStates h A); done.
    + apply concat_fmap_nil. intros state Hstate.
      destruct (Hstates state Hstate) as [Hsym Heps].
      unfold DFA.stateErrors. cbv zeta. apply app_nil. split.
      * apply concat_fmap_nil. intros symbol Hsymbol.
        specialize (Hsym symbol Hsymbol). cbv beta.
        destruct (1 <? _)%nat eqn:E; [|done]. apply Nat.ltb_lt in E. lia.
      * destruct (List.filter Transition.isEpsilon _) as [|t ts] eqn:Hf; [done|].
        assert (Hin : t ∈ List.filter Transition.isEpsilon
                          (Automaton.getTransitionsFrom h A (Obj state))).
        { rewrite Hf. left. }
        apply elem_of_filter_std in Hin as [Hin Ht].
        rewrite (Heps t Hin) in Ht. done.
Qed.

(** X15.  [getWarnings()] of a DFA is empty exactly when every state has a
    transition that accepts each symbol of the alphabet, and every state
    is flagged initial or has the id of a state that a path of transitions
    reaches from the initial state. *)
Theorem DFA_getWarnings_none (h : heap) (A : Automaton.t) :
  DFA.getWarnings h A = []
  <-> forall state, state ∈ Automaton.states A ->
        (forall symbol, symbol ∈ Automaton.alphabet A ->
           exists t, t ∈ Automaton.getTransitionsFrom h A (Obj state)
                     /\ Transition.accepts t (Some symbol) = true)
        /\ (Automaton.isInitialAt h state = true
            \/ exists i0 r,
                 Automaton.initialState A = Some i0
                 /\ rtc (transitionEdge h A) i0 r
                 /\ Automaton.idAt h r = Automaton.idAt h state).
Proof.
  unfold DFA.getWarnings, DFA.missingTransitions, DFA.unreachableStates.
  cbv zeta.
  assert (Hreach : forall state,
            Automaton.idAt h state ∈ DFA.getReachableStates h A
            <-> exists i0 r,
                  Automaton.initialState A = Some i0
                  /\ rtc (transitionEdge h A) i0 r
                  /\ Automaton.idAt h r = Automaton.idAt h state).
  { intros state. pose proof (DFA_reachable_ids h A) as Hspec.
    destruct (Automaton.initialState A) as [i0|].
    - rewrite Hspec. split.
      + intros (r & ? & ?). by exists i0, r.
      + intros (? & r & [= <-] & ? & ?). by exists r.
    - rewrite Hspec. split; [by intros ?%elem_of_nil|].
      by intros (? & ? & ? & _). }
  split.
  - intros [Hmiss Hunr]%app_eq_nil state Hstate.
    rewrite concat_fmap_nil in Hmiss. rewrite concat_fmap_nil in Hunr.
    specialize (Hmiss state Hstate). specialize (Hunr state Hstate).
    cbv beta in Hmiss, Hunr. split.
    + rewrite concat_fmap_nil in Hmiss. intros symbol Hsymbol.
      specialize (Hmiss symbol Hsymbol). cbv beta in Hmiss.
      destruct (JS.some _ _) eqn:E; [|done].
      unfold JS.some in E. apply existsb_exists in E as (t & Ht & Hacc).
      exists t. by rewrite list_elem_of_In.
    + destruct (Automaton.isInitialAt h state); [by left|right].
      apply Hreach. case_bool_decide; [done|]. done.
  - intros H. apply app_nil. split.
    + apply concat_fmap_nil. intros state Hstate.
      apply concat_fmap_nil. intros symbol Hsymbol.
      destruct (H state Hstate) as [Hsym _].
      destruct (Hsym symbol Hsymbol) as (t & Ht & Hacc).
      assert (E : JS.some (fun t => Transition.accepts t (Some symbol))
                    (Automaton.getTransitionsFrom h A (Obj state)) = true).
      { apply existsb_exists. exists t. by rewrite <- list_elem_of_In. }
      by rewrite E.
    + apply concat_fmap_nil. intros state Hstate.
      destruct (H state Hstate) as [_ [Hi|Hr]].
      * rewrite Hi. by rewrite andb_false_r.
      * apply Hreach in Hr. by rewrite bool_decide_eq_true_2.
Qed.

(** X30.  [validate()] of a Turing machine asks for an initial state and for
    nothing else: a machine without final states is valid, and the only
    error ever reported is the missing initial state. *)
Theorem TM_validate_isValid (h : heap) (M : TuringMachine.t) :
  ((TuringMachine.validate h M).1.1 = true
   <-> Automaton.initialState (TuringMachine.base M) <> None)
  /\ (TuringMachine.validate h M).1.2
     = match Automaton.initialState (TuringMachine.base M) with
       | Some _ => []
       | None => ["No initial state defined"]
       end.
Proof.
  unfold TuringMachine.validate, Automaton.validate. cbn [fst snd].
  destruct (Automaton.initialState (TuringMachine.base M));
    destruct (length (Automaton.getFinalStates h (TuringMachine.base M)) =? 0)%nat;
    split; try (vm_compute; reflexivity);
    cbn; rewrite ?andb_false_l; split; congruence.
Qed.

(** X21.  [validate()] of an NFA answers [isValid: true] exactly when there is
    an initial state and some state is final, whatever the transitions
    are; its warnings are empty exactly when every state is flagged
    initial or has the id of a state that a path of transitions reaches
    from the initial state. *)
Theorem NFA_validate_spec (h : heap) (A : Automaton.t) :
  ((NFA.validate h A).1.1 = true
   <-> Automaton.initialState A <> None /\ Automaton.getFinalStates h A <> [])
  /\ ((NFA.validate h A).2 = []
      <-> forall state, state ∈ Automaton.states A ->
            Automaton.isInitialAt h state = true
            \/ exists i0 r,
                 Automaton.initialState A = Some i0
                 /\ rtc (transitionEdge h A) i0 r
                 /\ Automaton.idAt h r = Automaton.idAt h state).
Proof.
  split.
  - unfold NFA.validate, Automaton.validate. cbn [fst snd].
    destruct (Automaton.initialState A);
      destruct (Automaton.getFinalStates h A); cbn; split;
      try done; try (intros [? ?]; done).
  - unfold NFA.validate, NFA.getWarnings. cbn [snd]. cbv zeta.
    assert (Hreach : forall state,
              Automaton.idAt h state ∈ NFA.getReachableStates h A
              <-> exists i0 r,
                    Automaton.initialState A = Some i0
                    /\ rtc (transitionEdge h A) i0 r
                    /\ Automaton.idAt h r = Automaton.idAt h state).
    { intros state. pose proof (NFA_reachable_ids h A) as Hspec.
      destruct (Automaton.initialState A) as [i0|].
      - rewrite Hspec. split.
        + intros (r & ? & ?). by exists i0, r.
        + intros (? & r & [= <-] & ? & ?). by exists r.
      - rewrite Hspec. split; [by intros ?%elem_of_nil|].
        by intros (? & ? & ? & _). }
    rewrite concat_fmap_nil. split.
    + intros H state Hstate. specialize (H state Hstate). cbv beta in H.
      destruct (Automaton.isInitialAt h state); [by left|right].
      apply Hreach. case_bool_decide; [done|]. done.
    + intros H state Hstate. destruct (H state Hstate) as [Hi|Hr].
      * rewrite Hi. by rewrite andb_false_r.
      * apply Hreach in Hr. by rewrite bool_decide_eq_true_2.
Qed.

(** ** What the DFA simulation computes *)

Lemma walks_snoc h A q0 w a l :
  walks h A q0 (w ++ [a]) l
  <-> exists q, walks h A q0 w q /\ symbolEdge h A a q l.
Proof.
  split.
  - intros H. remember (w ++ [a]) as w' eqn:Hw'.
    destruct H as [|w1 a1 q r Hq Hedge]; [by destruct w|].
    apply app_inj_tail in Hw' as [-> ->]. by exists q.
  - intros (q & Hq & Hedge). by eapply walks_symbol.
Qed.

Lemma walks_prefix h A q0 w l k :
  walks h A q0 w l -> exists l', walks h A q0 (take k w) l'.
Proof.
  intros H. induction H as [|w a q r Hq IH Hedge].
  - exists q0. rewrite take_nil. apply walks_start.
  - destruct (decide (k <= length w)%nat) as [Hle|Hgt].
    + by rewrite take_app_le.
    + rewrite take_ge by (rewrite length_app; simpl; lia).
      exists r. by eapply walks_symbol.
Qed.

Lemma walks_unique h A q0 w l l' :
  deterministic h A -> walks h A q0 w l -> walks h A q0 w l' -> l = l'.
Proof.
  intros Hdet H. revert l'. induction H as [|w a q r Hq IH Hedge]; intros l' H'.
  - remember [] as w eqn:Hw. destruct H'; [done|by destruct w].
  - apply walks_snoc in H' as (q' & Hq' & Hedge').
    rewrite <- (IH q' Hq') in Hedge'. by eapply Hdet.
Qed.

Lemma DFA_step_follows h A inp k B B1 b :
  follows h A inp k B -> (k < length inp)%nat ->
  Automaton.currentStates B <> [] ->
  DFA.step h B = Some (B1, b) ->
  exists k', follows h A inp k' B1
             /\ (k' = S k \/ Automaton.currentStates B1 = []).
Proof.
  intros [Hsame Hinp Hidx Hbound Hact] Hlt Hcur.
  destruct Hact as [(i0 & q & Hi0 & Hq & Hwalk)|[Hempty _]]; [|done].
  destruct (lookup_lt_is_Some_2 inp k Hlt) as [a Ha].
  unfold DFA.step. rewrite Hinp, Hidx, Hq.
  replace (length inp <=? k)%nat with false by (symmetry; apply Nat.leb_gt; lia).
  cbn [orb length Nat.eqb]. rewrite Ha.
  destruct (JS.find _ _) as [t|] eqn:Hfind.
  - apply JS_find_some in Hfind as [Ht Hacc].
    apply elem_of_transitionsFrom in Ht as [Ht Hfrom].
    destruct (Automaton.resolve h B (Transition.toState t)) as [r|] eqn:Hres;
      [|done].
    intros [= <- <-]. exists (S k). split; [|by left].
    constructor.
    + by destruct B.
    + by destruct B.
    + by destruct B.
    + lia.
    + left. exists i0, r. split_and!; [done|by destruct B|].
      rewrite (take_S_r inp k a Ha). eapply walks_symbol; [done|].
      apply (sameStructure_symbolEdge h A B); [done|]. by exists t.
  - intros [= <- <-]. exists k. split; [|right; by destruct B].
    constructor.
    + by destruct B.
    + by destruct B.
    + by destruct B.
    + done.
    + right. split; [by destruct B|].
      intros Hdet i l Hi Hl. rewrite Hi0 in Hi. injection Hi as <-.
      destruct (walks_prefix h A i0 inp l (S k) Hl) as (l' & Hl').
      rewrite (take_S_r inp k a Ha) in Hl'.
      apply walks_snoc in Hl' as (q' & Hq' & Hedge).
      rewrite <- (walks_unique h A i0 _ q q' Hdet Hwalk Hq') in Hedge.
      apply (sameStructure_symbolEdge h A B) in Hedge as (t & Ht & Hfrom & Hacc & _);
        [|done].
      apply JS_find_none with (a := t) in Hfind;
        [|by apply elem_of_transitionsFrom].
      simpl in Hfind. congruence.
Qed.

Lemma DFA_run_loop_follows h A inp budget k B B' n :
  follows h A inp k B -> (length inp - k <= budget)%nat ->
  Automaton.run_loop DFA.step h budget B = Some (B', n) ->
  exists k', follows h A inp k' B'
             /\ (k' = length inp \/ Automaton.currentStates B' = []).
Proof.
  revert k B n. induction budget as [|budget IH]; intros k B n Hfo Hbudget.
  - simpl. intros [= <- <-]. exists k. split; [done|].
    left. destruct Hfo. lia.
  - simpl. pose proof Hfo as [Hsame Hinp Hidx Hbound Hact].
    rewrite Hinp, Hidx.
    destruct (k <? length inp)%nat eqn:E1.
    + apply Nat.ltb_lt in E1.
      destruct (0 <? length (Automaton.currentStates B))%nat eqn:E2.
      * apply Nat.ltb_lt in E2. cbn [andb].
        destruct (DFA.step h B) as [[B1 b]|] eqn:Hstep; [|done].
        destruct (DFA_step_follows h A inp k B B1 b Hfo E1) as (k1 & Hfo1 & Hk1);
          [|done|].
        { intros HE. rewrite HE in E2. simpl in E2. lia. }
        destruct (Automaton.run_loop DFA.step h budget B1) as [[B2 m]|] eqn:Hloop;
          [|done].
        intros [= <- <-].
        destruct Hk1 as [->|Hempty].
        -- apply (IH (S k) B1 m Hfo1); [lia|done].
        -- exists k1. split; [|right].
           ++ destruct budget as [|budget']; simpl in Hloop.
              ** by injection Hloop as <- <-.
              ** rewrite Hempty in Hloop. simpl in Hloop.
                 rewrite andb_false_r in Hloop. by injection Hloop as <- <-.
           ++ destruct budget as [|budget']; simpl in Hloop.
              ** by injection Hloop as <- <-.
              ** rewrite Hempty in Hloop. simpl in Hloop.
                 rewrite andb_false_r in Hloop. by injection Hloop as <- <-.
      * apply Nat.ltb_ge in E2. simpl. intros [= <- <-]. exists k.
        split; [done|]. right.
        destruct (Automaton.currentStates B); [done|simpl in E2; lia].
    + apply Nat.ltb_ge in E1. simpl. intros [= <- <-]. exists k.
      split; [done|]. left. lia.
Qed.

(** X17.  [DFA.accepts(input)] on an input of at most 1000 symbols, when it
    returns (it throws if the transition it picks has no target): the
    verdict is decided; if it is [true], a path of transitions from the
    initial state, one that accepts each input symbol in turn, ends in a
    state object that has the id of a final state; and if the automaton
    is deterministic, the verdict is [true] whenever such a path
    exists. *)
Theorem DFA_accepts_iff_accepting_walk
    (h : heap) (A A' : Automaton.t) (inp : list string)
    (v : Automaton.verdict) :
  (length inp <= 1000)%nat ->
  DFA.accepts h inp A = Some (A', v) ->
  exists b,
    v = Some b
    /\ (b = true ->
        exists i0 l, Automaton.initialState A = Some i0
                     /\ walks h A i0 inp l /\ finalId h A l)
    /\ (deterministic h A ->
        (exists i0 l, Automaton.initialState A = Some i0
                      /\ walks h A i0 inp l /\ finalId h A l) ->
        b = true).
Proof.
  intros Hlen. unfold DFA.accepts, Automaton.accepts, Automaton.run.
  cbn [fst].
  set (B0 := Automaton.set_isRunning true (Automaton.initSimulation inp A).1).
  assert (Hfo0 : follows h A inp 0 B0).
  { unfold B0, Automaton.initSimulation, Automaton.resetSimulation.
    destruct A as [ty ss ts al ini cs i idx r acc]. cbn.
    destruct ini as [i0|]; cbn.
    - constructor; cbn; try done; [lia|].
      left. exists i0, i0. split_and!; [done| |].
      * unfold JS.set_add. by rewrite bool_decide_eq_true_2 by left.
      * rewrite take_0. apply walks_start.
    - constructor; cbn; try done; [lia|].
      right. split; [done|]. intros _ i0 l Hi0. done. }
  clearbody B0.
  destruct (Automaton.run_loop DFA.step h 1000 B0) as [[B1 n]|] eqn:Hloop;
    [|done].
  destruct (DFA_run_loop_follows h A inp 1000 0 B0 B1 n Hfo0) as (k' & Hfo & Hexit);
    [lia|done|].
  intros [= <- <-].
  destruct Hfo as [Hsame Hinp Hidx Hbound Hact].
  assert (Hfinal : forall l, finalId h (Automaton.set_isRunning false B1) l
                             <-> finalId h A l).
  { intros l. destruct Hsame as (Hs & _ & _). unfold finalId.
    destruct B1; cbn in *. by rewrite Hs. }
  unfold Automaton.checkAcceptance.
  destruct (JS.some _ _) eqn:Hsome.
  - exists true. split; [by destruct B1|].
    apply some_final in Hsome as (l & Hl & Hf). apply Hfinal in Hf.
    assert (Hl' : l ∈ Automaton.currentStates B1) by (by destruct B1).
    destruct Hact as [(i0 & q & Hi0 & Hq & Hwalk)|[Hempty _]].
    2:{ rewrite Hempty in Hl'. by apply elem_of_nil in Hl'. }
    rewrite Hq in Hl'. apply list_elem_of_singleton in Hl' as ->.
    destruct Hexit as [->|Hempty]; [|congruence].
    rewrite firstn_all in Hwalk.
    split; [|done]. intros _. by exists i0, q.
  - exists false. split; [by destruct B1|]. split; [done|].
    intros Hdet (i0 & l & Hi0 & Hwalk & Hf). exfalso.
    destruct Hact as [(i & q & Hi & Hq & Hwalkq)|[Hempty Hno]].
    + destruct Hexit as [->|Hempty]; [|congruence].
      rewrite firstn_all in Hwalkq.
      rewrite Hi0 in Hi. injection Hi as <-.
      rewrite (walks_unique h A i0 inp l q Hdet Hwalk Hwalkq) in Hf.
      assert (Htrue : JS.some
                (fun state =>
                   JS.some (fun f => bool_decide (Automaton.idAt h f
                                                  = Automaton.idAt h state))
                     (Automaton.getFinalStates h
                        (Automaton.set_isRunning false B1)))
                (Automaton.currentStates (Automaton.set_isRunning false B1))
              = true).
      { apply some_final. exists q. split; [|by apply Hfinal].
        destruct B1; cbn in *. rewrite Hq. left. }
      congruence.
    + by eapply Hno.
Qed.

Lemma DFA_accepts_iff_accepting_walk_witness :
  exists b,
    Some true = Some b
    /\ (b = true ->
        exists i0 l, Automaton.initialState abplus_dfa = Some i0
                     /\ walks three_heap abplus_dfa i0 ["a"; "b"] l
                     /\ finalId three_heap abplus_dfa l)
    /\ (deterministic three_heap abplus_dfa ->
        (exists i0 l, Automaton.initialState abplus_dfa = Some i0
                      /\ walks three_heap abplus_dfa i0 ["a"; "b"] l
                      /\ finalId three_heap abplus_dfa l) ->
        b = true).
Proof.
  apply (DFA_accepts_iff_accepting_walk three_heap abplus_dfa
           (default abplus_dfa
              (fst <$> DFA.accepts three_heap ["a"; "b"] abplus_dfa))
           ["a"; "b"] (Some true)).
  - simpl. lia.
  - vm_compute. reflexivity.
Defined.

(** ** Configurations and the stack of the PDA *)

Lemma elem_of_concat {A} (x : A) (ls : list (list A)) :
  x ∈ concat ls <-> exists l, l ∈ ls /\ x ∈ l.
Proof.
  rewrite list_elem_of_In, in_concat. split.
  - intros (l & Hl & Hx). exists l. by rewrite !list_elem_of_In.
  - intros (l & Hl & Hx). exists l. by rewrite <- !list_elem_of_In.
Qed.

Lemma PDA_checkAcceptance_fields h P :
  PDA.configurations (PDA.checkAcceptance h P) = PDA.configurations P
  /\ Automaton.input (PDA.base (PDA.checkAcceptance h P))
     = Automaton.input (PDA.base P).
Proof.
  unfold PDA.checkAcceptance. cbv zeta.
  destruct (_ =? 0)%nat; [done|].
  destruct (_ && _); [done|].
  destruct (_ && _); done.
Qed.

Lemma fire_inputIndex h P c t c' :
  c' ∈ PDA.fire h P c t ->
  (PDA.c_inputIndex c <= length (Automaton.input (PDA.base P)))%nat ->
  (PDA.c_inputIndex c' <= length (Automaton.input (PDA.base P)))%nat.
Proof.
  unfold PDA.fire. cbv zeta. intros Hin Hle.
  apply elem_of_app in Hin as [Hin|Hin].
  - destruct (_ && _); [|by apply elem_of_nil in Hin].
    destruct (Automaton.resolve _ _ _); [|by apply elem_of_nil in Hin].
    apply list_elem_of_singleton in Hin as ->. done.
  - destruct (PDA.c_inputIndex c <? _)%nat eqn:E.
    + apply Nat.ltb_lt in E.
      destruct (_ && _); [|by apply elem_of_nil in Hin].
      destruct (Automaton.resolve _ _ _); [|by apply elem_of_nil in Hin].
      apply list_elem_of_singleton in Hin as ->. simpl. lia.
    + rewrite bool_decide_eq_false_2 in Hin by (intros H; by apply H).
      simpl in Hin. by apply elem_of_nil in Hin.
Qed.

Lemma expand_inputIndex h P c c' :
  c' ∈ PDA.expand h P c ->
  (PDA.c_inputIndex c' <= length (Automaton.input (PDA.base P)))%nat.
Proof.
  unfold PDA.expand. destruct (_ <? _)%nat eqn:E; [by intros ?%elem_of_nil|].
  apply Nat.ltb_ge in E.
  intros (l & Hl & Hc')%elem_of_concat.
  apply list_elem_of_fmap in Hl as (t & -> & _).
  by eapply fire_inputIndex.
Qed.

Lemma PDA_step_fields h P :
  Automaton.input (PDA.base (PDA.step h P).1) = Automaton.input (PDA.base P)
  /\ (configsInRange P -> configsInRange (PDA.step h P).1).
Proof.
  unfold PDA.step.
  destruct (PDA.configurations P) as [|c0 cs] eqn:Hcs.
  { cbn [fst]. destruct (PDA_checkAcceptance_fields h
      (PDA.set_base (Automaton.set_isRunning false (PDA.base P)) P)) as [Hc Hi].
    split; [by rewrite Hi|].
    unfold configsInRange. rewrite Hc, Hi. simpl. by rewrite Hcs. }
  set (new := concat (PDA.expand h P <$> c0 :: cs)).
  assert (Hnew : forall c, c ∈ new ->
            (PDA.c_inputIndex c <= length (Automaton.input (PDA.base P)))%nat).
  { intros c (l & Hl & Hc)%elem_of_concat.
    apply list_elem_of_fmap in Hl as (c1 & -> & _).
    by eapply expand_inputIndex. }
  clearbody new. cbv zeta.
  destruct new as [|n0 new'].
  { cbn. split; [done|]. intros _ c Hc. by apply elem_of_nil in Hc. }
  cbn [PDA.base PDA.set_base PDA.set_stack PDA.set_configurations
       PDA.configurations Automaton.input Automaton.set_inputIndex
       Automaton.set_currentStates].
  destruct (JS.every _ _).
  - match goal with |- context [PDA.checkAcceptance h ?Q] =>
      destruct (PDA_checkAcceptance_fields h Q) as [Hc Hi];
      set (P' := PDA.checkAcceptance h Q) in *
    end.
    assert (Hfst : forall b1 b2 : bool,
              (match Automaton.isAccepted (PDA.base P') with
               | Some _ => (P', b1) | None => (P', b2) end).1 = P').
    { intros. by destruct (Automaton.isAccepted _). }
    rewrite Hfst. clearbody P'. split; [by rewrite Hi|].
    intros _. unfold configsInRange. rewrite Hc, Hi. exact Hnew.
  - cbn. split; [done|]. intros _. exact Hnew.
Qed.

Lemma PDA_run_loop_fields h budget P :
  Automaton.input (PDA.base (PDA.run_loop h budget P).1)
  = Automaton.input (PDA.base P)
  /\ (configsInRange P -> configsInRange (PDA.run_loop h budget P).1).
Proof.
  revert P. induction budget as [|budget IH]; intros P; simpl; [done|].
  destruct (PDA.configurations P) eqn:Hcs; [done|].
  destruct (PDA_step_fields h P) as [Hi Hr].
  destruct (PDA.step h P) as [P1 progress]. cbn [fst] in Hi, Hr.
  destruct (bool_decide _); [done|].
  destruct progress; simpl; [|done].
  destruct (IH P1) as [Hi1 Hr1].
  destruct (PDA.run_loop h budget P1) as [P2 n]. cbn [fst] in *.
  split; [congruence|auto].
Qed.

(** X22.  Throughout a run that starts with [initSimulation], no configuration
    of the PDA has an [inputIndex] beyond the length of the input: the
    simulation never reads past the end of the input, and the guard
    [inputIndex > this.input.length] of [step] never fires. *)
Theorem PDA_run_stays_in_input
    (h : heap) (inp : list string) (P : PDA.t) (maxSteps : nat) :
  let P' := (PDA.run h maxSteps (PDA.initSimulation inp P).1).1 in
  Automaton.input (PDA.base P') = inp
  /\ forall c, c ∈ PDA.configurations P' ->
               (PDA.c_inputIndex c <= length inp)%nat.
Proof.
  intros P'.
  set (P0 := (PDA.initSimulation inp P).1).
  assert (H0 : Automaton.input (PDA.base P0) = inp /\ configsInRange P0).
  { unfold P0, PDA.initSimulation. cbv zeta.
    cbn [PDA.base PDA.set_base PDA.set_stack PDA.set_configurations
         Automaton.initialState Automaton.set_currentStates
         Automaton.set_isAccepted Automaton.set_isRunning
         Automaton.set_inputIndex Automaton.set_input].
    destruct (Automaton.initialState (PDA.base P)); cbn.
    - split; [done|]. intros c ->%list_elem_of_singleton. simpl. lia.
    - split; [done|]. intros c Hc. by apply elem_of_nil in Hc. }
  destruct H0 as [Hinp Hrange].
  assert (H1 : Automaton.input (PDA.base P') = inp /\ configsInRange P').
  { unfold P', PDA.run. fold P0.
    destruct (PDA_run_loop_fields h maxSteps
                (PDA.set_base (Automaton.set_isRunning true (PDA.base P0)) P0))
      as [Hi Hr].
    destruct (PDA.run_loop _ _ _) as [P1 n]. cbn [fst] in *.
    unfold PDA.run_end. cbv zeta.
    assert (Hr1 : configsInRange P1) by (apply Hr; exact Hrange).
    assert (Hi1 : Automaton.input (PDA.base P1) = inp) by (rewrite Hi; exact Hinp).
    destruct (Automaton.isAccepted _).
    - split; [exact Hi1|exact Hr1].
    - match goal with |- context [PDA.checkAcceptance h ?Q] =>
        destruct (PDA_checkAcceptance_fields h Q) as [Hc Hi2] end.
      unfold configsInRange. rewrite Hc, Hi2. split; [exact Hi1|exact Hr1]. }
  destruct H1 as [Hi Hr]. split; [done|].
  intros c Hc. specialize (Hr c Hc). by rewrite Hi in Hr.
Qed.




(** ** The tape after [initSimulation]; a step of the Turing machine *)

Lemma initSimulation_tape h inp M :
  let M' := (TuringMachine.initSimulation h inp M).1 in
  TuringMachine.tape M'
  = replicate 10 (Some (TuringMachine.blankSymbol M))
    ++ (Some <$> inp) ++ replicate 11 (Some (TuringMachine.blankSymbol M))
  /\ TuringMachine.visibleTapeStart M' = -10
  /\ TuringMachine.headPosition M' = 10%nat
  /\ TuringMachine.blankSymbol M' = TuringMachine.blankSymbol M.
Proof.
  unfold TuringMachine.initSimulation. cbv zeta.
  assert (Hafter : Z.to_nat (Z.max 10 (Z.of_nat (length inp) + 10)
                             - Z.of_nat (length inp) + 1) = 11%nat) by lia.
  destruct (Automaton.initialState _) as [i|];
    cbn [fst TuringMachine.tape TuringMachine.visibleTapeStart
         TuringMachine.headPosition TuringMachine.blankSymbol
         TuringMachine.set_trace TuringMachine.set_base
         TuringMachine.initializeTape TuringMachine.set_headPosition
         TuringMachine.set_tapeAlphabet TuringMachine.set_tape
         TuringMachine.set_visibleTapeEnd TuringMachine.set_visibleTapeStart
         TuringMachine.visibleTapeEnd];
    rewrite Hafter; done.
Qed.

(** X24.  [initSimulation(input)] lays the input on the logical cells
    [0 .. input.length - 1], leaves the blank symbol on every other cell,
    and puts the head on cell [0]: the symbol under the head is the first
    input symbol, or the blank for the empty input. *)
Theorem initSimulation_lays_input
    (h : heap) (inp : list string) (M : TuringMachine.t) :
  let M' := (TuringMachine.initSimulation h inp M).1 in
  (forall k s, inp !! k = Some s ->
               TuringMachine.getTapeCell (Z.of_nat k) M' = Some s)
  /\ (forall p, p < 0 \/ Z.of_nat (length inp) <= p ->
                TuringMachine.getTapeCell p M'
                = Some (TuringMachine.blankSymbol M))
  /\ Z.of_nat (TuringMachine.headPosition M')
     + TuringMachine.visibleTapeStart M' = 0
  /\ TuringMachine.getCurrentSymbol M'
     = Some (default (TuringMachine.blankSymbol M) (head inp)).
Proof.
  intros M'. destruct (initSimulation_tape h inp M) as (Htape & Hs & Hh & Hb).
  fold M' in Htape, Hs, Hh, Hb.
  set (blank := TuringMachine.blankSymbol M) in *.
  assert (Hlen : length (TuringMachine.tape M') = (length inp + 21)%nat).
  { rewrite Htape, !length_app, !length_replicate, length_fmap. lia. }
  assert (Hin : forall k s, inp !! k = Some s ->
                  TuringMachine.getTapeCell (Z.of_nat k) M' = Some s).
  { intros k s Hk. pose proof (lookup_lt_Some _ _ _ Hk) as Hlt.
    rewrite getTapeCell_inside by lia. rewrite Hs, Htape.
    unfold TuringMachine.cell.
    replace (Z.to_nat (Z.of_nat k - -10)) with (10 + k)%nat by lia.
    rewrite lookup_app_r by (rewrite length_replicate; lia).
    rewrite length_replicate.
    replace (10 + k - 10)%nat with k by lia.
    rewrite lookup_app_l by (rewrite length_fmap; lia).
    rewrite list_lookup_fmap, Hk. done. }
  assert (Hout : forall p, p < 0 \/ Z.of_nat (length inp) <= p ->
                   TuringMachine.getTapeCell p M' = Some blank).
  { intros p Hp.
    destruct (decide (-10 <= p < Z.of_nat (length inp) + 11)) as [Hmat|Hno].
    - rewrite getTapeCell_inside by lia. rewrite Hs, Htape.
      unfold TuringMachine.cell.
      destruct Hp as [Hneg|Hpos].
      + rewrite lookup_app_l by (rewrite length_replicate; lia).
        rewrite lookup_replicate_2 by lia. done.
      + rewrite lookup_app_r by (rewrite length_replicate; lia).
        rewrite length_replicate.
        rewrite lookup_app_r by (rewrite length_fmap; lia).
        rewrite length_fmap.
        rewrite lookup_replicate_2 by lia. done.
    - rewrite getTapeCell_outside by lia. by rewrite Hb. }
  split_and!; [done|done|lia|].
  unfold TuringMachine.getCurrentSymbol. rewrite Hh, Hs.
  change (Z.of_nat 10 + -10) with (Z.of_nat 0).
  destruct inp as [|s inp']; simpl.
  - apply Hout. simpl. lia.
  - by apply Hin.
Qed.

Lemma tapeOf_getTapeCell M1 M2 p :
  tapeOf M1 = tapeOf M2 ->
  TuringMachine.getTapeCell p M1 = TuringMachine.getTapeCell p M2.
Proof.
  unfold tapeOf, TuringMachine.getTapeCell. intros [= -> _ -> ->]. done.
Qed.

Lemma tapeOf_checkAcceptance h M :
  tapeOf (TuringMachine.checkAcceptance h M) = tapeOf M.
Proof.
  unfold TuringMachine.checkAcceptance.
  destruct (Automaton.currentStates _); [done|].
  by destruct (_ || _).
Qed.

Lemma currentStates_checkAcceptance h M :
  Automaton.currentStates (TuringMachine.base (TuringMachine.checkAcceptance h M))
  = Automaton.currentStates (TuringMachine.base M).
Proof.
  unfold TuringMachine.checkAcceptance.
  destruct (Automaton.currentStates (TuringMachine.base M)) eqn:E;
    [by rewrite <- E|].
  rewrite <- E. by destruct (_ || _).
Qed.

(** A step that takes the transition [t] to the state [n]. *)
Lemma step_taken h M c cs t n :
  Automaton.currentStates (TuringMachine.base M) = c :: cs ->
  Automaton.isHaltAt h c || Automaton.isFinalAt h c = false ->
  JS.find
    (TuringMachine.matches M
       (TuringMachine.cell (TuringMachine.tape M) (TuringMachine.headPosition M)))
    (Automaton.getTransitionsFrom h (TuringMachine.base M) (Obj c)) = Some t ->
  Automaton.resolve h (TuringMachine.base M) (Transition.toState t) = Some n ->
  Automaton.currentStates (TuringMachine.base (TuringMachine.step h M).1) = [n]
  /\ tapeOf (TuringMachine.step h M).1
     = tapeOf
         (TuringMachine.moveHead (directionOf t)
            (TuringMachine.set_tape
               (TuringMachine.assign (TuringMachine.tape M)
                  (TuringMachine.headPosition M)
                  (asWritten (TuringMachine.blankSymbol M)
                     <$> match Transition.or_null (Transition.writeSymbol t) with
                         | Some s => Some s
                         | None =>
                             TuringMachine.cell (TuringMachine.tape M)
                               (TuringMachine.headPosition M)
                         end))
               M)).
Proof.
  intros Hcs Hnot Hfind Hres. unfold TuringMachine.step.
  rewrite Hcs, Hnot, Hfind, Hres. split.
  - destruct (Automaton.isHaltAt h n || Automaton.isFinalAt h n); cbn [fst];
      rewrite ?currentStates_checkAcceptance; done.
  - assert (Hw : forall (cur : option string) (o : option string),
               match match o with Some s => Some s | None => cur end with
               | Some s =>
                   if String.eqb s "□" || String.eqb s "_"
                      || String.eqb s EmptyString
                   then Some (TuringMachine.blankSymbol M) else Some s
               | None => None
               end
               = asWritten (TuringMachine.blankSymbol M)
                   <$> match o with Some s => Some s | None => cur end).
    { intros cur [s|]; [|destruct cur as [s|]; [|done]];
        unfold asWritten; simpl;
        by destruct (String.eqb s "□" || String.eqb s "_"
                     || String.eqb s EmptyString). }
    rewrite Hw. fold (directionOf t).
    destruct (Automaton.isHaltAt h n || Automaton.isFinalAt h n); cbn [fst];
      rewrite ?tapeOf_checkAcceptance; done.
Qed.

(** What a step does to the tape: nothing, or the write and the head
    move of a transition. *)
Lemma step_tapeOf h M :
  tapeOf (TuringMachine.step h M).1 = tapeOf M
  \/ exists v d,
       tapeOf (TuringMachine.step h M).1
       = tapeOf
           (TuringMachine.moveHead d
              (TuringMachine.set_tape
                 (TuringMachine.assign (TuringMachine.tape M)
                    (TuringMachine.headPosition M) v) M))
       /\ (is_Some (TuringMachine.cell (TuringMachine.tape M)
                      (TuringMachine.headPosition M)) -> is_Some v).
Proof.
  destruct (Automaton.currentStates (TuringMachine.base M)) as [|c cs] eqn:Hcs.
  { left. unfold TuringMachine.step. rewrite Hcs. cbn [fst].
    by rewrite tapeOf_checkAcceptance. }
  destruct (Automaton.isHaltAt h c || Automaton.isFinalAt h c) eqn:Hnot.
  { left. unfold TuringMachine.step. rewrite Hcs, Hnot. cbn [fst].
    by rewrite tapeOf_checkAcceptance. }
  destruct (JS.find
    (TuringMachine.matches M
       (TuringMachine.cell (TuringMachine.tape M) (TuringMachine.headPosition M)))
    (Automaton.getTransitionsFrom h (TuringMachine.base M) (Obj c)))
    as [t|] eqn:Hfind.
  2:{ left. unfold TuringMachine.step. by rewrite Hcs, Hnot, Hfind. }
  destruct (Automaton.resolve h (TuringMachine.base M) (Transition.toState t))
    as [n|] eqn:Hres.
  2:{ left. unfold TuringMachine.step. by rewrite Hcs, Hnot, Hfind, Hres. }
  right. destruct (step_taken h M c cs t n Hcs Hnot Hfind Hres) as [_ Heq].
  eexists. eexists. split; [exact Heq|].
  intros [s Hs]. rewrite Hs.
  destruct (Transition.or_null _); by eexists.
Qed.

Lemma write_getTapeCell M v q :
  (TuringMachine.headPosition M < length (TuringMachine.tape M))%nat ->
  TuringMachine.getTapeCell q
    (TuringMachine.set_tape
       (TuringMachine.assign (TuringMachine.tape M)
          (TuringMachine.headPosition M) v) M)
  = if decide (q = headAt M) then v else TuringMachine.getTapeCell q M.
Proof.
  intros Hin. unfold TuringMachine.assign.
  apply Nat.ltb_lt in Hin as Hin'. rewrite Hin'. unfold headAt.
  set (s := TuringMachine.visibleTapeStart M).
  set (n := Z.of_nat (length (TuringMachine.tape M))).
  destruct (decide (s <= q < s + n)) as [Hq|Hq].
  - rewrite getTapeCell_inside
      by (cbn [TuringMachine.tape TuringMachine.set_tape
               TuringMachine.visibleTapeStart]; rewrite length_insert;
          fold s n; lia).
    cbn [TuringMachine.tape TuringMachine.set_tape
         TuringMachine.visibleTapeStart]. fold s.
    unfold TuringMachine.cell.
    destruct (decide _) as [->|Hne].
    + replace (Z.to_nat (Z.of_nat (TuringMachine.headPosition M) + s - s))
        with (TuringMachine.headPosition M) by lia.
      rewrite list_lookup_insert_eq by done. done.
    + rewrite list_lookup_insert_ne by lia.
      rewrite (getTapeCell_inside M) by (fold s n; lia). done.
  - rewrite decide_False by lia.
    rewrite getTapeCell_outside
      by (cbn [TuringMachine.tape TuringMachine.set_tape
               TuringMachine.visibleTapeStart]; rewrite length_insert;
          fold s n; lia).
    rewrite (getTapeCell_outside M) by (fold s n; lia). done.
Qed.

Lemma moveHead_headAt d M :
  headAt (TuringMachine.moveHead d M)
  = headAt M + (if String.eqb d "L" then -1
                else if String.eqb d "R" then 1 else 0).
Proof.
  unfold headAt, TuringMachine.moveHead.
  destruct (String.eqb d "L").
  { destruct (TuringMachine.headPosition M) eqn:Hh; simpl; lia. }
  destruct (String.eqb d "R"); [|lia].
  destruct (_ <=? _)%nat; simpl; lia.
Qed.

Lemma moveHead_inside d M :
  (TuringMachine.headPosition M < length (TuringMachine.tape M))%nat ->
  (TuringMachine.headPosition (TuringMachine.moveHead d M)
   < length (TuringMachine.tape (TuringMachine.moveHead d M)))%nat.
Proof.
  intros Hh. unfold TuringMachine.moveHead.
  destruct (String.eqb d "L").
  { destruct (TuringMachine.headPosition M) eqn:Hp; simpl; lia. }
  destruct (String.eqb d "R"); [|done].
  destruct (_ <=? _)%nat eqn:E; simpl in *.
  - rewrite length_app; simpl; lia.
  - apply Nat.leb_gt in E. done.
Qed.

Lemma tapeOk_tapeOf M1 M2 : tapeOf M1 = tapeOf M2 -> tapeOk M2 -> tapeOk M1.
Proof. unfold tapeOf, tapeOk. intros [= -> -> _ _]. done. Qed.

Lemma moveHead_tapeOk d M : tapeOk M -> tapeOk (TuringMachine.moveHead d M).
Proof.
  intros [Hh Hall]. unfold tapeOk, TuringMachine.moveHead.
  destruct (String.eqb d "L").
  { destruct (TuringMachine.headPosition M) eqn:Hp; simpl.
    - split; [lia|]. constructor; [by eexists|done].
    - split; [lia|done]. }
  destruct (String.eqb d "R"); [|done].
  destruct (_ <=? _)%nat eqn:E; simpl in *.
  - split; [rewrite length_app; simpl; lia|].
    apply Forall_app. split; [done|]. constructor; [by eexists|done].
  - apply Nat.leb_gt in E. done.
Qed.

Lemma step_tapeOk h M : tapeOk M -> tapeOk (TuringMachine.step h M).1.
Proof.
  intros Hok. destruct (step_tapeOf h M) as [Heq|(v & d & Heq & Hv)];
    (eapply tapeOk_tapeOf; [exact Heq|]); [done|].
  apply moveHead_tapeOk. destruct Hok as [Hh Hall].
  assert (Hcell : is_Some (TuringMachine.cell (TuringMachine.tape M)
                             (TuringMachine.headPosition M))).
  { unfold TuringMachine.cell.
    destruct (lookup_lt_is_Some_2 _ _ Hh) as [x Hx]. rewrite Hx.
    rewrite Forall_forall in Hall.
    apply (Hall x). apply list_elem_of_lookup. eauto. }
  unfold tapeOk, TuringMachine.assign. apply Nat.ltb_lt in Hh as Hh'.
  rewrite Hh'. simpl. split; [by rewrite length_insert|].
  apply Forall_insert; [done|]. by apply Hv.
Qed.

Lemma run_loop_tapeOk h budget M :
  tapeOk M -> tapeOk (TuringMachine.run_loop h budget M).1.1.
Proof.
  revert M. induction budget as [|budget IH]; intros M Hok; simpl; [done|].
  pose proof (step_tapeOk h M Hok) as Hstep.
  destruct (TuringMachine.step h M) as [M1 continued]. cbn [fst] in Hstep.
  destruct continued; simpl; [|done].
  destruct (TuringMachine.loopDetected _); [done|].
  specialize (IH M1 Hstep).
  by destruct (TuringMachine.run_loop h budget M1) as [[M2 n] e].
Qed.

Lemma run_tapeOk h maxSteps M :
  tapeOk M -> tapeOk (TuringMachine.run h maxSteps M).1.1.
Proof.
  intros Hok. unfold TuringMachine.run.
  pose proof (run_loop_tapeOk h maxSteps (TuringMachine.set_isRunning true M) Hok)
    as Hloop.
  destruct (TuringMachine.run_loop _ _ _) as [[M1 n] e]. cbn [fst] in *.
  destruct (Automaton.isAccepted _); [done|].
  eapply tapeOk_tapeOf; [apply tapeOf_checkAcceptance|done].
Qed.

(** X27.  Throughout a run that starts with [initSimulation], the head stays on
    a cell of the tape array and every cell holds a symbol: neither [step]
    nor [getTapeCell] ever reads [undefined]. *)
Theorem run_keeps_head_on_tape
    (h : heap) (inp : list string) (M : TuringMachine.t) (maxSteps : nat) :
  let M' :=
    (TuringMachine.run h maxSteps (TuringMachine.initSimulation h inp M).1).1.1 in
  (TuringMachine.headPosition M' < length (TuringMachine.tape M'))%nat
  /\ is_Some (TuringMachine.cell (TuringMachine.tape M')
                (TuringMachine.headPosition M'))
  /\ forall p, is_Some (TuringMachine.getTapeCell p M').
Proof.
  intros M'.
  assert (Hok : tapeOk M').
  { apply run_tapeOk. destruct (initSimulation_tape h inp M) as (Ht & _ & Hh & _).
    split.
    - rewrite Ht, Hh, !length_app, !length_replicate. lia.
    - rewrite Ht. rewrite !Forall_app. split_and!.
      + apply Forall_replicate. by eexists.
      + apply Forall_fmap, Forall_true. intros s. by eexists.
      + apply Forall_replicate. by eexists. }
  clearbody M'. destruct Hok as [Hh Hall].
  assert (Hcell : forall i, (i < length (TuringMachine.tape M'))%nat ->
                    is_Some (TuringMachine.cell (TuringMachine.tape M') i)).
  { intros i Hi. unfold TuringMachine.cell.
    destruct (lookup_lt_is_Some_2 _ _ Hi) as [v Hv]. rewrite Hv.
    rewrite Forall_forall in Hall.
    apply (Hall v). apply list_elem_of_lookup. eauto. }
  split_and!; [done|by apply Hcell|].
  intros p. unfold TuringMachine.getTapeCell.
  destruct (_ || _) eqn:E; [by eexists|].
  apply orb_false_elim in E as [E1 E2].
  apply Z.ltb_ge in E1. apply Z.leb_gt in E2.
  apply Hcell. lia.
Qed.

(** X26.  A step that takes a transition writes under the head and then moves
    it: the cell under the head receives the write symbol of the
    transition (the symbol already there when the transition names none;
    the blank for one of the markers), every other logical cell keeps its
    symbol, the head goes one cell left for ['L'], one right for ['R'] and
    stays otherwise, and the target of the transition is the one current
    state. *)
Theorem step_writes_then_moves
    (h : heap) (M : TuringMachine.t) (c : nat) (cs : list nat)
    (t : Transition.t) (n : nat) :
  Automaton.currentStates (TuringMachine.base M) = c :: cs ->
  Automaton.isHaltAt h c || Automaton.isFinalAt h c = false ->
  JS.find
    (TuringMachine.matches M
       (TuringMachine.cell (TuringMachine.tape M) (TuringMachine.headPosition M)))
    (Automaton.getTransitionsFrom h (TuringMachine.base M) (Obj c)) = Some t ->
  Automaton.resolve h (TuringMachine.base M) (Transition.toState t) = Some n ->
  (TuringMachine.headPosition M < length (TuringMachine.tape M))%nat ->
  let M1 := (TuringMachine.step h M).1 in
  Automaton.currentStates (TuringMachine.base M1) = [n]
  /\ TuringMachine.getTapeCell (headAt M) M1
     = asWritten (TuringMachine.blankSymbol M)
         <$> match Transition.or_null (Transition.writeSymbol t) with
             | Some s => Some s
             | None => TuringMachine.getTapeCell (headAt M) M
             end
  /\ (forall q, q <> headAt M ->
                TuringMachine.getTapeCell q M1 = TuringMachine.getTapeCell q M)
  /\ headAt M1
     = headAt M + (if String.eqb (directionOf t) "L" then -1
                   else if String.eqb (directionOf t) "R" then 1 else 0)
  /\ (TuringMachine.headPosition M1 < length (TuringMachine.tape M1))%nat.
Proof.
  intros Hcs Hnot Hfind Hres Hin M1.
  destruct (step_taken h M c cs t n Hcs Hnot Hfind Hres) as [Hcur Heq].
  fold M1 in Hcur, Heq.
  assert (Hcell : TuringMachine.cell (TuringMachine.tape M)
                    (TuringMachine.headPosition M)
                  = TuringMachine.getTapeCell (headAt M) M).
  { unfold headAt. rewrite getTapeCell_inside by lia. f_equal. lia. }
  rewrite Hcell in Heq.
  set (v := asWritten _ <$> _) in *.
  set (Mw := TuringMachine.set_tape _ M) in Heq.
  split_and!.
  - done.
  - rewrite (tapeOf_getTapeCell _ _ _ Heq), moveHead_getTapeCell.
    unfold Mw. rewrite write_getTapeCell by done. by rewrite decide_True.
  - intros q Hq.
    rewrite (tapeOf_getTapeCell _ _ _ Heq), moveHead_getTapeCell.
    unfold Mw. rewrite write_getTapeCell by done. by rewrite decide_False.
  - transitivity (headAt (TuringMachine.moveHead (directionOf t) Mw)).
    { unfold headAt. by injection Heq as _ -> -> _. }
    rewrite moveHead_headAt. done.
  - assert (Hmw : (TuringMachine.headPosition Mw
                   < length (TuringMachine.tape Mw))%nat).
    { unfold Mw, TuringMachine.assign. apply Nat.ltb_lt in Hin as Hin'.
      rewrite Hin'. simpl. by rewrite length_insert. }
    apply (moveHead_inside (directionOf t)) in Hmw.
    by injection Heq as -> -> _ _.
Qed.

Lemma step_writes_then_moves_witness :
  let M := (TuringMachine.initSimulation flip_heap ["0"; "1"] flip_machine).1 in
  let M1 := (TuringMachine.step flip_heap M).1 in
  let t := rule 0 0 0 "0" "1" "R" in
  Automaton.currentStates (TuringMachine.base M1) = [0%nat]
  /\ TuringMachine.getTapeCell (headAt M) M1
     = asWritten (TuringMachine.blankSymbol M)
         <$> match Transition.or_null (Transition.writeSymbol t) with
             | Some s => Some s
             | None => TuringMachine.getTapeCell (headAt M) M
             end
  /\ (forall q, q <> headAt M ->
                TuringMachine.getTapeCell q M1 = TuringMachine.getTapeCell q M)
  /\ headAt M1
     = headAt M + (if String.eqb (directionOf t) "L" then -1
                   else if String.eqb (directionOf t) "R" then 1 else 0)
  /\ (TuringMachine.headPosition M1 < length (TuringMachine.tape M1))%nat.
Proof.
  apply (step_writes_then_moves flip_heap
           (TuringMachine.initSimulation flip_heap ["0"; "1"] flip_machine).1
           0%nat [] (rule 0 0 0 "0" "1" "R") 0%nat).
  - reflexivity.
  - reflexivity.
  - vm_compute. reflexivity.
  - reflexivity.
  - vm_compute. lia.
Defined.

(** ** The verdict of a run of the Turing machine *)

Lemma TM_checkAcceptance_verdict h M :
  Automaton.isAccepted (TuringMachine.base (TuringMachine.checkAcceptance h M))
  = Some (inFinal h M)
  /\ inFinal h (TuringMachine.checkAcceptance h M) = inFinal h M.
Proof.
  unfold inFinal. rewrite (currentStates_checkAcceptance h M).
  unfold TuringMachine.checkAcceptance.
  destruct (Automaton.currentStates (TuringMachine.base M)) as [|q qs]; [done|].
  destruct (Automaton.isFinalAt h q) eqn:Hf; simpl; [done|].
  by destruct (Automaton.isHaltAt h q).
Qed.

(** A step that returns [false] leaves the verdict decided: [true]
    exactly in a final state. *)
Lemma TM_step_halts h M M1 :
  TuringMachine.step h M = (M1, false) ->
  Automaton.isAccepted (TuringMachine.base M1) = Some (inFinal h M1).
Proof.
  unfold TuringMachine.step.
  destruct (Automaton.currentStates (TuringMachine.base M)) as [|c cs] eqn:Hcs.
  { intros [= <-]. destruct (TM_checkAcceptance_verdict h
      (TuringMachine.set_isRunning false M)) as [-> ->]. done. }
  destruct (Automaton.isHaltAt h c || Automaton.isFinalAt h c) eqn:Hc.
  { intros [= <-]. destruct (TM_checkAcceptance_verdict h
      (TuringMachine.set_isRunning false M)) as [-> ->]. done. }
  apply orb_false_elim in Hc as [_ Hfinal].
  destruct (JS.find _ _) as [t|].
  2:{ intros [= <-]. unfold inFinal. cbn. by rewrite Hcs, Hfinal. }
  destruct (Automaton.resolve _ _ _) as [n|].
  2:{ intros [= <-]. unfold inFinal. cbn. by rewrite Hcs, Hfinal. }
  destruct (Automaton.isHaltAt h n || Automaton.isFinalAt h n); [|done].
  intros [= <-].
  match goal with |- context [TuringMachine.checkAcceptance h ?Q] =>
    destruct (TM_checkAcceptance_verdict h Q) as [-> ->] end.
  done.
Qed.

Lemma TM_run_loop_verdict h budget M :
  Automaton.isAccepted (TuringMachine.base M) = None ->
  let M' := (TuringMachine.run_loop h budget M).1.1 in
  Automaton.isAccepted (TuringMachine.base M') = None
  \/ Automaton.isAccepted (TuringMachine.base M') = Some (inFinal h M').
Proof.
  revert M. induction budget as [|budget IH]; intros M Hnone; simpl; [by left|].
  destruct (TuringMachine.step h M) as [M1 continued] eqn:Hstep.
  destruct continued; simpl.
  - destruct (TM_step_continues h M M1 Hstep) as [Hacc _].
    rewrite Hnone in Hacc.
    destruct (TuringMachine.loopDetected _); simpl; [by left|].
    specialize (IH M1 Hacc).
    by destruct (TuringMachine.run_loop h budget M1) as [[M2 n] e].
  - right. by apply (TM_step_halts h M M1).
Qed.

(** X28.  The verdict of a run that starts with [initSimulation] is always
    decided, and it is [true] exactly when the machine stops in a state
    flagged final -- however the run ended: by a halt, by the loop
    detector or by the step budget. *)
Theorem TM_run_accepts_iff_final
    (h : heap) (inp : list string) (M : TuringMachine.t) (maxSteps : nat) :
  let M' :=
    (TuringMachine.run h maxSteps (TuringMachine.initSimulation h inp M).1).1.1 in
  Automaton.isAccepted (TuringMachine.base M') = Some (inFinal h M').
Proof.
  intros M'. unfold M', TuringMachine.run.
  pose proof (TM_initSimulation_undecided h inp M) as Hnone.
  set (M0 := (TuringMachine.initSimulation h inp M).1) in *. clearbody M0.
  pose proof (TM_run_loop_verdict h maxSteps (TuringMachine.set_isRunning true M0))
    as Hloop.
  destruct (TuringMachine.run_loop h maxSteps _) as [[M1 n] e].
  cbn [fst] in *.
  assert (Hr : Automaton.isAccepted
                 (TuringMachine.base (TuringMachine.set_isRunning false M1))
               = Automaton.isAccepted (TuringMachine.base M1)) by done.
  assert (Hf : inFinal h (TuringMachine.set_isRunning false M1) = inFinal h M1)
    by done.
  destruct Hloop as [Hn|Hs]; [by destruct M0|..].
  - rewrite Hr, Hn.
    destruct (TM_checkAcceptance_verdict h (TuringMachine.set_isRunning false M1))
      as [-> ->]. done.
  - rewrite Hr, Hs. by rewrite Hf.
Qed.

(** ** The tape window of the display *)

Lemma seqZ_snoc (m n : Z) :
  0 <= n -> seqZ m (n + 1) = seqZ m n ++ [m + n].
Proof.
  intros Hn. rewrite seqZ_app by lia. f_equal.
Qed.

Lemma last_fmap_seqZ {A} (f : Z -> A) (m n : Z) :
  0 < n -> last (f <$> seqZ m n) = Some (f (m + n - 1)).
Proof.
  intros Hn. replace n with ((n - 1) + 1) by lia.
  rewrite seqZ_snoc by lia. rewrite fmap_app. simpl.
  rewrite last_snoc. f_equal. f_equal. lia.
Qed.

Lemma padCell_window (M : TuringMachine.t) (start end_ a n : Z) :
  0 <= a <= start -> end_ <= a + n -> 0 < n ->
  start <= Z.of_nat (TuringMachine.headPosition M) < end_ ->
  TuringMachine.padCell (TuringMachine.blankSymbol M)
    (windowCell M start end_ <$> seqZ a n)
  = windowCell M start end_ <$> seqZ (if 0 <? a then a - 1 else a) (n + 1).
Proof.
  intros Ha Hend Hn Hhead. unfold TuringMachine.padCell.
  rewrite last_fmap_seqZ by done.
  rewrite (seqZ_cons a n) by done. cbn [fmap list_fmap].
  cbn [windowCell TuringMachine.dc_index TuringMachine.dc_position].
  destruct (0 <? a) eqn:E.
  - apply Z.ltb_lt in E.
    rewrite (seqZ_cons (a - 1) (n + 1)) by lia. cbn [fmap list_fmap].
    replace (Z.succ (a - 1)) with a by lia.
    replace (Z.pred (n + 1)) with n by lia.
    rewrite (seqZ_cons a n) by done. cbn [fmap list_fmap].
    f_equal. unfold windowCell. f_equal.
    + lia.
    + destruct (start <=? a - 1) eqn:E1; [apply Z.leb_le in E1; lia|done].
    + symmetry. apply Z.eqb_neq. lia.
  - apply Z.ltb_ge in E.
    rewrite (seqZ_snoc a n) by lia. rewrite fmap_app.
    rewrite (seqZ_cons a n) by done. cbn [fmap list_fmap]. f_equal.
    f_equal. unfold windowCell. f_equal.
    + lia.
    + lia.
    + destruct (a + n <? end_) eqn:E1; [apply Z.ltb_lt in E1; lia|].
      by rewrite andb_false_r.
    + symmetry. apply Z.eqb_neq. lia.
Qed.

Lemma padLoop_window (M : TuringMachine.t) (start end_ w : Z) (fuel : nat)
    (a n : Z) :
  0 <= a <= start -> end_ <= a + n -> 0 < n ->
  start <= Z.of_nat (TuringMachine.headPosition M) < end_ ->
  (Z.to_nat (w - n) <= fuel)%nat ->
  TuringMachine.padLoop fuel w (TuringMachine.blankSymbol M)
    (windowCell M start end_ <$> seqZ a n)
  = Some (windowCell M start end_
            <$> seqZ (Z.max 0 (a - Z.max 0 (w - n))) (Z.max n w)).
Proof.
  intros Ha Hend Hn Hhead. revert a n Ha Hend Hn.
  induction fuel as [|fuel IH]; intros a n Ha Hend Hn Hfuel.
  - simpl. rewrite length_fmap, length_seqZ.
    destruct (_ <? w) eqn:E; [apply Z.ltb_lt in E; lia|].
    apply Z.ltb_ge in E. do 3 f_equal; lia.
  - simpl. rewrite length_fmap, length_seqZ.
    destruct (_ <? w) eqn:E.
    + apply Z.ltb_lt in E. rewrite padCell_window by done.
      rewrite IH by (try destruct (0 <? a) eqn:E1;
                     try apply Z.ltb_lt in E1; try apply Z.ltb_ge in E1; lia).
      do 3 f_equal; [|lia].
      destruct (0 <? a) eqn:E1;
        [apply Z.ltb_lt in E1|apply Z.ltb_ge in E1]; lia.
    + apply Z.ltb_ge in E. do 3 f_equal; lia.
Qed.

(** X29.  [getDisplayTape(windowSize)], with the head on a cell of the array:
    the loop that fills the window exits, and the result shows the array
    indices [first .. first + size - 1] in order, each with its logical
    position, the head flagged on its own index and nowhere else.  The
    indices within [windowSize / 2] of the head, as far as the array
    reaches, show the symbol of the tape; the indices added to fill the
    window show the blank symbol, whatever the tape holds there. *)
Theorem getDisplayTape_window (M : TuringMachine.t) (windowSize : Z) :
  (TuringMachine.headPosition M < length (TuringMachine.tape M))%nat ->
  0 <= windowSize ->
  let head := Z.of_nat (TuringMachine.headPosition M) in
  let half := windowSize / 2 in
  let start := Z.max 0 (head - half) in
  let end_ := Z.min (Z.of_nat (length (TuringMachine.tape M))) (head + half + 1) in
  let size := Z.max (end_ - start) windowSize in
  let first := Z.max 0 (Z.min start (end_ - windowSize)) in
  TuringMachine.getDisplayTape (Z.to_nat windowSize) windowSize M
  = Some (windowCell M start end_ <$> seqZ first size).
Proof.
  intros Hin Hw head half start end_ size first.
  unfold TuringMachine.getDisplayTape. fold head half start end_.
  assert (Hhalf : 0 <= half) by (apply Z.div_pos; lia).
  assert (Hcells :
    (fun i => TuringMachine.mkDisplayCell i
                (i + TuringMachine.visibleTapeStart M)
                (TuringMachine.cell (TuringMachine.tape M) (Z.to_nat i))
                (i =? head)) <$> seqZ start (end_ - start)
    = windowCell M start end_ <$> seqZ start (end_ - start)).
  { apply list_fmap_ext. intros k i Hk.
    apply lookup_seqZ in Hk as [-> Hk]. unfold windowCell.
    destruct (start <=? start + Z.of_nat k) eqn:E1;
      [|apply Z.leb_gt in E1; lia].
    destruct (start + Z.of_nat k <? end_) eqn:E2;
      [|apply Z.ltb_ge in E2; lia].
    done. }
  rewrite Hcells.
  rewrite (padLoop_window M start end_ windowSize) by lia.
  unfold size, first. do 3 f_equal. lia.
Qed.

Lemma getDisplayTape_window_witness :
  TuringMachine.getDisplayTape 21 21 ones_machine
  = Some (windowCell ones_machine 12 23 <$> seqZ 2 21).
Proof.
  apply (getDisplayTape_window ones_machine 21).
  - vm_compute. lia.
  - lia.
Defined.

(** On that machine the window of 21 cells starts at array index 2; it
    shows the cells 12 to 22 from the tape and fills the cells 2 to 11
    with blanks, although the cells 10 and 11 (the logical positions 0
    and 1) hold the ['1'] that the machine wrote there. *)
Example getDisplayTape_fills_over_symbols :
  (fun c => (TuringMachine.dc_position c, TuringMachine.dc_symbol c,
             TuringMachine.getTapeCell (TuringMachine.dc_position c)
               ones_machine))
    <$> (TuringMachine.getDisplayTape 21 21 ones_machine ≫= (.!! 8%nat))
  = Some (0, Some "□", Some "1").
Proof. by vm_compute. Qed.

(** ** Transitions labelled with ['ε'] or the empty string *)

(** C10 as stated fails, in two ways.
    - The transition labelled [''] and ['a'] is no ε-transition:
      [isEpsilon()] is [false] for it, [epsilonClosure] does not follow
      it, and its NFA rejects the empty input, which the NFA with an
      ε-transition in its place accepts.
    - An ε-transition consumes the input character ['ε']: [step] takes it
      on that symbol and advances [inputIndex]. *)
Lemma epsilon_label_not_purely_epsilon :
  (EmptyString ∈ Transition.symbols empty_and_a
   /\ Transition.isEpsilon empty_and_a = false
   /\ NFA.epsilonClosure eps_heap empty_and_a_nfa [Obj 0%nat] = [0%nat]
   /\ snd <$> NFA.accepts eps_heap [] empty_and_a_nfa = Some (Some false)
   /\ snd <$> NFA.accepts eps_heap [] eps_nfa = Some (Some true))
  /\ (let A := (NFA.initSimulation eps_heap ["ε"] eps_nfa).1 in
      "ε" ∈ Transition.symbols (edge 0 0 1 ["ε"])
      /\ Automaton.transitions A = [edge 0 0 1 ["ε"]]
      /\ Automaton.input A !! Automaton.inputIndex A = Some "ε"
      /\ (NFA.move eps_heap A (Automaton.currentStates A) (Some "ε")).2
         = [edge 0 0 1 ["ε"]]
      /\ (fun r => (Automaton.inputIndex r.1, Automaton.currentStates r.1, r.2))
           <$> NFA.step eps_heap A
         = Some (1%nat, [1%nat], true)).
Proof.
  split.
  - split; [|by vm_compute]. apply list_elem_of_here.
  - split; [|by vm_compute]. apply list_elem_of_here.
Qed.

(** C10, amended.  A transition whose [symbols] contain ['ε'] or the empty
    string rejects every ordinary symbol (one that is neither [null], ['']
    nor ['ε']), even a symbol listed among its [symbols]; hence [NFA.step]
    never records such a transition among the transitions used to consume
    an ordinary input symbol.  It accepts [null], [''] and ['ε'], so a step
    on the input character ['ε'] enters its target.  [isEpsilon()] holds
    for it -- and the ε-closure of its source then contains its target --
    exactly when its [symbols] contain ['ε'] or are the empty string
    alone. *)
Theorem accepts_epsilon_rejects_ordinary
    (t : Transition.t) (h : heap) (A : Automaton.t) (from : list loc) :
  "ε" ∈ Transition.symbols t \/ EmptyString ∈ Transition.symbols t ->
  (forall s, s <> None -> s <> Some EmptyString -> s <> Some "ε" ->
     Transition.accepts t s = false /\ t ∉ (NFA.move h A from s).2)
  /\ (Transition.accepts t None = true
      /\ Transition.accepts t (Some EmptyString) = true
      /\ Transition.accepts t (Some "ε") = true)
  /\ (forall q r,
        q ∈ from -> t ∈ Automaton.getTransitionsFrom h A (Obj q) ->
        Automaton.resolve h A (Transition.toState t) = Some r ->
        r ∈ (NFA.move h A from (Some "ε")).1)
  /\ (Transition.isEpsilon t = true
      <-> "ε" ∈ Transition.symbols t \/ Transition.symbols t = [EmptyString])
  /\ (forall q r,
        Transition.isEpsilon t = true ->
        t ∈ Automaton.getTransitionsFrom h A (Obj q) ->
        Automaton.resolve h A (Transition.toState t) = Some r ->
        r ∈ NFA.epsilonClosure h A [Obj q]).
Proof.
  intros Heps.
  assert (Hlike := accepts_epsilon_like t).
  split_and!.
  - intros s Hnull Hempty Hepsilon.
    assert (Hrej : Transition.accepts t s = false).
    { rewrite Hlike by done.
      destruct s as [c|]; [|done].
      apply orb_false_intro; apply String.eqb_neq; congruence. }
    split; [done|].
    intros Hused%move_used_accepts. congruence.
  - by rewrite Hlike.
  - by rewrite Hlike.
  - by rewrite Hlike.
  - intros q r Hq Ht Hres. apply elem_of_move. exists q. split; [done|].
    apply elem_of_transitionsFrom in Ht as [Ht Hfrom].
    exists t. split_and!; try done. by rewrite Hlike.
  - unfold Transition.isEpsilon. split.
    + intros [[Hlen|Hin]%orb_true_iff|Hone]%orb_true_iff.
      * apply Nat.eqb_eq in Hlen.
        destruct (Transition.symbols t); [|done].
        destruct Heps as [H|H]; by apply elem_of_nil in H.
      * left. by apply includes_spec.
      * apply andb_true_iff in Hone as [Hlen Hhead].
        apply Nat.eqb_eq in Hlen.
        destruct (Transition.symbols t) as [|s [|s' l]]; try done.
        apply String.eqb_eq in Hhead as ->. by right.
    + intros [Hin| ->].
      * apply includes_spec in Hin. rewrite Hin. by rewrite orb_true_r.
      * done.
  - intros q r Hiseps Ht Hres. apply mem_epsilonClosure.
    apply rtc_once. apply elem_of_transitionsFrom in Ht as [Ht Hfrom].
    by exists t.
Qed.

(** The transition labelled ['ε'] and ['a'] of an NFA that is ready to
    read ['a']. *)
Lemma accepts_epsilon_rejects_ordinary_witness :
  (Transition.accepts epsilon_and_a (Some "a") = false
   /\ epsilon_and_a
        ∉ (NFA.move a_star_heap epsilon_and_a_nfa [0%nat] (Some "a")).2)
  /\ Transition.accepts epsilon_and_a (Some "ε") = true
  /\ 0%nat ∈ (NFA.move a_star_heap epsilon_and_a_nfa [0%nat] (Some "ε")).1
  /\ 0%nat ∈ NFA.epsilonClosure a_star_heap epsilon_and_a_nfa [Obj 0%nat].
Proof.
  destruct (accepts_epsilon_rejects_ordinary epsilon_and_a
              a_star_heap epsilon_and_a_nfa [0%nat])
    as (Hord & (_ & _ & Heps) & Hmove & Hiff & Hclosure).
  { left. apply list_elem_of_here. }
  split; [apply (Hord (Some "a")); discriminate|].
  split_and!.
  - done.
  - apply (Hmove 0%nat 0%nat); [apply list_elem_of_here| |done].
    vm_compute. apply list_elem_of_here.
  - apply (Hclosure 0%nat 0%nat); [|vm_compute; apply list_elem_of_here|done].
    apply Hiff. left. apply list_elem_of_here.
Defined.

(** ** How [run] leaves its loop, and the verdict when the budget runs out *)













(** ** Scenarios of the specification *)

(** S1: the DFA for [(ab)+] accepts ["ab"] and ["abab"] and rejects [""],
    ["a"], ["abb"] and ["ba"]. *)
Example scenario_S1 :
  (fun w => snd <$> DFA.accepts three_heap w abplus_dfa)
    <$> [["a"; "b"]; ["a"; "b"; "a"; "b"]; []; ["a"]; ["a"; "b"; "b"]; ["b"; "a"]]
  = Some <$> [Some true; Some true; Some false; Some false; Some false; Some false].
Proof. by vm_compute. Qed.

(** S2: the NFA for [a*b] accepts ["b"], ["ab"] and ["aaab"] and rejects
    [""], ["a"] and ["ba"]. *)
Example scenario_S2 :
  (fun w => snd <$> NFA.accepts three_heap w astarb_nfa)
    <$> [["b"]; ["a"; "b"]; ["a"; "a"; "a"; "b"]; []; ["a"]; ["b"; "a"]]
  = Some <$> [Some true; Some true; Some true; Some false; Some false; Some false].
Proof. by vm_compute. Qed.

(** S3: the DFA that [toDFA] builds from the NFA of S2 (its loop exits
    after three iterations) decides the inputs [""], ["a"], ["b"], ["ab"],
    ["aaab"] and ["ba"] as the NFA does. *)
Example scenario_S3 :
  (fun w =>
     wD ← NFA.toDFA 3 (mkWorld three_heap 3 3) astarb_nfa;
     snd <$> DFA.accepts (objs wD.1) w wD.2)
    <$> [[]; ["a"]; ["b"]; ["a"; "b"]; ["a"; "a"; "a"; "b"]; ["b"; "a"]]
  = (fun w => snd <$> NFA.accepts three_heap w astarb_nfa)
      <$> [[]; ["a"]; ["b"]; ["a"; "b"]; ["a"; "a"; "a"; "b"]; ["b"; "a"]].
Proof. by vm_compute. Qed.

(** S5: on input ["0110"] the bit-flipping machine halts in [qH] after
    five steps, accepted, with ["1001"] in the logical cells 0 to 3. *)
Example scenario_S5 :
  (fun r =>
     (r.1.2, r.2, Automaton.isAccepted (TuringMachine.base r.1.1),
      Automaton.currentStates (TuringMachine.base r.1.1),
      (fun p => TuringMachine.getTapeCell p r.1.1) <$> [0; 1; 2; 3]))
    (TuringMachine.run flip_heap TuringMachine.defaultMaxSteps
       (TuringMachine.initSimulation flip_heap ["0"; "1"; "1"; "0"]
          flip_machine).1)
  = (5%nat, TuringMachine.Halted, Some true, [1%nat],
     [Some "1"; Some "0"; Some "0"; Some "1"]).
Proof. by vm_compute. Qed.

(** S4 as the code runs it: on ["ab"] the PDA decides as soon as
    every configuration has consumed the input, with the configuration
    [(q1, Z, 2)] and before the ε-move into the final state [q2]. *)
Example anbn_runs :
  PDA.configurations
    (PDA.run anbn_heap 1000 (PDA.initSimulation ["a"; "b"] anbn).1).1
  = [PDA.mkConfig 1%nat ["Z"] 2]
  /\ PDA.accepts anbn_heap ["a"; "b"] anbn = Some false.
Proof. by vm_compute. Qed.

(** S6: the machine that moves right forever uses its whole
    budget (here 120 steps), never trips the detector, and is rejected. *)
Example right_machine_rejected :
  (fun r => (r.1.2, r.2, Automaton.isAccepted (TuringMachine.base r.1.1)))
    (TuringMachine.run stay_heap 120 right_machine)
  = (120%nat, TuringMachine.BudgetExhausted, Some false).
Proof. by vm_compute. Qed.
